(** * couchdb driver: streaming upload encoder (db.go, chttp/chttp.go)

    A shallow embedding of the document-upload path of the CouchDB driver:
    [copyWithAttachments], [attachmentStubs], [createMultipart],
    [multipartAttachments], [extractAttachments], [interfaceToAttachments],
    [EncodeBody] and [Put], together with models of the pieces of the Go
    standard library they are written against ([encoding/json]'s scanner and
    streaming decoder, [mime/multipart]'s writer, [io.Copy]).

    Conventions.
    - A Go [byte] is an [ascii]; a Go [string] or [[]byte] is a [list ascii].
      Map keys (attachment names) are [string]s so that they can index a
      [gmap].
    - An [io.Reader] is the list of bytes it will deliver followed by its
      terminal error ([EOF] for a clean end).
    - An [io.Writer] is the list of bytes written so far; writes to it do not
      fail (the consumer keeps reading).
    - The goroutine started by [replaceAttachments]/[multipartAttachments]
      talks to its consumer through an [io.Pipe] only; the embedding runs the
      producer to completion and records what it wrote and the error passed
      to [CloseWithError]. *)

From Stdlib Require Import ZArith Lia List Bool Ascii String.
From stdpp Require Import base option list gmap strings.
Import ListNotations.

Local Open Scope char_scope.
Local Open Scope list_scope.

(** ** Bytes *)

Abbreviation byte := ascii.
Abbreviation bytes := (list ascii).

Definition code (c : byte) : Z := Z.of_N (N_of_ascii c).
Definition chr (z : Z) : byte := ascii_of_N (Z.to_N z).

Definition dquote : byte := "034".
Definition backslash : byte := "\".

Definition lit (s : string) : bytes := list_ascii_of_string s.

Definition beq (a b : byte) : bool := Ascii.eqb a b.

Definition between (lo hi c : byte) : bool :=
  (code lo <=? code c)%Z && (code c <=? code hi)%Z.

Definition isDigit (c : byte) : bool := between "0" "9" c.
Definition isDigit19 (c : byte) : bool := between "1" "9" c.
Definition isHex (c : byte) : bool :=
  between "0" "9" c || between "a" "f" c || between "A" "F" c.

(** [isSpace] of encoding/json/scanner.go. *)
Definition isSpace (c : byte) : bool :=
  beq c " " || beq c "009" || beq c "013" || beq c "010".

(** [nonSpace] of encoding/json/stream.go. *)
Definition nonSpace (b : bytes) : bool := existsb (fun c => negb (isSpace c)) b.

(** ** Errors *)

Inductive Delim := DelimLBrace | DelimRBrace | DelimLBracket | DelimRBracket.

(** A [json.Token]: a delimiter, or a decoded scalar.  A number is kept as
    its literal (the [float64] is never inspected by the driver). *)
Inductive Token :=
| TokNil                      (* Go nil: JSON null, or no token at all *)
| TokDelim (d : Delim)
| TokString (s : bytes)
| TokNumber (literal : bytes)
| TokBool (b : bool).

(** The [kivik.Status...] codes the driver attaches to its errors. *)
Inductive Status :=
| StatusBadAPICall | StatusBadRequest | StatusBadResponse | StatusNetworkError.

Inductive error :=
| EOF                          (* io.EOF *)
| ErrUnexpectedEOF             (* io.ErrUnexpectedEOF *)
| SyntaxError (c : byte) (context : string)   (* *json.SyntaxError *)
| UnmarshalTypeError (literal : bytes)        (* *json.UnmarshalTypeError *)
| ErrExpected (want : Delim) (found : Token)  (* fmt.Errorf("expected ..") *)
| EncodeError                  (* a json marshaler / unsupported type or value error *)
| ReadError (tag : nat)        (* any other failure of a reader *)
| Statusf (st : Status) (msg : bytes)         (* errors.Statusf(st, ..) *)
| WrapStatus (st : Status) (cause : error).   (* errors.WrapStatus(st, err) *)

(** ** encoding/json: the scanner (scanner.go) *)

Inductive ScanCode :=
| scanContinue | scanBeginLiteral | scanBeginObject | scanObjectKey
| scanObjectValue | scanEndObject | scanBeginArray | scanArrayValue
| scanEndArray | scanSkipSpace | scanEnd | scanError.

Inductive ParseState := parseObjectKey | parseObjectValue | parseArrayValue.

Inductive StepFn :=
| stateBeginValueOrEmpty | stateBeginValue | stateBeginStringOrEmpty
| stateBeginString | stateEndValue | stateEndTop
| stateInString | stateInStringEsc | stateInStringEscU | stateInStringEscU1
| stateInStringEscU12 | stateInStringEscU123
| stateNeg | state1 | state0 | stateDot | stateDot0 | stateE | stateESign
| stateE0 | stateT | stateTr | stateTru | stateF | stateFa | stateFal
| stateFals | stateN | stateNu | stateNul | stateError.

(** The scanner.  [parseState] is the stack of open composites, innermost
    first (Go appends at the end of a slice; the head here is its last
    element). *)
Record scanner := mkScanner {
  step : StepFn;
  parseState : list ParseState;
  scan_err : option error;
  endTop : bool
}.

Definition scanner_reset : scanner :=
  {| step := stateBeginValue; parseState := []; scan_err := None; endTop := false |}.

Definition set_step (s : scanner) (f : StepFn) : scanner :=
  {| step := f; parseState := parseState s; scan_err := scan_err s; endTop := endTop s |}.

Definition set_parseState (s : scanner) (ps : list ParseState) : scanner :=
  {| step := step s; parseState := ps; scan_err := scan_err s; endTop := endTop s |}.

(** [s.error(c, context)] *)
Definition scan_error (s : scanner) (c : byte) (context : string) : scanner * ScanCode :=
  ({| step := stateError; parseState := parseState s;
      scan_err := Some (SyntaxError c context); endTop := endTop s |}, scanError).

Definition pushParseState (s : scanner) (p : ParseState) : scanner :=
  set_parseState s (p :: parseState s).

(** [s.parseState[n-1] = p] *)
Definition setTopParseState (s : scanner) (p : ParseState) : scanner :=
  match parseState s with
  | [] => s
  | _ :: r => set_parseState s (p :: r)
  end.

Definition popParseState (s : scanner) : scanner :=
  let r := tail (parseState s) in
  match r with
  | [] => {| step := stateEndTop; parseState := []; scan_err := scan_err s; endTop := true |}
  | _ => {| step := stateEndValue; parseState := r; scan_err := scan_err s; endTop := endTop s |}
  end.

Definition do_stateEndTop (s : scanner) (c : byte) : scanner * ScanCode :=
  if negb (isSpace c)
  then (fst (scan_error s c "after top-level value"), scanEnd)
  else (s, scanEnd).

Definition do_stateEndValue (s : scanner) (c : byte) : scanner * ScanCode :=
  match parseState s with
  | [] =>
      do_stateEndTop
        {| step := stateEndTop; parseState := []; scan_err := scan_err s; endTop := true |} c
  | ps :: _ =>
      if isSpace c then (set_step s stateEndValue, scanSkipSpace)
      else match ps with
           | parseObjectKey =>
               if beq c ":"
               then (set_step (setTopParseState s parseObjectValue) stateBeginValue, scanObjectKey)
               else scan_error s c "after object key"
           | parseObjectValue =>
               if beq c ","
               then (set_step (setTopParseState s parseObjectKey) stateBeginString, scanObjectValue)
               else if beq c "}" then (popParseState s, scanEndObject)
               else scan_error s c "after object key:value pair"
           | parseArrayValue =>
               if beq c "," then (set_step s stateBeginValue, scanArrayValue)
               else if beq c "]" then (popParseState s, scanEndArray)
               else scan_error s c "after array element"
           end
  end.

Definition do_stateBeginValue (s : scanner) (c : byte) : scanner * ScanCode :=
  if isSpace c then (s, scanSkipSpace)
  else if beq c "{" then
    (pushParseState (set_step s stateBeginStringOrEmpty) parseObjectKey, scanBeginObject)
  else if beq c "[" then
    (pushParseState (set_step s stateBeginValueOrEmpty) parseArrayValue, scanBeginArray)
  else if beq c dquote then (set_step s stateInString, scanBeginLiteral)
  else if beq c "-" then (set_step s stateNeg, scanBeginLiteral)
  else if beq c "0" then (set_step s state0, scanBeginLiteral)
  else if beq c "t" then (set_step s stateT, scanBeginLiteral)
  else if beq c "f" then (set_step s stateF, scanBeginLiteral)
  else if beq c "n" then (set_step s stateN, scanBeginLiteral)
  else if isDigit19 c then (set_step s state1, scanBeginLiteral)
  else scan_error s c "looking for beginning of value".

Definition do_stateBeginValueOrEmpty (s : scanner) (c : byte) : scanner * ScanCode :=
  if isSpace c then (s, scanSkipSpace)
  else if beq c "]" then do_stateEndValue s c
  else do_stateBeginValue s c.

Definition do_stateBeginString (s : scanner) (c : byte) : scanner * ScanCode :=
  if isSpace c then (s, scanSkipSpace)
  else if beq c dquote then (set_step s stateInString, scanBeginLiteral)
  else scan_error s c "looking for beginning of object key string".

Definition do_stateBeginStringOrEmpty (s : scanner) (c : byte) : scanner * ScanCode :=
  if isSpace c then (s, scanSkipSpace)
  else if beq c "}" then do_stateEndValue (setTopParseState s parseObjectValue) c
  else do_stateBeginString s c.

Definition do_stateInString (s : scanner) (c : byte) : scanner * ScanCode :=
  if beq c dquote then (set_step s stateEndValue, scanContinue)
  else if beq c backslash then (set_step s stateInStringEsc, scanContinue)
  else if (code c <? 32)%Z then scan_error s c "in string literal"
  else (s, scanContinue).

Definition isEscChar (c : byte) : bool :=
  beq c "b" || beq c "f" || beq c "n" || beq c "r" || beq c "t"
  || beq c backslash || beq c "/" || beq c dquote.

Definition do_stateInStringEsc (s : scanner) (c : byte) : scanner * ScanCode :=
  if isEscChar c then (set_step s stateInString, scanContinue)
  else if beq c "u" then (set_step s stateInStringEscU, scanContinue)
  else scan_error s c "in string escape code".

Definition do_hex (next : StepFn) (s : scanner) (c : byte) : scanner * ScanCode :=
  if isHex c then (set_step s next, scanContinue)
  else scan_error s c "in \u hexadecimal character escape".

Definition do_state0 (s : scanner) (c : byte) : scanner * ScanCode :=
  if beq c "." then (set_step s stateDot, scanContinue)
  else if beq c "e" || beq c "E" then (set_step s stateE, scanContinue)
  else do_stateEndValue s c.

Definition do_state1 (s : scanner) (c : byte) : scanner * ScanCode :=
  if isDigit c then (set_step s state1, scanContinue)
  else do_state0 s c.

Definition do_stateNeg (s : scanner) (c : byte) : scanner * ScanCode :=
  if beq c "0" then (set_step s state0, scanContinue)
  else if isDigit19 c then (set_step s state1, scanContinue)
  else scan_error s c "in numeric literal".

Definition do_stateDot (s : scanner) (c : byte) : scanner * ScanCode :=
  if isDigit c then (set_step s stateDot0, scanContinue)
  else scan_error s c "after decimal point in numeric literal".

Definition do_stateDot0 (s : scanner) (c : byte) : scanner * ScanCode :=
  if isDigit c then (s, scanContinue)
  else if beq c "e" || beq c "E" then (set_step s stateE, scanContinue)
  else do_stateEndValue s c.

Definition do_stateESign (s : scanner) (c : byte) : scanner * ScanCode :=
  if isDigit c then (set_step s stateE0, scanContinue)
  else scan_error s c "in exponent of numeric literal".

Definition do_stateE (s : scanner) (c : byte) : scanner * ScanCode :=
  if beq c "+" || beq c "-" then (set_step s stateESign, scanContinue)
  else do_stateESign s c.

Definition do_stateE0 (s : scanner) (c : byte) : scanner * ScanCode :=
  if isDigit c then (s, scanContinue)
  else do_stateEndValue s c.

(** The states spelling out [true], [false] and [null]. *)
Definition do_letter (want : byte) (next : StepFn) (context : string)
    (s : scanner) (c : byte) : scanner * ScanCode :=
  if beq c want then (set_step s next, scanContinue)
  else scan_error s c context.

(** [s.step(s, c)] *)
Definition scanStep (s : scanner) (c : byte) : scanner * ScanCode :=
  match step s with
  | stateBeginValueOrEmpty => do_stateBeginValueOrEmpty s c
  | stateBeginValue => do_stateBeginValue s c
  | stateBeginStringOrEmpty => do_stateBeginStringOrEmpty s c
  | stateBeginString => do_stateBeginString s c
  | stateEndValue => do_stateEndValue s c
  | stateEndTop => do_stateEndTop s c
  | stateInString => do_stateInString s c
  | stateInStringEsc => do_stateInStringEsc s c
  | stateInStringEscU => do_hex stateInStringEscU1 s c
  | stateInStringEscU1 => do_hex stateInStringEscU12 s c
  | stateInStringEscU12 => do_hex stateInStringEscU123 s c
  | stateInStringEscU123 => do_hex stateInString s c
  | stateNeg => do_stateNeg s c
  | state1 => do_state1 s c
  | state0 => do_state0 s c
  | stateDot => do_stateDot s c
  | stateDot0 => do_stateDot0 s c
  | stateE => do_stateE s c
  | stateESign => do_stateESign s c
  | stateE0 => do_stateE0 s c
  | stateT => do_letter "r" stateTr "in literal true (expecting 'r')" s c
  | stateTr => do_letter "u" stateTru "in literal true (expecting 'u')" s c
  | stateTru => do_letter "e" stateEndValue "in literal true (expecting 'e')" s c
  | stateF => do_letter "a" stateFa "in literal false (expecting 'a')" s c
  | stateFa => do_letter "l" stateFal "in literal false (expecting 'l')" s c
  | stateFal => do_letter "s" stateFals "in literal false (expecting 's')" s c
  | stateFals => do_letter "e" stateEndValue "in literal false (expecting 'e')" s c
  | stateN => do_letter "u" stateNu "in literal null (expecting 'u')" s c
  | stateNu => do_letter "l" stateNul "in literal null (expecting 'l')" s c
  | stateNul => do_letter "l" stateEndValue "in literal null (expecting 'l')" s c
  | stateError => (s, scanError)
  end.

(** ** unicode/utf8, unicode/utf16 and the string unquoting of decode.go *)

Definition RuneError : Z := 65533.

(** [utf8.EncodeRune] *)
Definition EncodeRune (r : Z) : bytes :=
  if (r <? 0)%Z then [chr 239; chr 191; chr 189]
  else if (r <=? 127)%Z then [chr r]
  else if (r <=? 2047)%Z then
    [chr (Z.lor 192 (Z.shiftr r 6)); chr (Z.lor 128 (Z.land r 63))]
  else if (1114111 <? r)%Z || ((55296 <=? r)%Z && (r <=? 57343)%Z) then
    [chr 239; chr 191; chr 189]
  else if (r <=? 65535)%Z then
    [chr (Z.lor 224 (Z.shiftr r 12));
     chr (Z.lor 128 (Z.land (Z.shiftr r 6) 63));
     chr (Z.lor 128 (Z.land r 63))]
  else
    [chr (Z.lor 240 (Z.shiftr r 18));
     chr (Z.lor 128 (Z.land (Z.shiftr r 12) 63));
     chr (Z.lor 128 (Z.land (Z.shiftr r 6) 63));
     chr (Z.lor 128 (Z.land r 63))].

(** The [first] and [acceptRanges] tables of utf8.go: for a leading byte,
    the sequence length and the accepted range of the second byte. *)
Definition utf8_first (p0 : Z) : option (nat * Z * Z) :=
  if (p0 <? 194)%Z then None
  else if (p0 <=? 223)%Z then Some (2%nat, 128, 191)%Z
  else if (p0 =? 224)%Z then Some (3%nat, 160, 191)%Z
  else if (p0 <=? 236)%Z then Some (3%nat, 128, 191)%Z
  else if (p0 =? 237)%Z then Some (3%nat, 128, 159)%Z
  else if (p0 <=? 239)%Z then Some (3%nat, 128, 191)%Z
  else if (p0 =? 240)%Z then Some (4%nat, 144, 191)%Z
  else if (p0 <=? 243)%Z then Some (4%nat, 128, 191)%Z
  else if (p0 =? 244)%Z then Some (4%nat, 128, 143)%Z
  else None.

Definition isCont (b : Z) : bool := (128 <=? b)%Z && (b <=? 191)%Z.

(** [utf8.DecodeRune]: the rune and its width in bytes; [(RuneError, 1)] for
    an invalid or short encoding, [(RuneError, 0)] for an empty input. *)
Definition DecodeRune (p : bytes) : Z * nat :=
  match p with
  | [] => (RuneError, 0%nat)
  | c0 :: p1 =>
      let p0 := code c0 in
      if (p0 <? 128)%Z then (p0, 1%nat)
      else match utf8_first p0 with
           | None => (RuneError, 1%nat)
           | Some (sz, lo, hi) =>
               if (length p <? sz)%nat then (RuneError, 1%nat)
               else match p1 with
                    | [] => (RuneError, 1%nat)
                    | c1 :: p2 =>
                        let b1 := code c1 in
                        if (b1 <? lo)%Z || (hi <? b1)%Z then (RuneError, 1%nat)
                        else if (sz <=? 2)%nat then
                          (Z.lor (Z.shiftl (Z.land p0 31) 6) (Z.land b1 63), 2%nat)
                        else match p2 with
                             | [] => (RuneError, 1%nat)
                             | c2 :: p3 =>
                                 let b2 := code c2 in
                                 if negb (isCont b2) then (RuneError, 1%nat)
                                 else if (sz <=? 3)%nat then
                                   (Z.lor (Z.lor (Z.shiftl (Z.land p0 15) 12)
                                                 (Z.shiftl (Z.land b1 63) 6))
                                          (Z.land b2 63), 3%nat)
                                 else match p3 with
                                      | [] => (RuneError, 1%nat)
                                      | c3 :: _ =>
                                          let b3 := code c3 in
                                          if negb (isCont b3) then (RuneError, 1%nat)
                                          else
                                            (Z.lor (Z.lor (Z.lor (Z.shiftl (Z.land p0 7) 18)
                                                                 (Z.shiftl (Z.land b1 63) 12))
                                                          (Z.shiftl (Z.land b2 63) 6))
                                                   (Z.land b3 63), 4%nat)
                                      end
                             end
                    end
           end
  end.

(** [utf16.DecodeRune] *)
Definition utf16_DecodeRune (r1 r2 : Z) : Z :=
  if (55296 <=? r1)%Z && (r1 <? 56320)%Z && (56320 <=? r2)%Z && (r2 <? 57344)%Z
  then (Z.lor (Z.shiftl (r1 - 55296) 10) (r2 - 56320) + 65536)%Z
  else RuneError.

(** [utf16.IsSurrogate] *)
Definition IsSurrogate (r : Z) : bool := (55296 <=? r)%Z && (r <? 57344)%Z.

Definition hexval (c : byte) : option Z :=
  if between "0" "9" c then Some (code c - code "0")%Z
  else if between "a" "f" c then Some (code c - code "a" + 10)%Z
  else if between "A" "F" c then Some (code c - code "A" + 10)%Z
  else None.

(** [getu4] of decode.go: the rune of a leading [\uXXXX], or -1. *)
Definition getu4 (s : bytes) : Z :=
  match s with
  | b :: u :: h1 :: h2 :: h3 :: h4 :: _ =>
      if beq b backslash && beq u "u" then
        match hexval h1, hexval h2, hexval h3, hexval h4 with
        | Some a, Some b, Some c, Some d => (((a * 16 + b) * 16 + c) * 16 + d)%Z
        | _, _, _, _ => (-1)%Z
        end
      else (-1)%Z
  | _ => (-1)%Z
  end.

(** One turn of the loop of [unquoteBytes]: the bytes appended to the result
    and the number of input bytes consumed; [None] when unquoting fails. *)
Definition unquote_one (s : bytes) : option (bytes * nat) :=
  match s with
  | [] => None
  | c :: r =>
      if beq c backslash then
        match r with
        | [] => None
        | e :: _ =>
            if beq e dquote || beq e backslash || beq e "/" || beq e "'"
            then Some ([e], 2%nat)
            else if beq e "b" then Some (["008"], 2%nat)
            else if beq e "f" then Some (["012"], 2%nat)
            else if beq e "n" then Some (["010"], 2%nat)
            else if beq e "r" then Some (["013"], 2%nat)
            else if beq e "t" then Some (["009"], 2%nat)
            else if beq e "u" then
              let rr := getu4 s in
              if (rr <? 0)%Z then None
              else if IsSurrogate rr then
                let rr1 := getu4 (drop 6 s) in
                let dec := utf16_DecodeRune rr rr1 in
                if negb (dec =? RuneError)%Z then Some (EncodeRune dec, 12%nat)
                else Some (EncodeRune RuneError, 6%nat)
              else Some (EncodeRune rr, 6%nat)
            else None
        end
      else if beq c dquote || (code c <? 32)%Z then None
      else if (code c <? 128)%Z then Some ([c], 1%nat)
      else let '(rr, size) := DecodeRune s in Some (EncodeRune rr, size)
  end.

Fixpoint unquote_loop (fuel : nat) (s : bytes) : option bytes :=
  match s with
  | [] => Some []
  | _ :: _ =>
      match fuel with
      | O => None
      | S fuel' =>
          match unquote_one s with
          | None => None
          | Some (out, n) =>
              match unquote_loop fuel' (drop n s) with
              | None => None
              | Some rest => Some (out ++ rest)
              end
          end
      end
  end.

(** [unquoteBytes]: [s] is a string literal with its quotes. *)
Definition unquoteBytes (s : bytes) : option bytes :=
  match s with
  | q :: r =>
      match rev r with
      | q' :: inner_rev =>
          if beq q dquote && beq q' dquote
          then unquote_loop (length r) (rev inner_rev)
          else None
      | [] => None
      end
  | [] => None
  end.

(** ** strconv.ParseFloat, as far as [convertNumber] of decode.go needs it

    [ParseFloat(s, 64)] fails on a well-formed literal exactly when the value
    is more than half a unit in the last place beyond the largest [float64],
    that is when its magnitude reaches 2^1024 - 2^970. *)

Definition digitsVal (ds : bytes) : Z :=
  fold_left (fun acc c => (acc * 10 + (code c - code "0"))%Z) ds 0%Z.

Fixpoint spanDigits (l : bytes) : bytes * bytes :=
  match l with
  | c :: r => if isDigit c then let '(a, b) := spanDigits r in (c :: a, b) else ([], l)
  | [] => ([], [])
  end.

Definition float64_limit : Z := (2 ^ 1024 - 2 ^ 970)%Z.

Definition parseFloatOK (literal : bytes) : bool :=
  let l := match literal with c :: r => if beq c "-" then r else literal | [] => [] end in
  let '(ip, r1) := spanDigits l in
  let '(fp, r2) := match r1 with
                   | c :: r => if beq c "." then spanDigits r else ([], r1)
                   | [] => ([], [])
                   end in
  let e := match r2 with
           | c :: r =>
               if beq c "e" || beq c "E" then
                 match r with
                 | sg :: ds =>
                     if beq sg "+" then digitsVal ds
                     else if beq sg "-" then (- digitsVal ds)%Z
                     else digitsVal r
                 | [] => 0%Z
                 end
               else 0%Z
           | [] => 0%Z
           end in
  let m := digitsVal (ip ++ fp) in
  let e10 := (e - Z.of_nat (length fp))%Z in
  if (0 <=? e10)%Z then (m * 10 ^ e10 <? float64_limit)%Z
  else (m <? float64_limit * 10 ^ (- e10))%Z.

(** ** encoding/json: the streaming decoder (stream.go) *)

Inductive TokenState :=
| tokenTopValue | tokenArrayStart | tokenArrayValue | tokenArrayComma
| tokenObjectStart | tokenObjectKey | tokenObjectColon | tokenObjectValue
| tokenObjectComma.

(** A [json.Decoder] over a reader that delivers [dec_buf] and then [io.EOF].
    [dec_buf] is all input not yet consumed: Go's [dec.buf[dec.scanp:]]
    followed by what the reader still holds.  The decoder's scanner is reset
    by every [readValue] and is therefore not part of the state. *)
Record Decoder := mkDecoder {
  dec_buf : bytes;
  dec_err : option error;
  tokenState : TokenState;
  tokenStack : list TokenState
}.

(** [json.NewDecoder(r)] *)
Definition NewDecoder (r : bytes) : Decoder :=
  {| dec_buf := r; dec_err := None; tokenState := tokenTopValue; tokenStack := [] |}.

Definition set_buf (d : Decoder) (b : bytes) : Decoder :=
  {| dec_buf := b; dec_err := dec_err d; tokenState := tokenState d; tokenStack := tokenStack d |}.

Definition set_tokenState (d : Decoder) (t : TokenState) : Decoder :=
  {| dec_buf := dec_buf d; dec_err := dec_err d; tokenState := t; tokenStack := tokenStack d |}.

Definition set_err (d : Decoder) (e : error) : Decoder :=
  {| dec_buf := dec_buf d; dec_err := Some e; tokenState := tokenState d; tokenStack := tokenStack d |}.

(** [dec.scanp++] *)
Definition advance (d : Decoder) : Decoder := set_buf d (tail (dec_buf d)).

Fixpoint skipSpace (b : bytes) : bytes :=
  match b with
  | c :: r => if isSpace c then skipSpace r else b
  | [] => []
  end.

(** [dec.peek()]: the next byte that is not a space, left unconsumed. *)
Definition peek (d : Decoder) : (error + byte) * Decoder :=
  match skipSpace (dec_buf d) with
  | [] => (inl EOF, d)
  | c :: r => (inr c, set_buf d (c :: r))
  end.

(** The loop of [dec.readValue()] from scanner state [s] over [buf], with
    [n] bytes already scanned; [whole] is the buffer the call started on. *)
Fixpoint readValue_loop (whole : bytes) (s : scanner) (buf : bytes) (n : nat)
  : error + nat :=
  match buf with
  | [] =>
      match snd (scanStep s " ") with
      | scanEnd => inr n
      | _ => if nonSpace whole then inl ErrUnexpectedEOF else inl EOF
      end
  | c :: rest =>
      let '(s1, v) := scanStep s c in
      match v with
      | scanEnd => inr n
      | scanEndObject | scanEndArray =>
          let '(s2, v2) := do_stateEndValue s1 " " in
          match v2 with
          | scanEnd => inr (S n)
          | _ => readValue_loop whole s2 rest (S n)
          end
      | scanError =>
          inl (default (SyntaxError c EmptyString) (scan_err s1))
      | _ => readValue_loop whole s1 rest (S n)
      end
  end.

(** [dec.readValue()]: the length of the next value, leading space included. *)
Definition readValue (buf : bytes) : error + nat :=
  readValue_loop buf scanner_reset buf 0.

Definition tokenValueAllowed (d : Decoder) : bool :=
  match tokenState d with
  | tokenTopValue | tokenArrayStart | tokenArrayValue | tokenObjectValue => true
  | _ => false
  end.

Definition tokenValueEnd (d : Decoder) : Decoder :=
  match tokenState d with
  | tokenArrayStart | tokenArrayValue => set_tokenState d tokenArrayComma
  | tokenObjectValue => set_tokenState d tokenObjectComma
  | _ => d
  end.

Definition tokenPrepareForDecode (d : Decoder) : option error * Decoder :=
  match tokenState d with
  | tokenArrayComma =>
      match peek d with
      | (inl e, d1) => (Some e, d1)
      | (inr c, d1) =>
          if negb (beq c ",")
          then (Some (SyntaxError c "expected comma after array element"), d1)
          else (None, set_tokenState (advance d1) tokenArrayValue)
      end
  | tokenObjectColon =>
      match peek d with
      | (inl e, d1) => (Some e, d1)
      | (inr c, d1) =>
          if negb (beq c ":")
          then (Some (SyntaxError c "expected colon after object key"), d1)
          else (None, set_tokenState (advance d1) tokenObjectValue)
      end
  | _ => (None, d)
  end.

(** [dec.Decode(v)].  [unmarshal] stands for [dec.d.unmarshal(v)] at the type
    of [v]: it receives the bytes of the value that [readValue] delimited. *)
Definition Decode {A} (unmarshal : bytes -> error + A) (d : Decoder)
  : (error + A) * Decoder :=
  match dec_err d with
  | Some e => (inl e, d)
  | None =>
      match tokenPrepareForDecode d with
      | (Some e, d1) => (inl e, d1)
      | (None, d1) =>
          if negb (tokenValueAllowed d1)
          then (inl (SyntaxError " " "not at beginning of value"), d1)
          else match readValue (dec_buf d1) with
               | inl e => (inl e, set_err d1 e)
               | inr n =>
                   let d2 := set_buf d1 (drop n (dec_buf d1)) in
                   (unmarshal (take n (dec_buf d1)), tokenValueEnd d2)
               end
      end
  end.

(** Decoding into a [json.RawMessage]: the bytes of the value itself. *)
Definition unmarshalRaw (item : bytes) : error + bytes := inr (skipSpace item).

(** Internal inconsistency of the decoder ([errPhase]); the scanner has
    accepted the literal, so unquoting does not fail. *)
Definition ErrPhase : error := SyntaxError " " "JSON decoder out of sync".

(** Decoding a string literal into a Go [string]. *)
Definition unmarshalString (item : bytes) : error + bytes :=
  match unquoteBytes (skipSpace item) with
  | Some s => inr s
  | None => inl ErrPhase
  end.

(** Decoding a scalar into an [interface{}] ([literalInterface]). *)
Definition unmarshalAny (item : bytes) : error + Token :=
  match skipSpace item with
  | [] => inl ErrPhase
  | c :: r =>
      if beq c "n" then inr TokNil
      else if beq c "t" then inr (TokBool true)
      else if beq c "f" then inr (TokBool false)
      else if beq c dquote then
        match unquoteBytes (c :: r) with
        | Some s => inr (TokString s)
        | None => inl ErrPhase
        end
      else if beq c "-" || isDigit c then
        if parseFloatOK (c :: r) then inr (TokNumber (c :: r))
        else inl (UnmarshalTypeError (c :: r))
      else inl ErrPhase
  end.

Definition tokenError (d : Decoder) (c : byte) : (error + Token) * Decoder :=
  let context :=
    match tokenState d with
    | tokenTopValue => "looking for beginning of value"
    | tokenArrayStart | tokenArrayValue | tokenObjectValue => "looking for beginning of value"
    | tokenArrayComma => "after array element"
    | tokenObjectKey => "looking for beginning of object key string"
    | tokenObjectColon => "after object key"
    | tokenObjectComma => "after object key:value pair"
    | tokenObjectStart => EmptyString
    end%string in
  (inl (SyntaxError c context), d).

Definition popTokenStack (d : Decoder) : Decoder :=
  match tokenStack d with
  | t :: r => {| dec_buf := dec_buf d; dec_err := dec_err d; tokenState := t; tokenStack := r |}
  | [] => d
  end.

Definition pushTokenStack (d : Decoder) (t : TokenState) : Decoder :=
  {| dec_buf := dec_buf d; dec_err := dec_err d; tokenState := t;
     tokenStack := tokenState d :: tokenStack d |}.

(** One turn of the [for] loop of [dec.Token()]; [again] is the next turn,
    taken only after a [:] or a [,] has been consumed. *)
Definition Token_body (again : Decoder → (error + Token) * Decoder) (d : Decoder)
  : (error + Token) * Decoder :=
  match peek d with
  | (inl e, d1) => (inl e, d1)
  | (inr c, d1) =>
      if beq c "[" then
        if negb (tokenValueAllowed d1) then tokenError d1 c
        else (inr (TokDelim DelimLBracket), pushTokenStack (advance d1) tokenArrayStart)
      else if beq c "]" then
        match tokenState d1 with
        | tokenArrayStart | tokenArrayComma =>
            (inr (TokDelim DelimRBracket), tokenValueEnd (popTokenStack (advance d1)))
        | _ => tokenError d1 c
        end
      else if beq c "{" then
        if negb (tokenValueAllowed d1) then tokenError d1 c
        else (inr (TokDelim DelimLBrace), pushTokenStack (advance d1) tokenObjectStart)
      else if beq c "}" then
        match tokenState d1 with
        | tokenObjectStart | tokenObjectComma =>
            (inr (TokDelim DelimRBrace), tokenValueEnd (popTokenStack (advance d1)))
        | _ => tokenError d1 c
        end
      else if beq c ":" then
        match tokenState d1 with
        | tokenObjectColon => again (set_tokenState (advance d1) tokenObjectValue)
        | _ => tokenError d1 c
        end
      else if beq c "," then
        match tokenState d1 with
        | tokenArrayComma => again (set_tokenState (advance d1) tokenArrayValue)
        | tokenObjectComma => again (set_tokenState (advance d1) tokenObjectKey)
        | _ => tokenError d1 c
        end
      else
        let key_position :=
          match tokenState d1 with
          | tokenObjectStart | tokenObjectKey => true
          | _ => false
          end in
        if beq c dquote && key_position then
          let old := tokenState d1 in
          match Decode unmarshalString (set_tokenState d1 tokenTopValue) with
          | (inl e, d2) => (inl e, set_tokenState d2 old)
          | (inr x, d2) => (inr (TokString x), set_tokenState d2 tokenObjectColon)
          end
        else if negb (tokenValueAllowed d1) then tokenError d1 c
        else Decode unmarshalAny d1
  end.

(** [dec.Token()], with [fuel] bounding the number of turns of its loop.
    Every further turn follows a consumed byte, so [fuel] larger than the
    input left is never used up. *)
Fixpoint Token_loop (fuel : nat) (d : Decoder) : (error + Token) * Decoder :=
  match fuel with
  | O => (inl ErrPhase, d)
  | S fuel' => Token_body (Token_loop fuel') d
  end.

Definition NextToken (d : Decoder) : (error + Token) * Decoder :=
  Token_loop (S (S (length (dec_buf d)))) d.

(** [dec.Buffered()] followed by the rest of the reader: every byte of the
    input that the decoder has not consumed. *)
Definition unread (d : Decoder) : bytes := dec_buf d.

#[global] Instance Delim_eq_dec : EqDecision Delim.
Proof. solve_decision. Defined.

#[global] Instance Token_eq_dec : EqDecision Token.
Proof. solve_decision. Defined.

#[global] Instance Status_eq_dec : EqDecision Status.
Proof. solve_decision. Defined.

#[global] Instance error_eq_dec : EqDecision error.
Proof. solve_decision. Defined.

(** ** db.go: copyWithAttachments *)

Definition attachmentsKey : bytes := lit "_attachments".

(** [fmt.Fprintf(w, "%v", t)] for the two tokens the function prints: a
    [json.Delim] prints as its character, and the nil token as [<nil>]. *)
Definition delimByte (d : Delim) : byte :=
  match d with
  | DelimLBrace => "{" | DelimRBrace => "}"
  | DelimLBracket => "[" | DelimRBracket => "]"
  end.

Definition fmt_v (t : Token) : bytes :=
  match t with
  | TokNil => lit "<nil>"
  | TokDelim d => [delimByte d]
  | TokString s => s
  | TokBool true => lit "true"
  | TokBool false => lit "false"
  | TokNumber l => l
  end.

(** The [for] loop of [copyWithAttachments].  [w] is what has been written,
    [att] what [json.NewEncoder(w).Encode(att)] writes (or its error).  The
    result is the final content of [w] and the returned error; [None] only
    when [fuel] runs out. *)
Fixpoint copy_loop (fuel : nat) (att : error + bytes) (dec : Decoder)
    (first : bool) (w : bytes) : option (bytes * option error) :=
  match fuel with
  | O => None
  | S fuel' =>
      match NextToken dec with
      | (inl e, _) =>
          if decide (e = EOF) then Some (w, None) else Some (w, Some e)
      | (inr t, dec1) =>
          match t with
          | TokString tp =>
              let w1 := if first then w else w ++ [","] in
              let w2 := w1 ++ [dquote] ++ tp ++ [dquote; ":"] in
              match Decode unmarshalRaw dec1 with
              | (inl e, _) => Some (w2, Some e)
              | (inr val, dec2) =>
                  if decide (tp = attachmentsKey) then
                    match att with
                    | inl e => Some (w2, Some e)
                    | inr enc => Some (w2 ++ enc ++ unread dec2, None)
                    end
                  else copy_loop fuel' att dec2 false (w2 ++ val)
              end
          | TokDelim tp =>
              if decide (tp = DelimRBrace)
              then copy_loop fuel' att dec1 first (w ++ fmt_v t)
              else Some (w, Some (ErrExpected DelimRBrace t))
          | _ => copy_loop fuel' att dec1 first w
          end
      end
  end.

Definition copyWithAttachments_fuel (fuel : nat) (r : bytes) (att : error + bytes)
  : option (bytes * option error) :=
  let dec := NewDecoder r in
  match NextToken dec with
  | (inr t, dec1) =>
      if decide (t = TokDelim DelimLBrace)
      then copy_loop fuel att dec1 true (fmt_v t)
      else Some ([], Some (ErrExpected DelimLBrace t))
  | (inl e, dec1) =>
      if decide (e = EOF)
      then copy_loop fuel att dec1 true (fmt_v TokNil)
      else Some ([], Some e)
  end.

(** Every turn of the loop that does not return consumes input, so one more
    turn than there are input bytes is always enough. *)
Definition copyWithAttachments (r : bytes) (att : error + bytes)
  : bytes * option error :=
  match copyWithAttachments_fuel (S (length r)) r att with
  | Some res => res
  | None => ([], Some ErrPhase)
  end.

(** ** The token trace of an input

    What the decoder yields when it is driven the way the loop of
    [copyWithAttachments] drives it: [Token()], and after every string token
    a [Decode] into a raw message.  The trace stops at the end of the input
    or at the first call that fails. *)

Inductive Event :=
| EvMember (key val rest : bytes)   (* a key, its raw value, the input left *)
| EvToken (t : Token)               (* any token that is not a string *)
| EvTokenError (e : error)          (* Token() failed (not by io.EOF) *)
| EvValueError (key : bytes) (e : error).  (* Decode() failed after a key *)

Fixpoint events (fuel : nat) (d : Decoder) : list Event :=
  match fuel with
  | O => []
  | S fuel' =>
      match NextToken d with
      | (inl e, _) => if decide (e = EOF) then [] else [EvTokenError e]
      | (inr (TokString k), d1) =>
          match Decode unmarshalRaw d1 with
          | (inl e, _) => [EvValueError k e]
          | (inr v, d2) => EvMember k v (unread d2) :: events fuel' d2
          end
      | (inr t, d1) => EvToken t :: events fuel' d1
      end
  end.

(** The first token of the input. *)
Definition firstToken (r : bytes) : error + Token := fst (NextToken (NewDecoder r)).

(** The trace of what follows the first token. *)
Definition memberTrace (r : bytes) : list Event :=
  events (S (length r)) (snd (NextToken (NewDecoder r))).

Definition isTarget (ev : Event) : bool :=
  match ev with
  | EvMember k _ _ => bool_decide (k = attachmentsKey)
  | _ => false
  end.

(** The error, if any, that an event means for the rewriter: a failed decoder
    call, or a delimiter other than the closing brace. *)
Definition eventFailure (ev : Event) : option error :=
  match ev with
  | EvTokenError e => Some e
  | EvValueError _ e => Some e
  | EvToken (TokDelim dl) =>
      if decide (dl = DelimRBrace) then None
      else Some (ErrExpected DelimRBrace (TokDelim dl))
  | _ => None
  end.

(** A failure occurs before the target key has been found. *)
Definition failsBeforeTarget (evs : list Event) : Prop :=
  ∃ i ev, evs !! i = Some ev ∧ is_Some (eventFailure ev)
          ∧ ∀ j ev', (j < i)%nat → evs !! j = Some ev' → isTarget ev' = false.

(** The target key is found, with raw value [val] and [rest] left unread,
    before any failure. *)
Definition findsTarget (evs : list Event) (val rest : bytes) : Prop :=
  ∃ i, evs !! i = Some (EvMember attachmentsKey val rest)
       ∧ ∀ j ev', (j < i)%nat → evs !! j = Some ev' →
                  isTarget ev' = false ∧ eventFailure ev' = None.

(** The condition under which the specification says the rewriter fails:
    the first token is not an opening brace (as on an empty input, which has
    no token), or a failure occurs before the target key has been found. *)
Definition specMalformed (r : bytes) : Prop :=
  firstToken r ≠ inr (TokDelim DelimLBrace) ∨ failsBeforeTarget (memberTrace r).

Fixpoint firstFailure (evs : list Event) : option error :=
  match evs with
  | [] => None
  | ev :: r =>
      if isTarget ev then None
      else match eventFailure ev with
           | Some e => Some e
           | None => firstFailure r
           end
  end.

(** ** Object texts the decoder accepts

    The shape of a JSON object text: members [key : value] separated by
    commas, with optional space around every token. *)

(** A key byte that needs no escape and is not changed by unquoting:
    printable ASCII other than the quote and the backslash. *)
Definition plainByte (c : byte) : bool :=
  (32 <=? code c)%Z && (code c <? 128)%Z && negb (beq c dquote)
  && negb (beq c backslash).

Definition plainKey (k : bytes) : bool := forallb plainByte k.

Definition allSpace (ws : bytes) : bool := forallb isSpace ws.

(** [v] is the text of exactly one JSON value, without space before it: the
    decoder, given [v] alone, reads all of it as one value. *)
Definition rawValue (v : bytes) : bool :=
  match v with c :: _ => negb (isSpace c) | [] => false end
  && bool_decide (readValue v = inr (length v)).

(** A byte that cannot continue a number. *)
Definition delimiting (c : byte) : bool :=
  negb (isDigit c || beq c "." || beq c "e" || beq c "E").

(** One member of an object text, with the space around its tokens:
    [m_pre "m_key" m_mid : m_post m_val m_end]. *)
Record Member := mkMember {
  m_pre : bytes; m_key : bytes; m_mid : bytes;
  m_post : bytes; m_val : bytes; m_end : bytes
}.

Definition memberText (m : Member) : bytes :=
  m_pre m ++ [dquote] ++ m_key m ++ [dquote] ++ m_mid m ++ [":"]
    ++ m_post m ++ m_val m ++ m_end m.

Fixpoint membersText (ms : list Member) : bytes :=
  match ms with
  | [] => []
  | [m] => memberText m
  | m :: r => memberText m ++ [","] ++ membersText r
  end.

(** [ws0 { inner members } ws1] *)
Definition objectText (ws0 inner : bytes) (ms : list Member) (ws1 : bytes) : bytes :=
  ws0 ++ ["{"] ++ inner ++ membersText ms ++ ["}"] ++ ws1.

Definition memberOK (m : Member) : bool :=
  allSpace (m_pre m) && plainKey (m_key m) && allSpace (m_mid m)
  && allSpace (m_post m) && rawValue (m_val m) && allSpace (m_end m).

(** The same member without any space: ["key":value]. *)
Definition compactMember (m : Member) : bytes :=
  [dquote] ++ m_key m ++ [dquote; ":"] ++ m_val m.

Fixpoint compactMembers (ms : list Member) : bytes :=
  match ms with
  | [] => []
  | [m] => compactMember m
  | m :: r => compactMember m ++ [","] ++ compactMembers r
  end.

Definition compactObject (ms : list Member) : bytes :=
  ["{"] ++ compactMembers ms ++ ["}"].

(** A member with its value replaced. *)
Definition withVal (m : Member) (v : bytes) : Member :=
  {| m_pre := m_pre m; m_key := m_key m; m_mid := m_mid m;
     m_post := m_post m; m_val := v; m_end := m_end m |}.

(** A member that the rewriter copies: well formed, and not the target. *)
Definition copied (m : Member) : Prop :=
  memberOK m = true ∧ m_key m ≠ attachmentsKey.

(** ** Streams and attachments *)

(** An [io.Reader]/[io.ReadCloser]: the bytes it delivers, then its terminal
    error ([None] for [io.EOF]).  A stream that fails after K bytes has K
    bytes of [content] and [failure = Some _]. *)
Record Stream := mkStream { content : bytes; failure : option error }.

(** [kivik.Attachment], as far as the encoder looks at it: the declared
    content type and the content stream. *)
Record Attachment := mkAttachment { ContentType : bytes; Content : Stream }.

(** [kivik.Attachments] is a [map[string]*Attachment]. *)
Abbreviation Attachments := (gmap string Attachment).

(** Go's [range] over a map visits every entry once, in an order that is not
    specified: [order] is a possible visiting order of [m]. *)
Definition rangeOf (m : Attachments) (order : list (string * Attachment)) : Prop :=
  order ≡ₚ map_to_list m.

(** The values stored in the [map[string]interface{}] of a stub. *)
Inductive GoScalar := VString (s : bytes) | VBool (b : bool).

#[global] Instance GoScalar_eq_dec : EqDecision GoScalar.
Proof. solve_decision. Defined.

(** The stub of one attachment:
    [map[string]interface{}{"content_type": att.ContentType, "follows": true}] *)
Definition stubOf (att : Attachment) : gmap string GoScalar :=
  <["content_type"%string := VString (ContentType att)]>
    (<["follows"%string := VBool true]> ∅).

(** The loop of [attachmentStubs] over the entries in visiting order. *)
Definition attachmentStubs_range (order : list (string * Attachment))
  : gmap string (gmap string GoScalar) :=
  foldl (λ result '(filename, att), <[filename := stubOf att]> result) ∅ order.

(** [attachmentStubs]: [None] is the nil pointer, and the nil map result. *)
Definition attachmentStubs (atts : option Attachments)
  : option (gmap string (gmap string GoScalar)) :=
  match atts with
  | None => None
  | Some m => Some (attachmentStubs_range (map_to_list m))
  end.

(** ** encoding/json: encoding the stubs (encode.go) *)

Definition hexDigit (n : Z) : byte :=
  if (n <? 10)%Z then chr (code "0" + n) else chr (code "a" + (n - 10)).

(** [htmlSafeSet]: the ASCII bytes written as they are. *)
Definition htmlSafe (c : byte) : bool :=
  (32 <=? code c)%Z && (code c <? 128)%Z
  && negb (beq c dquote || beq c "&" || beq c "<" || beq c ">" || beq c backslash).

(** One turn of the loop of [encodeState.string] (with HTML escaping): the
    bytes written and the number of input bytes consumed. *)
Definition encodeString_one (s : bytes) : bytes * nat :=
  match s with
  | [] => ([], 1%nat)
  | b :: _ =>
      if (code b <? 128)%Z then
        if htmlSafe b then ([b], 1%nat)
        else if beq b backslash || beq b dquote then ([backslash; b], 1%nat)
        else if beq b "010" then ([backslash; "n"], 1%nat)
        else if beq b "013" then ([backslash; "r"], 1%nat)
        else if beq b "009" then ([backslash; "t"], 1%nat)
        else ([backslash; "u"; "0"; "0";
               hexDigit (Z.shiftr (code b) 4); hexDigit (Z.land (code b) 15)], 1%nat)
      else
        let '(c, size) := DecodeRune s in
        if (c =? RuneError)%Z && (size =? 1)%nat then (backslash :: lit "ufffd", size)
        else if (c =? 8232)%Z || (c =? 8233)%Z then
          (backslash :: lit "u202" ++ [hexDigit (Z.land c 15)], size)
        else (take size s, size)
  end.

Fixpoint encodeString_loop (fuel : nat) (s : bytes) : bytes :=
  match fuel, s with
  | S fuel', _ :: _ =>
      let '(out, n) := encodeString_one s in
      out ++ encodeString_loop fuel' (drop n s)
  | _, _ => []
  end.

Definition encodeString (s : bytes) : bytes :=
  [dquote] ++ encodeString_loop (length s) s ++ [dquote].

Definition encodeScalar (v : GoScalar) : bytes :=
  match v with
  | VString s => encodeString s
  | VBool true => lit "true"
  | VBool false => lit "false"
  end.

(** Map keys are encoded in sorted order ([sort.Strings]). *)
Fixpoint insertByKey {A} (p : string * A) (l : list (string * A)) : list (string * A) :=
  match l with
  | [] => [p]
  | q :: r => if String.leb (fst p) (fst q) then p :: q :: r else q :: insertByKey p r
  end.

Definition sortByKey {A} (l : list (string * A)) : list (string * A) :=
  foldr insertByKey [] l.

Fixpoint joinWith (sep : bytes) (l : list bytes) : bytes :=
  match l with
  | [] => []
  | [x] => x
  | x :: r => x ++ sep ++ joinWith sep r
  end.

Definition encodeMap {A} (enc : A → bytes) (m : gmap string A) : bytes :=
  ["{"] ++ joinWith [","]
             (map (λ '(k, v), encodeString (lit k) ++ [":"] ++ enc v)
                  (sortByKey (map_to_list m)))
       ++ ["}"].

(** [json.NewEncoder(w).Encode(att)] on a stubs map: the JSON text and a
    newline.  Strings and booleans always encode, so there is no error. *)
Definition Encode (att : option (gmap string (gmap string GoScalar))) : error + bytes :=
  match att with
  | None => inr (lit "null" ++ ["010"])
  | Some m => inr (encodeMap (encodeMap encodeScalar) m ++ ["010"])
  end.

(** ** chttp.go: EncodeBody *)

(** The argument of [EncodeBody], by the cases of its type switch.  A value
    of any other type is given with the result of marshalling it
    ([json.Marshal] with the encoder's settings), [None] when it cannot be
    marshalled. *)
Inductive BodyArg :=
| BodyBytes (t : bytes)
| BodyRawMessage (t : bytes)
| BodyString (t : bytes)
| BodyValue (marshal : option bytes).

(** [EncodeBody]: what the returned reader delivers. *)
Definition EncodeBody (i : BodyArg) : Stream :=
  match i with
  | BodyBytes t => {| content := t; failure := None |}
  | BodyRawMessage t => {| content := t; failure := None |}
  | BodyString t => {| content := t; failure := None |}
  | BodyValue (Some js) => {| content := js ++ ["010"]; failure := None |}
  | BodyValue None =>
      {| content := []; failure := Some (WrapStatus StatusBadAPICall EncodeError) |}
  end.

(** ** db.go: replaceAttachments

    What the reader returned by [replaceAttachments(in, atts)] delivers when
    [r] is what [in] delivers: the output of [copyWithAttachments], then its
    error. *)
Definition replaceAttachments (r : bytes) (atts : option Attachments) : Stream :=
  let '(out, err) := copyWithAttachments r (Encode (attachmentStubs atts)) in
  {| content := out; failure := err |}.

(** ** encoding/json: Valid (scanner.go) *)

(** [scanner.eof()] *)
Definition scanner_eof (s : scanner) : ScanCode :=
  match scan_err s with
  | Some _ => scanError
  | None =>
      if endTop s then scanEnd
      else if endTop (fst (scanStep s " ")) then scanEnd else scanError
  end.

(** The loop of [checkValid]: [None] when a step reports an error. *)
Fixpoint checkValid_loop (s : scanner) (data : bytes) : option scanner :=
  match data with
  | [] => Some s
  | c :: r =>
      let '(s1, v) := scanStep s c in
      match v with
      | scanError => None
      | _ => checkValid_loop s1 r
      end
  end.

(** [json.Valid(data)]: [data] is one JSON value, with optional space around. *)
Definition Valid (data : bytes) : bool :=
  match checkValid_loop scanner_reset data with
  | Some s => match scanner_eof s with scanError => false | _ => true end
  | None => false
  end.

(** ** mime/multipart: the writer (writer.go) *)

Definition crlf : bytes := ["013"; "010"].

(** A [multipart.Writer] on a pipe: its boundary, what it has written, and
    whether a part is open ([lastpart != nil]). *)
Record MultipartWriter := mkWriter {
  boundary : bytes;
  mw_out : bytes;
  lastpart : bool
}.

(** [multipart.NewWriter(w)]; the boundary is drawn at random by Go. *)
Definition NewWriter (b : bytes) : MultipartWriter :=
  {| boundary := b; mw_out := []; lastpart := false |}.

(** A [textproto.MIMEHeader] literal: its keys with their values. *)
Abbreviation MIMEHeader := (list (string * list bytes)).

Definition headerLines (h : list (string * list bytes)) : bytes :=
  concat (map (λ '(k, vs), concat (map (λ v, lit k ++ lit ": " ++ v ++ crlf) vs)) h).

(** [w.CreatePart(header)]: the boundary line, the header lines in the order
    of their keys, and an empty line. *)
Definition CreatePart (w : MultipartWriter) (header : MIMEHeader) : MultipartWriter :=
  let b := (if lastpart w then crlf else []) ++ lit "--" ++ boundary w ++ crlf
           ++ headerLines (sortByKey header) ++ crlf in
  {| boundary := boundary w; mw_out := mw_out w ++ b; lastpart := true |}.

(** Writing to the current part. *)
Definition partWrite (w : MultipartWriter) (data : bytes) : MultipartWriter :=
  {| boundary := boundary w; mw_out := mw_out w ++ data; lastpart := lastpart w |}.

(** [w.Close()]: the closing boundary line. *)
Definition closeWriter (w : MultipartWriter) : MultipartWriter :=
  {| boundary := boundary w;
     mw_out := mw_out w ++ crlf ++ lit "--" ++ boundary w ++ lit "--" ++ crlf;
     lastpart := false |}.

(** ** strconv.Quote, the [%q] verb of fmt (quote.go) *)

Definition hex2 (b : Z) : bytes :=
  [hexDigit (Z.shiftr b 4); hexDigit (Z.land b 15)].

(** [n] hexadecimal digits of [r], most significant first. *)
Definition hexN (n : nat) (r : Z) : bytes :=
  map (λ i, hexDigit (Z.land (Z.shiftr r (4 * Z.of_nat i)) 15)) (rev (seq 0 n)).

(** [utf8.ValidRune] *)
Definition ValidRune (r : Z) : bool :=
  ((0 <=? r)%Z && (r <? 55296)%Z) || ((57343 <? r)%Z && (r <=? 1114111)%Z).

(** A result of a Go call that may panic. *)
Inductive Outcome (A : Type) :=
| Panics
| Returns (a : A).
Arguments Panics {A}.
Arguments Returns {A} a.

Section Quote.

(** [unicode.IsPrint] above U+00FF is a table of the Unicode standard; it is
    a parameter of the model. *)
Variable isPrintTable : Z → bool.

(** [strconv.IsPrint] *)
Definition IsPrint (r : Z) : bool :=
  if (r <=? 255)%Z then
    ((32 <=? r)%Z && (r <=? 126)%Z)
    || ((161 <=? r)%Z && (r <=? 255)%Z && negb (r =? 173)%Z)
  else isPrintTable r.

Definition appendEscapedRune (r : Z) : bytes :=
  if (r =? code dquote)%Z || (r =? code backslash)%Z then [backslash; chr r]
  else if IsPrint r then EncodeRune r
  else if (r =? 7)%Z then [backslash; "a"]
  else if (r =? 8)%Z then [backslash; "b"]
  else if (r =? 12)%Z then [backslash; "f"]
  else if (r =? 10)%Z then [backslash; "n"]
  else if (r =? 13)%Z then [backslash; "r"]
  else if (r =? 9)%Z then [backslash; "t"]
  else if (r =? 11)%Z then [backslash; "v"]
  else if (r <? 32)%Z || (r =? 127)%Z then backslash :: "x" :: hex2 r
  else if negb (ValidRune r) then backslash :: "u" :: hexN 4 RuneError
  else if (r <? 65536)%Z then backslash :: "u" :: hexN 4 r
  else backslash :: "U" :: hexN 8 r.

(** One turn of the loop of [appendQuotedWith]. *)
Definition quote_one (s : bytes) : bytes * nat :=
  match s with
  | [] => ([], 1%nat)
  | c :: _ =>
      let '(r, width) :=
        if (128 <=? code c)%Z then DecodeRune s else (code c, 1%nat) in
      if (width =? 1)%nat && (r =? RuneError)%Z
      then (backslash :: "x" :: hex2 (code c), width)
      else (appendEscapedRune r, width)
  end.

Fixpoint quote_loop (fuel : nat) (s : bytes) : bytes :=
  match fuel, s with
  | S fuel', _ :: _ =>
      let '(out, n) := quote_one s in out ++ quote_loop fuel' (drop n s)
  | _, _ => []
  end.

(** [strconv.Quote(s)], which is what [%q] prints for a string. *)
Definition Quote (s : bytes) : bytes :=
  [dquote] ++ quote_loop (length s) s ++ [dquote].

(** ** db.go: createMultipart and multipartAttachments *)

(** The state of one upload: the multipart writer, the attachments whose
    [Close] has been called (in call order), and how many times [Close] has
    been called on the document stream. *)
Record Upload := mkUpload {
  up_w : MultipartWriter;
  closedAtts : list string;
  docCloses : nat
}.

(** The header of the part of one attachment. *)
Definition attachmentHeader (filename : string) (att : Attachment) : MIMEHeader :=
  [("Content-Type"%string, [ContentType att]);
   ("Content-Disposition"%string,
    [lit "attachment; filename=" ++ Quote (lit filename)])].

(** The [for filename, att := range *atts] loop of [createMultipart], over
    the entries in visiting order. *)
Fixpoint writeAttachments (st : Upload) (order : list (string * Attachment))
  : Upload * option error :=
  match order with
  | [] => (st, None)
  | (filename, att) :: rest =>
      let file := CreatePart (up_w st) (attachmentHeader filename att) in
      (* io.Copy(file, att) *)
      let file := partWrite file (content (Content att)) in
      match failure (Content att) with
      | Some err =>
          ({| up_w := file; closedAtts := closedAtts st; docCloses := docCloses st |},
           Some err)
      | None =>
          (* att.Close() *)
          writeAttachments
            {| up_w := file; closedAtts := closedAtts st ++ [filename];
               docCloses := docCloses st |} rest
      end
  end.

(** [createMultipart(w, r, atts)].  [r] is what the document stream delivers;
    the goroutine of [replaceAttachments] closes that stream once when
    [copyWithAttachments] has returned. *)
Definition createMultipart (st : Upload) (r : bytes) (atts : option Attachments)
    (order : list (string * Attachment)) : Outcome (Upload * option error) :=
  let doc := CreatePart (up_w st) [("Content-Type"%string, [lit "application/json"])] in
  let attJSON := replaceAttachments r atts in
  (* io.Copy(doc, attJSON) *)
  let doc := partWrite doc (content attJSON) in
  let st1 := {| up_w := doc; closedAtts := closedAtts st;
                docCloses := S (docCloses st) |} in
  match failure attJSON with
  | Some e => Returns (st1, Some e)
  | None =>
      match atts with
      | None => Panics    (* [range *atts] dereferences the nil pointer *)
      | Some _ =>
          match writeAttachments st1 order with
          | (st2, Some err) => Returns (st2, Some err)
          | (st2, None) =>
              Returns ({| up_w := closeWriter (up_w st2);
                          closedAtts := closedAtts st2;
                          docCloses := docCloses st2 |}, None)
          end
      end
  end.

(** What [multipartAttachments(in, att)] yields once its goroutine has run:
    the boundary, what the returned reader delivers (the bytes written to
    the pipe, then the error given to [CloseWithError]), and the streams
    that have been closed. *)
Record MultipartResult := mkMultipartResult {
  mr_boundary : bytes;
  mr_body : Stream;
  mr_closedAtts : list string;
  mr_docCloses : nat
}.

Definition multipartAttachments (b : bytes) (r : bytes) (att : option Attachments)
    (order : list (string * Attachment)) : Outcome MultipartResult :=
  let body := NewWriter b in
  match createMultipart (mkUpload body [] 0) r att order with
  | Panics => Panics
  | Returns (st, err) =>
      (* e := in.Close(); the stream's Close returns nil *)
      Returns {| mr_boundary := boundary body;
                 mr_body := {| content := mw_out (up_w st); failure := err |};
                 mr_closedAtts := closedAtts st;
                 mr_docCloses := S (docCloses st) |}
  end.

(** ** The multipart body, as the specification describes it *)

(** A part: its header lines in the order written, and its body. *)
Record Part := mkPart { part_header : list (string * bytes); part_body : bytes }.

Definition partText (b : bytes) (p : Part) : bytes :=
  lit "--" ++ b ++ crlf
    ++ concat (map (λ '(k, v), lit k ++ lit ": " ++ v ++ crlf) (part_header p))
    ++ crlf ++ part_body p.

(** Parts separated by the boundary, and the closing boundary marker. *)
Definition bodyText (b : bytes) (parts : list Part) : bytes :=
  joinWith crlf (map (partText b) parts) ++ crlf ++ lit "--" ++ b ++ lit "--" ++ crlf.

Definition documentPart (doc : bytes) : Part :=
  {| part_header := [("Content-Type"%string, lit "application/json")];
     part_body := doc |}.

Definition attachmentPart (p : string * Attachment) : Part :=
  {| part_header :=
       [("Content-Disposition"%string,
         lit "attachment; filename=" ++ Quote (lit (fst p)));
        ("Content-Type"%string, ContentType (snd p))];
     part_body := content (Content (snd p)) |}.

End Quote.

(** A name that [%q] prints between quotes as it is: printable ASCII bytes
    other than the quote and the backslash. *)
Definition printableName (s : bytes) : bool :=
  forallb (λ c, plainByte c && (code c <? 127)%Z) s.

(** ** db.go: extractAttachments and interfaceToAttachments *)

Abbreviation loc := positive.

(** The part of the Go heap the extractor reads and writes.  A value of type
    [kivik.Attachments] is a reference to a map object ([None]: the nil
    map); [h_maps] holds the map objects.  A [*kivik.Attachments] points to
    a variable holding such a reference; [h_vars] holds these variables. *)
Record Heap := mkHeap {
  h_maps : gmap loc Attachments;
  h_vars : gmap loc (option loc)
}.

(** The dynamic values an attachments field is examined for. *)
Inductive GoValue :=
| GoAttachments (m : option loc)      (* kivik.Attachments *)
| GoAttachmentsPtr (p : option loc)   (* *kivik.Attachments; None: nil pointer *)
| GoOther.                            (* any other type, or the nil interface *)

(** A struct field: the [json] key of its tag, whether it is exported, and
    its value. *)
Record Field := mkField { f_tag : bytes; f_exported : bool; f_value : GoValue }.

(** The document given to [extractAttachments], by the cases the function
    distinguishes. *)
Inductive Doc :=
| DocNil                              (* the nil interface *)
| DocNilPtr                           (* a nil pointer *)
| DocPtr (target : Doc)               (* a pointer to a value *)
| DocMap (m : gmap string GoValue)    (* map[string]interface{} *)
| DocStruct (fields : list Field)     (* a struct *)
| DocOther.                           (* any other type *)

(** The entries of the map a reference denotes; a nil map has none. *)
Definition mapEntries (h : Heap) (m : option loc) : Attachments :=
  match m with
  | None => ∅
  | Some l => default ∅ (h_maps h !! l)
  end.

(** The map a variable holds. *)
Definition varEntries (h : Heap) (p : loc) : Attachments :=
  mapEntries h (default None (h_vars h !! p)).

(** [for k, v := range t { atts[k] = v; delete(t, k) }]: the two maps after
    the loop has visited [order]. *)
Definition moveEntries (order : list (string * Attachment)) (atts t : Attachments)
  : Attachments * Attachments :=
  foldl (λ '(atts, t) '(k, v), (<[k := v]> atts, delete k t)) (atts, t) order.

(** [interfaceToAttachments]: the returned pointer, the flag, and the heap
    after the call. *)
Definition interfaceToAttachments (i : GoValue) (h : Heap)
  : Outcome (option loc * bool * Heap) :=
  match i with
  | GoAttachments t =>
      let entries := mapEntries h t in
      let '(atts, t') := moveEntries (map_to_list entries) ∅ entries in
      let l := fresh (dom (h_maps h)) in       (* the map made for atts *)
      let p := fresh (dom (h_vars h)) in       (* the variable atts *)
      let maps := match t with
                  | Some lt => <[lt := t']> (h_maps h)
                  | None => h_maps h
                  end in
      Returns (Some p, true,
               {| h_maps := <[l := atts]> maps;
                  h_vars := <[p := Some l]> (h_vars h) |})
  | GoAttachmentsPtr None => Panics            (* *atts = *t with t == nil *)
  | GoAttachmentsPtr (Some t) =>
      let p := fresh (dom (h_vars h)) in       (* new(kivik.Attachments) *)
      let v := default None (h_vars h !! t) in
      Returns (Some p, true,
               {| h_maps := h_maps h;
                  h_vars := <[t := None]> (<[p := v]> (h_vars h)) |})
  | GoOther => Returns (None, false, h)
  end.

(** The loop of [extractAttachments] over the fields of a struct. *)
Fixpoint extractFields (fields : list Field) (h : Heap)
  : Outcome (option loc * bool * Heap) :=
  match fields with
  | [] => Returns (None, false, h)
  | f :: rest =>
      if decide (f_tag f = attachmentsKey)
      then if f_exported f then interfaceToAttachments (f_value f) h
           else Panics                         (* Interface() on an unexported field *)
      else extractFields rest h
  end.

Fixpoint extractAttachments (doc : Doc) (h : Heap)
  : Outcome (option loc * bool * Heap) :=
  match doc with
  | DocNil => Panics                           (* reflect.ValueOf(nil).Type() *)
  | DocNilPtr => Panics                        (* v.Elem().Interface() *)
  | DocPtr d => extractAttachments d h
  | DocMap m => interfaceToAttachments (default GoOther (m !! "_attachments"%string)) h
  | DocStruct fields => extractFields fields h
  | DocOther => Returns (None, false, h)
  end.

(** *** The attachments field of a document, as the specification sees it *)

(** The value of the attachments field: the entry of a map under the
    attachments key, or the first field of a struct tagged with it; [None]
    when there is no such field. *)
Fixpoint attachmentsField (doc : Doc) : option GoValue :=
  match doc with
  | DocPtr d => attachmentsField d
  | DocMap m => m !! "_attachments"%string
  | DocStruct fields =>
      f_value <$> find (λ f, bool_decide (f_tag f = attachmentsKey)) fields
  | _ => None
  end.

(** The collection an attachments field holds, when its type is one the
    extractor recognizes. *)
Definition fieldEntries (h : Heap) (i : GoValue) : option Attachments :=
  match i with
  | GoAttachments m => Some (mapEntries h m)
  | GoAttachmentsPtr (Some p) => Some (varEntries h p)
  | _ => None
  end.

(** The attachment set behind a returned pointer. *)
Definition resultEntries (h : Heap) (r : option loc) : Attachments :=
  match r with
  | Some p => varEntries h p
  | None => ∅
  end.

(** The calls that do not panic: no nil document or nil pointer on the way
    to the field, the tagged field exported, and no nil pointer in it. *)
Fixpoint safeDoc (doc : Doc) : bool :=
  match doc with
  | DocNil | DocNilPtr => false
  | DocPtr d => safeDoc d
  | DocMap m =>
      match m !! "_attachments"%string with
      | Some (GoAttachmentsPtr None) => false
      | _ => true
      end
  | DocStruct fields =>
      match find (λ f, bool_decide (f_tag f = attachmentsKey)) fields with
      | Some f =>
          f_exported f
          && match f_value f with GoAttachmentsPtr None => false | _ => true end
      | None => true
      end
  | DocOther => true
  end.

(** The references in the field point into the heap. *)
Definition allocated (h : Heap) (i : GoValue) : Prop :=
  match i with
  | GoAttachments (Some l) => is_Some (h_maps h !! l)
  | GoAttachmentsPtr (Some p) =>
      ∃ v, h_vars h !! p = Some v
           ∧ match v with Some l => is_Some (h_maps h !! l) | None => True end
  | _ => True
  end.

(** ** db.go: Put *)

Inductive Method := MethodGet | MethodPut | MethodPost | MethodDelete.

(** The [chttp.Options] that [Put] fills in. *)
Record chttpOptions := mkOptions { Body : Stream; FullCommit : bool }.

(** The [result] struct that the response is decoded into. *)
Record putResult := mkPutResult { ID : bytes; Rev : bytes }.

Section PutModel.

(** The options map of the caller; the driver only hands it to [fullCommit]. *)
Variable Options : Type.

(** Functions of the package that [Put] calls and that are not part of the
    sources at hand. *)
Variable missingArg : bytes → error.
Variable fullCommit : bool → Options → error + bool.

(** [d.path(chttp.EncodeDocID(docID), nil)] *)
Variable docPath : bytes → bytes.

(** [d.Client.DoJSON(ctx, method, path, opts, &result)]: the returned error
    and what [result] holds afterwards.  It stands for the HTTP exchange with
    the server. *)
Variable DoJSON : Method → bytes → chttpOptions → option error * putResult.

Definition Put (docID : bytes) (doc : BodyArg) (options : Options)
  : bytes * option error :=
  if decide (docID = []) then ([], Some (missingArg (lit "docID")))
  else
    match fullCommit false options with
    | inl err => ([], Some err)
    | inr fc =>
        let opts := {| Body := EncodeBody doc; FullCommit := fc |} in
        match DoJSON MethodPut (docPath docID) opts with
        | (Some err, _) => ([], Some err)
        | (None, result) =>
            if decide (ID result ≠ docID) then
              (Rev result,
               Some (Statusf StatusBadResponse
                       (lit "modified document ID (" ++ ID result
                          ++ lit ") does not match that requested (" ++ docID
                          ++ lit ")")))
            else (Rev result, None)
        end
    end.

End PutModel.

(** The scanner only ever records syntax errors. *)
Definition scanErrSyntax (s : scanner) : Prop :=
  match scan_err s with
  | None | Some (SyntaxError _ _) => True
  | Some _ => False
  end.

(** * Further functions of the driver *)

(** ** strings: HasPrefix, TrimPrefix, Trim *)

Fixpoint HasPrefix (s prefix : bytes) {struct prefix} : bool :=
  match prefix, s with
  | [], _ => true
  | p :: ps, c :: cs => beq c p && HasPrefix cs ps
  | _ :: _, [] => false
  end.

Definition TrimPrefix (s prefix : bytes) : bytes :=
  if HasPrefix s prefix then drop (length prefix) s else s.

(** [strings.TrimLeft], [TrimRight] and [Trim] for a cutset of ASCII bytes:
    the leading and the trailing bytes of the cutset are dropped. *)
Fixpoint TrimLeft (s cutset : bytes) : bytes :=
  match s with
  | [] => []
  | c :: r => if existsb (beq c) cutset then TrimLeft r cutset else s
  end.

Definition TrimRight (s cutset : bytes) : bytes :=
  reverse (TrimLeft (reverse s) cutset).

Definition Trim (s cutset : bytes) : bytes := TrimLeft (TrimRight s cutset) cutset.

(** ** fmt: the verbs [%t] and [%d] *)

Definition fmt_t (v : bool) : bytes := if v then lit "true" else lit "false".

(** The decimal digits of a number that is not negative, most significant
    first, in front of [acc]. *)
Fixpoint formatBits (fuel : nat) (u : Z) (acc : bytes) : bytes :=
  match fuel with
  | O => acc
  | S fuel' =>
      if (u <? 10)%Z then chr (code "0" + u) :: acc
      else formatBits fuel' (u / 10) (chr (code "0" + u mod 10) :: acc)
  end.

Definition fmt_d (v : Z) : bytes :=
  if (v <? 0)%Z then "-" :: formatBits (S (Z.to_nat (Z.log2 (- v)))) (- v) []
  else formatBits (S (Z.to_nat (Z.log2 v))) v [].

(** ** net/url: QueryEscape and Values *)

(** [shouldEscape(c, encodeQueryComponent)]: letters, digits and [-_.~] are
    written as they are. *)
Definition shouldEscape (c : byte) : bool :=
  if between "a" "z" c || between "A" "Z" c || between "0" "9" c then false
  else if beq c "-" || beq c "_" || beq c "." || beq c "~" then false
  else true.

Definition upperhex (n : Z) : byte :=
  if (n <? 10)%Z then chr (code "0" + n) else chr (code "A" + (n - 10)).

(** What [escape] writes for one byte. *)
Definition escapeByte (c : byte) : bytes :=
  if shouldEscape c then
    if beq c " " then ["+"]
    else ["%"; upperhex (Z.shiftr (code c) 4); upperhex (Z.land (code c) 15)]
  else [c].

Definition QueryEscape (s : bytes) : bytes := flat_map escapeByte s.

(** [url.Values] is a [map[string][]string]. *)
Abbreviation Values := (gmap string (list bytes)).

(** [v.Add(key, value)]: [v[key] = append(v[key], value)] *)
Definition Values_Add (v : Values) (key : string) (value : bytes) : Values :=
  <[key := default [] (v !! key) ++ [value]]> v.

(** The inner loop of [Values.Encode], for the values of one key. *)
Definition encodeValues (keyEscaped : bytes) (vs : list bytes) (buf : bytes) : bytes :=
  foldl (λ buf v,
           (if (0 <? length buf)%nat then buf ++ ["&"] else buf)
             ++ keyEscaped ++ ["="] ++ QueryEscape v)
        buf vs.

(** [v.Encode()]: the keys in sorted order. *)
Definition Values_Encode (v : Values) : bytes :=
  foldl (λ buf '(k, vs), encodeValues (QueryEscape (lit k)) vs buf) []
        (sortByKey (map_to_list v)).

(** ** db.go: optionsToParams *)

(** The value of an option, by the cases of the type switch: a string, a
    slice of strings, a boolean, a value of one of the integer types listed,
    or a value of any other type, given with what [%T] prints for it. *)
Inductive OptValue :=
| OptString (v : bytes)
| OptStrings (v : list bytes)
| OptBool (v : bool)
| OptInt (v : Z)
| OptOther (typeName : bytes).

Abbreviation OptionSet := (gmap string OptValue).

(** The [values] that the type switch computes. *)
Definition optionValues (i : OptValue) : error + list bytes :=
  match i with
  | OptString v => inr [v]
  | OptStrings v => inr v
  | OptBool v => inr [fmt_t v]
  | OptInt v => inr [fmt_d v]
  | OptOther T =>
      inl (Statusf StatusBadRequest
             (lit "kivik: invalid type " ++ T ++ lit " for options"))
  end.

(** The loop over one set of options, its entries in visiting order. *)
Fixpoint optionsToParams_set (params : Values) (order : list (string * OptValue))
  : error + Values :=
  match order with
  | [] => inr params
  | (key, i) :: rest =>
      match optionValues i with
      | inl e => inl e
      | inr values =>
          optionsToParams_set
            (foldl (λ p value, Values_Add p key value) params values) rest
      end
  end.

(** The loop over the sets. *)
Fixpoint optionsToParams_sets (params : Values)
    (orders : list (list (string * OptValue))) : error + Values :=
  match orders with
  | [] => inr params
  | order :: rest =>
      match optionsToParams_set params order with
      | inl e => inl e
      | inr params' => optionsToParams_sets params' rest
      end
  end.

(** [optionsToParams(opts...)]; [orders] gives, for each set, its entries in
    the order in which [range] visits them. *)
Definition optionsToParams (orders : list (list (string * OptValue)))
  : error + Values :=
  optionsToParams_sets ∅ orders.

(** [orders] are possible visiting orders of the sets [opts]. *)
Definition rangesOf (opts : list OptionSet) (orders : list (list (string * OptValue)))
  : Prop :=
  Forall2 (λ m order, order ≡ₚ map_to_list m) opts orders.

(** The values recorded under a key; none when the key is absent. *)
Definition valuesOf (params : Values) (k : string) : list bytes :=
  default [] (params !! k).

(** What one set of options contributes to a key. *)
Definition valuesAt (k : string) (m : OptionSet) : list bytes :=
  match m !! k with
  | Some i => match optionValues i with inr vs => vs | inl _ => [] end
  | None => []
  end.

(** No key of the parameters has an empty list of values. *)
Definition noEmptyEntry (params : Values) : Prop :=
  ∀ k, params !! k ≠ Some [].


(** ** chttp.go: fixPath, setHeaders, setQuery, ETag *)

(** [http.Header] is a [map[string][]string].  [Add] and [Set] put the key
    in canonical form; the keys used below are in that form already. *)
Abbreviation Header := (gmap string (list bytes)).

Definition Header_Add (h : Header) (key : string) (value : bytes) : Header :=
  <[key := default [] (h !! key) ++ [value]]> h.

Definition Header_Set (h : Header) (key : string) (value : bytes) : Header :=
  <[key := [value]]> h.

(** The [*http.Request], as far as these functions touch it:
    [req.URL.RawPath], [req.URL.RawQuery] and [req.Header]. *)
Record Request := mkRequest {
  RawPath : bytes;
  RawQuery : bytes;
  req_Header : Header
}.

(** [strings.SplitN(s, sep, 2)] for a separator of one byte. *)
Fixpoint SplitN2 (s : bytes) (sep : byte) : list bytes :=
  match s with
  | [] => [[]]
  | c :: r =>
      if beq c sep then [[]; r]
      else match SplitN2 r sep with
           | a :: l => (c :: a) :: l
           | [] => [[c]]
           end
  end.

Definition fixPath (req : Request) (path : bytes) : Request :=
  let parts := SplitN2 path "?" in
  {| RawPath := lit "/" ++ TrimPrefix (hd [] parts) (lit "/");
     RawQuery := RawQuery req;
     req_Header := req_Header req |}.

(** [chttp.Options], the fields that [setHeaders] and [setQuery] read. *)
Record RequestOptions := mkRequestOptions {
  opt_Accept : bytes;
  opt_ContentType : bytes;
  opt_FullCommit : bool;
  opt_IfNoneMatch : bytes;
  opt_Destination : bytes;
  opt_Query : Values
}.

Definition typeJSON : bytes := lit "application/json".

(** [setHeaders(req, opts)]; [None] is the nil pointer. *)
Definition setHeaders (req : Request) (opts : option RequestOptions) : Request :=
  let accept :=
    match opts with
    | Some o => if decide (opt_Accept o ≠ []) then opt_Accept o else typeJSON
    | None => typeJSON
    end in
  let contentType :=
    match opts with
    | Some o => if decide (opt_ContentType o ≠ []) then opt_ContentType o else typeJSON
    | None => typeJSON
    end in
  let h := req_Header req in
  let h :=
    match opts with
    | Some o =>
        let h := if opt_FullCommit o
                 then Header_Add h "X-Couch-Full-Commit" (lit "true") else h in
        let h := if decide (opt_Destination o ≠ [])
                 then Header_Add h "Destination" (opt_Destination o) else h in
        if decide (opt_IfNoneMatch o ≠ [])
        then Header_Set h "If-None-Match"
               ([dquote] ++ Trim (opt_IfNoneMatch o) [dquote] ++ [dquote])
        else h
    | None => h
    end in
  let h := Header_Add h "Accept" accept in
  let h := Header_Add h "Content-Type" contentType in
  {| RawPath := RawPath req; RawQuery := RawQuery req; req_Header := h |}.

(** [setQuery(req, opts)]; [len(opts.Query)] is the number of keys. *)
Definition setQuery (req : Request) (opts : option RequestOptions) : Request :=
  match opts with
  | None => req
  | Some o =>
      if decide (size (opt_Query o) = 0%nat) then req
      else if decide (RawQuery req = []) then
        {| RawPath := RawPath req; RawQuery := Values_Encode (opt_Query o);
           req_Header := req_Header req |}
      else
        {| RawPath := RawPath req;
           RawQuery := RawQuery req ++ lit "&" ++ Values_Encode (opt_Query o);
           req_Header := req_Header req |}
  end.

(** [ETag(resp)], from the header of the response; [None] is the nil
    response.  The header map is indexed as it is, first with [Etag] and
    then with [ETag]; [etag[0]] panics when the entry has no value. *)
Definition ETag (resp : option Header) : Outcome (bytes * bool) :=
  match resp with
  | None => Returns ([], false)
  | Some header =>
      let etag :=
        match header !! "Etag"%string with
        | Some etag => Some etag
        | None => header !! "ETag"%string
        end in
      match etag with
      | None => Returns ([], false)
      | Some [] => Panics
      | Some (e0 :: _) => Returns (Trim e0 [dquote], true)
      end
  end.

(** A text neither begins nor ends with a byte of the cutset. *)
Definition trimmed (s cutset : bytes) : Prop :=
  match s with
  | [] => True
  | c :: _ => existsb (beq c) cutset = false
  end
  ∧ match last s with
    | None => True
    | Some c => existsb (beq c) cutset = false
    end.

(** What [escape] writes: the bytes it leaves as they are, and [%] and [+]. *)
Definition escapedByte (c : byte) : bool :=
  negb (shouldEscape c) || beq c "%" || beq c "+".

(** The bytes of an encoded query: escaped text, [=] and [&]. *)
Definition queryByte (c : byte) : bool :=
  escapedByte c || beq c "=" || beq c "&".

(** The pairs [key=value] of the parameters, the keys in sorted order. *)
Definition queryPairs (v : Values) : list bytes :=
  flat_map (λ '(k, vs), map (λ x, QueryEscape (lit k) ++ lit "=" ++ QueryEscape x) vs)
           (sortByKey (map_to_list v)).

(** ** chttp.go: DecodeJSON *)

(** [DecodeJSON(r, i)] on a response whose body delivers [body]; [unmarshal]
    stands for the decoding at the type of [i].  [errors.WrapStatus] gives
    nil for the nil error, so that a successful decoding returns nil. *)
Definition DecodeJSON {A} (unmarshal : bytes → error + A) (body : bytes) : error + A :=
  match fst (Decode unmarshal (NewDecoder body)) with
  | inr v => inr v
  | inl err =>
      match err with
      | SyntaxError _ _ | UnmarshalTypeError _ =>
          inl (WrapStatus StatusBadResponse err)
      | _ => inl (WrapStatus StatusNetworkError err)
      end
  end.

(** ** db.go: setSize *)

(** [kivik.Attachment] with the [Size] field that [setSize] maintains. *)
Record SizedAttachment := mkSized { att :> Attachment; Size : Z }.

(** [setSize(att)]: the attachment after the call, and the error returned.
    [buf.ReadFrom] reads the content to its end or to its failure and
    returns the number of bytes read; the new content is the buffer. *)
Definition setSize (a : SizedAttachment) : SizedAttachment * option error :=
  if (0 <? Size a)%Z then (a, None)
  else
    let buf := content (Content a) in
    ({| att := {| ContentType := ContentType a;
                  Content := {| content := buf; failure := None |} |};
        Size := Z.of_nat (length buf) |},
     failure (Content a)).

(** ** db.go: CreateDoc *)

Section CreateDocModel.

(** [fullCommit(false, options)] is not part of the sources at hand: its
    results, and the entries of the options map after the call. *)
Variable fullCommit : bool → OptionSet → (error + bool) * OptionSet.

(** [d.Client.DoJSON(ctx, method, path, opts, &result)], as for [Put]. *)
Variable DoJSON : Method → bytes → chttpOptions → option error * putResult.

Variable dbName : bytes.

(** [order] is the order in which [optionsToParams] visits the options. *)
Definition CreateDoc (doc : BodyArg) (options : OptionSet)
    (order : list (string * OptValue)) : bytes * bytes * option error :=
  match fullCommit false options with
  | (inl err, _) => ([], [], Some err)
  | (inr fc, options) =>
      let path :=
        if decide (0 < size options)%nat then
          match optionsToParams [order] with
          | inl e => inl e
          | inr params => inr (dbName ++ lit "?" ++ Values_Encode params)
          end
        else inr dbName in
      match path with
      | inl e => ([], [], Some e)
      | inr path =>
          let opts := {| Body := EncodeBody doc; FullCommit := fc |} in
          let '(err, result) := DoJSON MethodPost path opts in
          (ID result, Rev result, err)
      end
  end.

End CreateDocModel.

(** The parameters that a set of options of supported types stands for. *)
Definition paramsOf (options : OptionSet) : Values :=
  omap (λ i, match optionValues i with
             | inr (v :: vs) => Some (v :: vs)
             | _ => None
             end) options.

(** ** unicode/utf8: Valid *)

(** The loop of [utf8.Valid]: at every position a well-formed sequence
    begins, that is one that [DecodeRune] does not answer with
    [(RuneError, 1)]. *)
Fixpoint utf8_Valid_loop (fuel : nat) (p : bytes) : bool :=
  match p with
  | [] => true
  | _ :: _ =>
      match fuel with
      | O => false
      | S fuel' =>
          let '(r, size) := DecodeRune p in
          if (r =? RuneError)%Z && (size =? 1)%nat then false
          else utf8_Valid_loop fuel' (drop size p)
      end
  end.

Definition utf8_Valid (p : bytes) : bool := utf8_Valid_loop (length p) p.

(** The key and the raw value of a member event. *)
Definition eventMember (ev : Event) : option (bytes * bytes) :=
  match ev with
  | EvMember k v _ => Some (k, v)
  | _ => None
  end.

(** ** Object texts, read back

    The decoder, driven over [js] the way the rewriter drives it, reads an
    opening brace, then the members [entries] (the decoded key and the raw
    value of each, in the order of the text), then a closing brace, and
    nothing else. *)
Definition objectMembers (js : bytes) (entries : list (bytes * bytes)) : Prop :=
  firstToken js = inr (TokDelim DelimLBrace)
  ∧ ∃ members,
      memberTrace js = members ++ [EvToken (TokDelim DelimRBrace)]
      ∧ eventMember <$> members = Some <$> entries.

(** * Lemmas *)

(** Lists of bytes are compared after nesting every append to the right. *)
Ltac list_norm := repeat (rewrite <-?app_assoc; cbn [app]).

(** Case analysis on every condition of the goal. *)
Ltac case_ifs :=
  repeat match goal with
         | |- context [if ?b then _ else _] => destruct b
         end.

(** ** The decoder consumes its input front to back *)

Lemma skipSpace_suffix (b : bytes) : skipSpace b `suffix_of` b.
Proof.
  induction b as [|c b IH]; simpl; [done|].
  destruct (isSpace c); [by apply suffix_cons_r | done].
Qed.

Lemma skipSpace_split (b : bytes) :
  ∃ sp, b = sp ++ skipSpace b ∧ forallb isSpace sp = true.
Proof.
  induction b as [|c b (sp & Hb & Hsp)]; simpl.
  - by exists [].
  - destruct (isSpace c) eqn:Hc.
    + exists (c :: sp). simpl. rewrite Hc, Hsp. split; [by f_equal | done].
    + by exists [].
Qed.

Lemma skipSpace_head (b : bytes) c r : skipSpace b = c :: r → isSpace c = false.
Proof.
  induction b as [|a b IH]; simpl; [done|].
  destruct (isSpace a) eqn:Ha; [done|]. by intros [= -> _].
Qed.

Lemma skipSpace_nonspace c r : isSpace c = false → skipSpace (c :: r) = c :: r.
Proof. intros H. simpl. by rewrite H. Qed.

Lemma peek_ok d c d1 :
  peek d = (inr c, d1) →
  ∃ r, dec_buf d1 = c :: r ∧ skipSpace (dec_buf d) = c :: r ∧ isSpace c = false
       ∧ dec_err d1 = dec_err d ∧ tokenState d1 = tokenState d
       ∧ tokenStack d1 = tokenStack d.
Proof.
  unfold peek. destruct (skipSpace (dec_buf d)) as [|c' r] eqn:Hs; [done|].
  intros [= <- <-]. exists r. simpl. repeat split; eauto using skipSpace_head.
Qed.

Lemma peek_suffix d x d1 : peek d = (x, d1) → dec_buf d1 `suffix_of` dec_buf d.
Proof.
  unfold peek. pose proof (skipSpace_suffix (dec_buf d)) as Hs.
  destruct (skipSpace (dec_buf d)); intros [= <- <-]; simpl; done.
Qed.

Lemma tail_suffix {A} (l : list A) : tail l `suffix_of` l.
Proof. destruct l; simpl; [done | by apply suffix_cons_r]. Qed.

Lemma tokenPrepareForDecode_suffix d e d1 :
  tokenPrepareForDecode d = (e, d1) → dec_buf d1 `suffix_of` dec_buf d.
Proof.
  unfold tokenPrepareForDecode. intros H.
  destruct (tokenState d); try (by injection H as <- <-);
    destruct (peek d) as [[e'|c] d'] eqn:Hp; apply peek_suffix in Hp;
    try (by injection H as <- <-);
    destruct (negb _); injection H as <- <-; simpl; try done;
    (etrans; [apply tail_suffix | done]).
Qed.

Lemma scanStep_reset_not_end c : snd (scanStep scanner_reset c) ≠ scanEnd.
Proof.
  unfold scanStep, scanner_reset, do_stateBeginValue, scan_error; simpl.
  repeat (match goal with |- context [if ?b then _ else _] => destruct b end;
          simpl; try done).
Qed.

Lemma readValue_loop_bounds whole s buf n m :
  readValue_loop whole s buf n = inr m → (n ≤ m ≤ n + length buf)%nat.
Proof.
  revert s n. induction buf as [|c buf IH]; intros s n; simpl.
  - destruct (snd (scanStep s " ")); try destruct (nonSpace whole); intros [=]; lia.
  - destruct (scanStep s c) as [s1 v].
    destruct v; try (intros H; apply IH in H; lia); try (intros [=]; lia);
      destruct (do_stateEndValue s1 " ") as [s2 v2];
      destruct v2; try (intros H; apply IH in H; lia); intros [=]; lia.
Qed.

Lemma readValue_bounds buf n : readValue buf = inr n → (1 ≤ n ≤ length buf)%nat.
Proof.
  unfold readValue. intros H.
  pose proof (readValue_loop_bounds _ _ _ _ _ H) as Hb. split; [|lia].
  destruct buf as [|c buf]; simpl in H.
  - done.
  - pose proof (scanStep_reset_not_end c) as Hne.
    destruct (scanStep scanner_reset c) as [s1 v]. simpl in Hne.
    destruct v; try done; try (apply readValue_loop_bounds in H; lia);
      destruct (do_stateEndValue s1 " ") as [s2 v2];
      destruct v2; try (apply readValue_loop_bounds in H; lia);
      injection H as <-; lia.
Qed.

Lemma dec_buf_tokenValueEnd d : dec_buf (tokenValueEnd d) = dec_buf d.
Proof. unfold tokenValueEnd. by destruct (tokenState d). Qed.

(** What a successful [Decode] does to the input: it skips [pre] (spaces and
    possibly a separator), delimits [item], and leaves the rest unread. *)
Lemma Decode_ok {A} (um : bytes → error + A) d x d' :
  Decode um d = (inr x, d') →
  ∃ pre item, dec_buf d = pre ++ item ++ dec_buf d' ∧ um item = inr x
              ∧ item ≠ [] ∧ dec_err d' = None.
Proof.
  unfold Decode. destruct (dec_err d) eqn:He; [done|].
  destruct (tokenPrepareForDecode d) as [[e|] d1] eqn:Hp; [done|].
  assert (dec_err d1 = None) as He1.
  { revert Hp. unfold tokenPrepareForDecode.
    destruct (tokenState d); try (by intros [= <-]);
      (destruct (peek d) as [[e'|c] d0] eqn:Hpk; [done|]);
      apply peek_ok in Hpk as (r & _ & _ & _ & Hpe & _);
      destruct (negb _); intros [= <-]; simpl; congruence. }
  apply tokenPrepareForDecode_suffix in Hp as [pre Hpre].
  destruct (negb (tokenValueAllowed d1)); [done|].
  destruct (readValue (dec_buf d1)) as [e|n] eqn:Hr; [done|].
  intros [= Hx <-]. apply readValue_bounds in Hr.
  exists pre, (take n (dec_buf d1)). repeat split; try done.
  - rewrite Hpre. f_equal.
    assert (dec_buf (tokenValueEnd (set_buf d1 (drop n (dec_buf d1))))
            = drop n (dec_buf d1)) as ->.
    { unfold tokenValueEnd. simpl. by destruct (tokenState d1). }
    by rewrite take_drop.
  - intros Ht. apply (f_equal length) in Ht. rewrite length_take in Ht.
    simpl in Ht. lia.
  - unfold tokenValueEnd. simpl. by destruct (tokenState d1).
Qed.

Lemma Decode_suffix {A} (um : bytes → error + A) d x d' :
  Decode um d = (x, d') → dec_buf d' `suffix_of` dec_buf d.
Proof.
  destruct x as [e|x]; [|intros (pre & item & Hd & _)%Decode_ok;
                          exists (pre ++ item); by rewrite Hd, <-app_assoc].
  unfold Decode. destruct (dec_err d); [by intros [= _ <-]|].
  destruct (tokenPrepareForDecode d) as [[e0|] d1] eqn:Hp;
    apply tokenPrepareForDecode_suffix in Hp; [by intros [= _ <-]|].
  destruct (negb _); [by intros [= _ <-]|].
  destruct (readValue _); [by intros [= _ <-]|].
  intros [= _ <-]. rewrite dec_buf_tokenValueEnd. simpl.
  etrans; [apply suffix_drop|done].
Qed.

Lemma Decode_shorter {A} (um : bytes → error + A) d x d' :
  Decode um d = (inr x, d') → (length (dec_buf d') < length (dec_buf d))%nat.
Proof.
  intros (pre & item & Hd & _ & Hne & _)%Decode_ok.
  rewrite Hd, !length_app. destruct item; [done|simpl; lia].
Qed.

Lemma dec_buf_popTokenStack d : dec_buf (popTokenStack d) = dec_buf d.
Proof. unfold popTokenStack. by destruct (tokenStack d). Qed.

Lemma advance_shorter d c r :
  dec_buf d = c :: r → (length (dec_buf (advance d)) < length (dec_buf d))%nat.
Proof. intros H. unfold advance. simpl. rewrite H. simpl. lia. Qed.

(** A token is never produced without consuming input. *)
Lemma Token_loop_shorter fuel d t d' :
  Token_loop fuel d = (inr t, d') →
  (length (dec_buf d') < length (dec_buf d))%nat.
Proof.
  revert d. induction fuel as [|fuel IH]; intros d; simpl; [done|].
  unfold Token_body.
  destruct (peek d) as [[e|c] d1] eqn:Hp; [done|].
  pose proof (peek_suffix _ _ _ Hp) as Hsuf%suffix_length.
  apply peek_ok in Hp as (r & Hbuf & _).
  pose proof (advance_shorter _ _ _ Hbuf) as Hadv.
  unfold tokenError.
  repeat match goal with
         | |- context [if ?b then _ else _] => destruct b
         | |- context [match tokenState d1 with _ => _ end] => destruct (tokenState d1)
         end;
    try done;
    try (intros [= _ <-]; simpl;
         rewrite ?dec_buf_tokenValueEnd, ?dec_buf_popTokenStack; simpl;
         unfold advance in Hadv; simpl in Hadv; lia);
    try (intros H%IH; simpl in H; unfold advance in Hadv; simpl in Hadv; lia);
    try (intros H%Decode_shorter; simpl in H; lia);
    try (match goal with
         | |- context [Decode ?um ?d0] =>
             destruct (Decode um d0) as [[e|x] d2] eqn:Hd; [done|];
             apply Decode_shorter in Hd; intros [= _ <-]; simpl in *; lia
         end).
Qed.

Lemma NextToken_shorter d t d' :
  NextToken d = (inr t, d') → (length (dec_buf d') < length (dec_buf d))%nat.
Proof. apply Token_loop_shorter. Qed.

Lemma Token_loop_suffix fuel d x d' :
  Token_loop fuel d = (x, d') → dec_buf d' `suffix_of` dec_buf d.
Proof.
  revert d. induction fuel as [|fuel IH]; intros d; simpl; [by intros [= _ <-]|].
  unfold Token_body.
  destruct (peek d) as [[e|c] d1] eqn:Hp;
    pose proof (peek_suffix _ _ _ Hp) as Hsuf; [by intros [= _ <-]|].
  assert (dec_buf (advance d1) `suffix_of` dec_buf d) as Hadv.
  { etrans; [apply tail_suffix | done]. }
  unfold tokenError.
  repeat match goal with
         | |- context [if ?b then _ else _] => destruct b
         | |- context [match tokenState d1 with _ => _ end] => destruct (tokenState d1)
         end;
    try (by intros [= _ <-]);
    try (intros [= _ <-]; simpl;
         rewrite ?dec_buf_tokenValueEnd, ?dec_buf_popTokenStack; by simpl);
    try (intros H%IH; simpl in H; by etrans);
    try (intros H%Decode_suffix; simpl in H; by etrans);
    try (match goal with
         | |- context [Decode ?um ?d0] =>
             destruct (Decode um d0) as [[e|x0] d2] eqn:Hd;
             apply Decode_suffix in Hd; intros [= _ <-]; simpl in *; by etrans
         end).
Qed.

Lemma NextToken_suffix d x d' :
  NextToken d = (x, d') → dec_buf d' `suffix_of` dec_buf d.
Proof. apply Token_loop_suffix. Qed.

(** ** copyWithAttachments always returns *)

Lemma copy_loop_total fuel att d first w :
  (length (dec_buf d) < fuel)%nat → is_Some (copy_loop fuel att d first w).
Proof.
  revert d first w. induction fuel as [|fuel IH]; intros d first w Hlen; [lia|].
  simpl. destruct (NextToken d) as [[e|t] d1] eqn:Ht.
  { destruct (decide _); eauto. }
  apply NextToken_shorter in Ht.
  destruct t as [|dl|tp|l|b]; try (apply IH; lia).
  - destruct (decide _); [apply IH; lia | eauto].
  - destruct (Decode unmarshalRaw d1) as [[e|val] d2] eqn:Hd; [eauto|].
    apply Decode_shorter in Hd.
    destruct (decide _); [destruct att; eauto | apply IH; lia].
Qed.

Lemma copy_loop_mono fuel fuel' att d first w res :
  (fuel ≤ fuel')%nat →
  copy_loop fuel att d first w = Some res →
  copy_loop fuel' att d first w = Some res.
Proof.
  revert fuel' d first w.
  induction fuel as [|fuel IH]; intros fuel' d first w Hle; [done|].
  destruct fuel' as [|fuel']; [lia|]. simpl.
  destruct (NextToken d) as [[e|t] d1]; [done|].
  destruct t as [|dl|tp|l|b]; try (apply IH; lia).
  - destruct (decide _); [apply IH; lia | done].
  - destruct (Decode unmarshalRaw d1) as [[e|val] d2]; [done|].
    destruct (decide _); [done | apply IH; lia].
Qed.

Lemma copyWithAttachments_fuel_total r att :
  copyWithAttachments_fuel (S (length r)) r att = Some (copyWithAttachments r att).
Proof.
  unfold copyWithAttachments.
  destruct (copyWithAttachments_fuel (S (length r)) r att) as [res|] eqn:H; [done|].
  exfalso. revert H. unfold copyWithAttachments_fuel.
  destruct (NextToken (NewDecoder r)) as [[e|t] d1] eqn:Ht.
  - apply NextToken_suffix, suffix_length in Ht. simpl in Ht.
    destruct (decide _); [|done].
    intros H. destruct (copy_loop_total (S (length r)) att d1 true (fmt_v TokNil)) as [? Hs];
      [lia | congruence].
  - apply NextToken_shorter in Ht. simpl in Ht.
    destruct (decide _); [|done].
    intros H. destruct (copy_loop_total (S (length r)) att d1 true (fmt_v t)) as [? Hs];
      [lia | congruence].
Qed.

(** The result does not depend on the fuel, once there is enough of it. *)
Lemma copyWithAttachments_fuel_enough fuel r att res :
  copyWithAttachments_fuel fuel r att = Some res →
  copyWithAttachments r att = res.
Proof.
  intros H. pose proof (copyWithAttachments_fuel_total r att) as Ht.
  revert H Ht. unfold copyWithAttachments_fuel.
  destruct (NextToken (NewDecoder r)) as [[e|t] d1];
    (destruct (decide _); [|congruence]);
    intros H1 H2;
    (destruct (Nat.le_ge_cases fuel (S (length r))) as [Hle|Hle];
     [apply (copy_loop_mono _ _ _ _ _ _ _ Hle) in H1
     |apply (copy_loop_mono _ _ _ _ _ _ _ Hle) in H2]; congruence).
Qed.

Lemma isTarget_no_failure ev : isTarget ev = true → eventFailure ev = None.
Proof. by destruct ev. Qed.

Lemma firstFailure_spec evs :
  is_Some (firstFailure evs) ↔ failsBeforeTarget evs.
Proof.
  induction evs as [|ev evs IH]; simpl.
  - split; [by intros [? [=]] | by intros (i & ev & [=] & _)].
  - destruct (isTarget ev) eqn:Htg.
    + split; [by intros [? [=]]|].
      intros (i & ev' & Hi & Hf & Hbefore). exfalso.
      destruct i as [|i].
      * injection Hi as <-. rewrite isTarget_no_failure in Hf by done.
        by destruct Hf.
      * specialize (Hbefore 0%nat ev ltac:(lia) eq_refl). congruence.
    + destruct (eventFailure ev) as [e|] eqn:Hev.
      * split; [|eauto]. intros _. exists 0%nat, ev. simpl.
        rewrite Hev. repeat split; eauto. intros; lia.
      * rewrite IH. split.
        -- intros (i & ev' & Hi & Hf & Hbefore). exists (S i), ev'.
           repeat split; [done..|].
           intros [|j] ev'' Hj Hl; simpl in Hl; [by injection Hl as <-|].
           apply (Hbefore j); [lia|done].
        -- intros (i & ev' & Hi & Hf & Hbefore). destruct i as [|i].
           { injection Hi as <-. rewrite Hev in Hf. by destruct Hf. }
           exists i, ev'. repeat split; [done..|].
           intros j ev'' Hj Hl. apply (Hbefore (S j)); [lia|done].
Qed.

(** ** The rewriter against the token trace *)

Lemma copy_loop_error fuel enc d first w out err :
  copy_loop fuel (inr enc) d first w = Some (out, err) →
  err = firstFailure (events fuel d).
Proof.
  revert d first w. induction fuel as [|fuel IH]; intros d first w; simpl; [done|].
  destruct (NextToken d) as [[e|t] d1].
  { destruct (decide (e = EOF)); by intros [= _ <-]. }
  destruct t as [|dl|tp|l|b]; simpl; try apply IH.
  - destruct (decide (dl = DelimRBrace)); [apply IH | by intros [= _ <-]].
  - destruct (Decode unmarshalRaw d1) as [[e|val] d2]; simpl; [by intros [= _ <-]|].
    destruct (decide (tp = attachmentsKey)) as [Heq|Hne].
    + rewrite bool_decide_eq_true_2 by done. by intros [= _ <-].
    + rewrite bool_decide_eq_false_2 by done. apply IH.
Qed.

Lemma copyWithAttachments_error r enc :
  snd (copyWithAttachments r (inr enc)) =
  match firstToken r with
  | inr t =>
      if decide (t = TokDelim DelimLBrace) then firstFailure (memberTrace r)
      else Some (ErrExpected DelimLBrace t)
  | inl e => if decide (e = EOF) then firstFailure (memberTrace r) else Some e
  end.
Proof.
  pose proof (copyWithAttachments_fuel_total r (inr enc)) as H.
  revert H. unfold copyWithAttachments_fuel, firstToken, memberTrace.
  destruct (NextToken (NewDecoder r)) as [[e|t] d1]; cbn [fst snd];
    (destruct (decide _); [|by intros [= <-]]);
    destruct (copyWithAttachments r (inr enc)) as [out err];
    by intros ?%copy_loop_error.
Qed.

Lemma findsTarget_cons ev evs val rest :
  findsTarget (ev :: evs) val rest ↔
  ev = EvMember attachmentsKey val rest
  ∨ (isTarget ev = false ∧ eventFailure ev = None ∧ findsTarget evs val rest).
Proof.
  split.
  - intros ([|i] & Hi & Hbefore).
    + left. by injection Hi.
    + right. destruct (Hbefore 0%nat ev ltac:(lia) eq_refl) as [H1 H2].
      repeat split; [done..|]. exists i. split; [done|].
      intros j ev' Hj Hl. apply (Hbefore (S j)); [lia|done].
  - intros [->|(H1 & H2 & i & Hi & Hbefore)].
    + exists 0%nat. split; [done|]. intros; lia.
    + exists (S i). split; [done|].
      intros [|j] ev' Hj Hl; simpl in Hl; [by injection Hl as <-|].
      apply (Hbefore j); [lia|done].
Qed.

Lemma findsTarget_nil val rest : ¬ findsTarget [] val rest.
Proof. by intros (i & [=] & _). Qed.

(** Once the target key is met, the output is completed by the replacement
    and every byte the decoder has not consumed. *)
Lemma copy_loop_target fuel enc d first w val rest :
  findsTarget (events fuel d) val rest →
  ∃ pre, copy_loop fuel (inr enc) d first w =
         Some (w ++ pre ++ [dquote] ++ attachmentsKey ++ [dquote; ":"]
                 ++ enc ++ rest, None).
Proof.
  revert d first w. induction fuel as [|fuel IH]; intros d first w; simpl.
  { by intros ?%findsTarget_nil. }
  destruct (NextToken d) as [[e|t] d1].
  { destruct (decide (e = EOF)); [by intros ?%findsTarget_nil|].
    intros [[=]|(_ & [=] & _)]%findsTarget_cons. }
  assert (∀ w', findsTarget (events fuel d1) val rest →
    ∃ pre, copy_loop fuel (inr enc) d1 first (w ++ w') =
           Some (w ++ pre ++ [dquote] ++ attachmentsKey ++ [dquote; ":"]
                   ++ enc ++ rest, None)) as Hskip.
  { intros w' Hf. destruct (IH d1 first (w ++ w') Hf) as [pre Hpre].
    exists (w' ++ pre). rewrite Hpre. by rewrite <-!app_assoc. }
  destruct t as [|dl|tp|l|b]; simpl.
  - intros [[=]|(_ & _ & Hf)]%findsTarget_cons.
    destruct (Hskip [] Hf) as [pre Hpre]. rewrite app_nil_r in Hpre. eauto.
  - intros [[=]|(_ & Hev & Hf)]%findsTarget_cons. simpl in Hev.
    destruct (decide (dl = DelimRBrace)); [|done]. by apply Hskip.
  - destruct (Decode unmarshalRaw d1) as [[e|v] d2].
    { intros [[=]|(_ & [=] & _)]%findsTarget_cons. }
    intros [[= -> -> <-]|(Htg & _ & Hf)]%findsTarget_cons.
    + rewrite decide_True by done.
      exists (if first then [] else [","]). f_equal. f_equal.
      destruct first; simpl; rewrite <-?app_assoc; simpl;
        by rewrite <-?app_assoc.
    + simpl in Htg. apply bool_decide_eq_false in Htg.
      rewrite decide_False by done.
      match goal with
      | |- ∃ _, copy_loop _ _ _ _ ?X = _ =>
          destruct (IH d2 false X Hf) as [pre Hpre]
      end.
      rewrite Hpre.
      exists ((if first then [] else [","]) ++ [dquote] ++ tp
                ++ [dquote; ":"] ++ v ++ pre).
      f_equal. f_equal.
      destruct first; simpl; rewrite <-?app_assoc; simpl;
        by rewrite <-?app_assoc.
  - intros [[=]|(_ & _ & Hf)]%findsTarget_cons.
    destruct (Hskip [] Hf) as [pre Hpre]. rewrite app_nil_r in Hpre. eauto.
  - intros [[=]|(_ & _ & Hf)]%findsTarget_cons.
    destruct (Hskip [] Hf) as [pre Hpre]. rewrite app_nil_r in Hpre. eauto.
Qed.

(** The raw value of a member and what follows it are where they were in the
    input. *)
Lemma events_member_split fuel d i k v rest :
  events fuel d !! i = Some (EvMember k v rest) →
  ∃ c, dec_buf d = c ++ v ++ rest.
Proof.
  revert d i. induction fuel as [|fuel IH]; intros d i; simpl; [done|].
  destruct (NextToken d) as [[e|t] d1] eqn:Ht.
  { destruct (decide (e = EOF)); [done|]. by destruct i as [|[|i]]. }
  apply NextToken_suffix in Ht as [c1 Hc1].
  assert (∀ i, events fuel d1 !! i = Some (EvMember k v rest) →
               ∃ c, dec_buf d = c ++ v ++ rest) as Hskip.
  { intros j (c & Hc)%IH. exists (c1 ++ c). by rewrite Hc1, Hc, <-app_assoc. }
  destruct t as [|dl|tp|l|b]; try (destruct i as [|i]; simpl; [done|apply Hskip]).
  destruct (Decode unmarshalRaw d1) as [[e|v0] d2] eqn:Hd.
  { by destruct i as [|[|i]]. }
  pose proof Hd as (pre & item & Hbuf & Hum & _)%Decode_ok.
  destruct i as [|i]; simpl.
  - intros [= -> -> <-]. unfold unmarshalRaw in Hum. injection Hum as <-.
    destruct (skipSpace_split item) as (sp & Hitem & _).
    exists (c1 ++ pre ++ sp). rewrite Hc1, Hbuf. unfold unread.
    rewrite Hitem at 1. by rewrite <-!app_assoc.
  - intros (c & Hc)%IH. exists (c1 ++ pre ++ item ++ c).
    rewrite Hc1, Hbuf, Hc. by rewrite <-!app_assoc.
Qed.


(** ** The scanner on keys and values *)

Lemma plainByte_inv c :
  plainByte c = true →
  beq c dquote = false ∧ beq c backslash = false ∧ (code c <? 32)%Z = false
  ∧ (code c <? 128)%Z = true.
Proof.
  unfold plainByte. rewrite !andb_true_iff, !negb_true_iff.
  intros [[[H1 H2] H3] H4]. repeat split; try done. lia.
Qed.

Lemma scanStep_plain s c :
  step s = stateInString → plainByte c = true → scanStep s c = (s, scanContinue).
Proof.
  intros Hs (H1 & H2 & H3 & _)%plainByte_inv.
  unfold scanStep. rewrite Hs. unfold do_stateInString. by rewrite H1, H2, H3.
Qed.

Lemma readValue_loop_key whole s k c rest n :
  step s = stateInString → parseState s = [] → plainKey k = true →
  readValue_loop whole s (k ++ dquote :: c :: rest) n = inr (S (n + length k)).
Proof.
  intros Hs Hp. revert n. induction k as [|a k IH]; intros n Hk; simpl.
  - unfold scanStep. rewrite Hs. unfold do_stateInString. simpl.
    unfold do_stateEndValue. simpl. rewrite Hp. unfold do_stateEndTop.
    destruct (negb (isSpace c)); simpl; f_equal; lia.
  - simpl in Hk. apply andb_true_iff in Hk as [Ha Hk].
    rewrite scanStep_plain by done. rewrite IH by done. f_equal. lia.
Qed.

Lemma readValue_key k c rest :
  plainKey k = true →
  readValue (dquote :: k ++ dquote :: c :: rest) = inr (S (S (length k))).
Proof.
  intros Hk. unfold readValue. simpl.
  rewrite (readValue_loop_key _ (set_step scanner_reset stateInString)) by done.
  done.
Qed.

Lemma unquote_loop_plain fuel k :
  (length k ≤ fuel)%nat → plainKey k = true → unquote_loop fuel k = Some k.
Proof.
  revert fuel. induction k as [|a k IH]; intros fuel Hlen Hk; [by destruct fuel|].
  destruct fuel as [|fuel]; simpl in Hlen; [lia|].
  simpl in Hk. apply andb_true_iff in Hk as [Ha Hk].
  apply plainByte_inv in Ha as (H1 & H2 & H3 & H4).
  cbn [unquote_loop unquote_one]. rewrite H2, H1, H3, H4. simpl.
  rewrite drop_0, IH by (done || lia). done.
Qed.

Lemma unquoteBytes_plain k :
  plainKey k = true → unquoteBytes (dquote :: k ++ [dquote]) = Some k.
Proof.
  intros Hk. unfold unquoteBytes. rewrite rev_app_distr. simpl.
  rewrite rev_involutive. apply unquote_loop_plain; [|done].
  rewrite length_app. lia.
Qed.

(** After a complete value, any byte that cannot continue a number ends it. *)
Lemma scanStep_end_delimiting s c :
  snd (scanStep s " ") = scanEnd → delimiting c = true →
  snd (scanStep s c) = scanEnd.
Proof.
  unfold delimiting. rewrite negb_true_iff, !orb_false_iff.
  intros Hsp [[[Hd Hdot] He] HE].
  destruct s as [st ps err et]. revert Hsp.
  unfold scanStep, do_stateBeginValueOrEmpty, do_stateBeginValue,
    do_stateBeginStringOrEmpty, do_stateBeginString, do_stateInString,
    do_stateInStringEsc, do_hex, do_stateNeg, do_state1, do_state0, do_stateDot,
    do_stateDot0, do_stateE, do_stateESign, do_stateE0, do_letter,
    do_stateEndValue, do_stateEndTop, scan_error.
  destruct st; simpl; try done; rewrite ?Hd, ?Hdot, ?He, ?HE; simpl;
    destruct ps as [|[] ps]; simpl; try done;
    by destruct (negb (isSpace c)).
Qed.

Lemma readValue_loop_extend whole whole' s v c rest n m :
  readValue_loop whole s v n = inr (n + length v)%nat →
  delimiting c = true →
  readValue_loop whole' s (v ++ c :: rest) m = inr (m + length v)%nat.
Proof.
  intros H Hc. revert s n m H.
  induction v as [|a v IH]; intros s n m; simpl.
  - intros H.
    assert (snd (scanStep s " ") = scanEnd) as Hend.
    { destruct (snd (scanStep s " ")); try done; by destruct (nonSpace whole). }
    pose proof (scanStep_end_delimiting s c Hend Hc) as Hend'.
    destruct (scanStep s c) as [s1 v]. simpl in Hend'. subst v.
    f_equal. lia.
  - destruct (scanStep s a) as [s1 v1].
    assert (∀ s', readValue_loop whole s' v (S n) = inr (n + S (length v))%nat →
                  readValue_loop whole' s' (v ++ c :: rest) (S m)
                  = inr (m + S (length v))%nat) as Hrec.
    { intros s' H. replace (m + S (length v))%nat with (S m + length v)%nat by lia.
      apply (IH s' (S n)). rewrite H. f_equal. lia. }
    destruct v1; try apply Hrec; try (intros [=]; lia);
      destruct (do_stateEndValue s1 " ") as [s2 v2];
      destruct v2; try apply Hrec;
      intros [= Hn]; assert (v = []) as -> by (apply length_zero_iff_nil; lia);
      simpl; f_equal; lia.
Qed.

Lemma scanStep_reset_space c :
  isSpace c = true → scanStep scanner_reset c = (scanner_reset, scanSkipSpace).
Proof. intros H. unfold scanStep. simpl. unfold do_stateBeginValue. by rewrite H. Qed.

Lemma readValue_loop_spaces whole ws buf n :
  allSpace ws = true →
  readValue_loop whole scanner_reset (ws ++ buf) n
  = readValue_loop whole scanner_reset buf (n + length ws).
Proof.
  revert n. induction ws as [|a ws IH]; intros n Hws; simpl.
  - f_equal. lia.
  - simpl in Hws. apply andb_true_iff in Hws as [Ha Hws].
    rewrite scanStep_reset_space, IH by done. f_equal. lia.
Qed.

(** The decoder delimits a value that is followed by a delimiting byte. *)
Lemma readValue_value ws v c rest :
  allSpace ws = true → rawValue v = true → delimiting c = true →
  readValue (ws ++ v ++ c :: rest) = inr (length ws + length v)%nat.
Proof.
  intros Hws Hv Hc. unfold rawValue in Hv.
  apply andb_true_iff in Hv as [_ Hv%bool_decide_eq_true].
  unfold readValue in *. rewrite readValue_loop_spaces by done.
  apply (readValue_loop_extend v _ _ _ _ _ 0%nat); done.
Qed.

Lemma skipSpace_app ws b : allSpace ws = true → skipSpace (ws ++ b) = skipSpace b.
Proof.
  induction ws as [|a ws IH]; intros Hws; simpl; [done|].
  simpl in Hws. apply andb_true_iff in Hws as [-> Hws]. auto.
Qed.

(** ** The decoder on the tokens of an object text *)

Lemma skipSpace_ws ws c r :
  allSpace ws = true → isSpace c = false → skipSpace (ws ++ c :: r) = c :: r.
Proof. intros Hws Hc. rewrite skipSpace_app by done. by apply skipSpace_nonspace. Qed.

Lemma peek_ws ws c r e st stack :
  allSpace ws = true → isSpace c = false →
  peek (mkDecoder (ws ++ c :: r) e st stack) = (inr c, mkDecoder (c :: r) e st stack).
Proof. intros Hws Hc. unfold peek. simpl. by rewrite skipSpace_ws. Qed.

Lemma peek_eof ws e st stack :
  allSpace ws = true →
  peek (mkDecoder ws e st stack) = (inl EOF, mkDecoder ws e st stack).
Proof.
  intros Hws. unfold peek. simpl.
  replace ws with (ws ++ []) at 1 by apply app_nil_r.
  by rewrite skipSpace_app.
Qed.

Lemma take_key k c rest :
  take (S (S (length k))) (dquote :: k ++ dquote :: c :: rest) = dquote :: k ++ [dquote].
Proof.
  simpl. f_equal. replace (S (length k)) with (length (k ++ [dquote])).
  - replace (k ++ dquote :: c :: rest) with ((k ++ [dquote]) ++ c :: rest)
      by (by rewrite <-app_assoc).
    by rewrite take_app_length.
  - rewrite length_app. simpl. lia.
Qed.

Lemma drop_key k c rest :
  drop (S (S (length k))) (dquote :: k ++ dquote :: c :: rest) = c :: rest.
Proof.
  simpl. replace (S (length k)) with (length (k ++ [dquote])).
  - replace (k ++ dquote :: c :: rest) with ((k ++ [dquote]) ++ c :: rest)
      by (by rewrite <-app_assoc).
    by rewrite drop_app_length.
  - rewrite length_app. simpl. lia.
Qed.

Lemma Decode_key k c rest stack :
  plainKey k = true →
  Decode unmarshalString
    (mkDecoder (dquote :: k ++ dquote :: c :: rest) None tokenTopValue stack)
  = (inr k, mkDecoder (c :: rest) None tokenTopValue stack).
Proof.
  intros Hk. unfold Decode. cbn [dec_err tokenPrepareForDecode tokenState].
  cbn [tokenValueAllowed tokenState negb dec_buf].
  rewrite readValue_key by done. rewrite take_key, drop_key.
  unfold unmarshalString. rewrite skipSpace_nonspace by done.
  by rewrite unquoteBytes_plain.
Qed.

Lemma Token_loop_key fuel ws k c rest st stack :
  allSpace ws = true → plainKey k = true →
  st = tokenObjectStart ∨ st = tokenObjectKey →
  Token_loop (S fuel) (mkDecoder (ws ++ dquote :: k ++ dquote :: c :: rest) None st stack)
  = (inr (TokString k), mkDecoder (c :: rest) None tokenObjectColon stack).
Proof.
  intros Hws Hk Hst. cbn [Token_loop]; unfold Token_body. rewrite peek_ws by done.
  assert (beq dquote "[" = false ∧ beq dquote "]" = false ∧ beq dquote "{" = false
          ∧ beq dquote "}" = false ∧ beq dquote ":" = false
          ∧ beq dquote "," = false ∧ beq dquote dquote = true)
    as (-> & -> & -> & -> & -> & -> & ->) by done.
  destruct Hst as [-> | ->]; cbn [tokenState andb]; unfold set_tokenState;
    cbn [dec_buf dec_err tokenStack tokenState]; by rewrite Decode_key.
Qed.

Lemma NextToken_key ws k c rest st stack :
  allSpace ws = true → plainKey k = true →
  st = tokenObjectStart ∨ st = tokenObjectKey →
  NextToken (mkDecoder (ws ++ dquote :: k ++ dquote :: c :: rest) None st stack)
  = (inr (TokString k), mkDecoder (c :: rest) None tokenObjectColon stack).
Proof. intros. by apply Token_loop_key. Qed.

Lemma NextToken_comma_key ws ws' k c rest stack :
  allSpace ws = true → allSpace ws' = true → plainKey k = true →
  NextToken (mkDecoder (ws ++ "," :: ws' ++ dquote :: k ++ dquote :: c :: rest)
               None tokenObjectComma stack)
  = (inr (TokString k), mkDecoder (c :: rest) None tokenObjectColon stack).
Proof.
  intros Hws Hws' Hk. unfold NextToken. cbn [Token_loop]; unfold Token_body. rewrite peek_ws by done.
  assert (beq "," "[" = false ∧ beq "," "]" = false ∧ beq "," "{" = false
          ∧ beq "," "}" = false ∧ beq "," ":" = false ∧ beq "," "," = true)
    as (-> & -> & -> & -> & -> & ->) by done.
  cbn [tokenState advance set_buf set_tokenState dec_buf dec_err tokenStack tail].
  destruct (length _); by apply Token_loop_key; auto.
Qed.

Lemma NextToken_close ws rest st t stack :
  allSpace ws = true →
  st = tokenObjectStart ∨ st = tokenObjectComma →
  NextToken (mkDecoder (ws ++ "}" :: rest) None st (t :: stack))
  = (inr (TokDelim DelimRBrace), tokenValueEnd (mkDecoder rest None t stack)).
Proof.
  intros Hws Hst. unfold NextToken. cbn [Token_loop]; unfold Token_body. rewrite peek_ws by done.
  assert (beq "}" "[" = false ∧ beq "}" "]" = false ∧ beq "}" "{" = false
          ∧ beq "}" "}" = true) as (-> & -> & -> & ->) by done.
  by destruct Hst as [-> | ->].
Qed.

Lemma NextToken_eof ws st stack :
  allSpace ws = true →
  NextToken (mkDecoder ws None st stack) = (inl EOF, mkDecoder ws None st stack).
Proof. intros Hws. unfold NextToken. cbn [Token_loop]; unfold Token_body. by rewrite peek_eof. Qed.

Lemma NextToken_open ws rest :
  allSpace ws = true →
  NextToken (NewDecoder (ws ++ "{" :: rest))
  = (inr (TokDelim DelimLBrace), mkDecoder rest None tokenObjectStart [tokenTopValue]).
Proof.
  intros Hws. unfold NextToken, NewDecoder. cbn [Token_loop]; unfold Token_body. rewrite peek_ws by done.
  done.
Qed.

Lemma Decode_value ws ws' v c rest stack :
  allSpace ws = true → allSpace ws' = true → rawValue v = true →
  delimiting c = true →
  Decode unmarshalRaw
    (mkDecoder (ws ++ ":" :: ws' ++ v ++ c :: rest) None tokenObjectColon stack)
  = (inr v, mkDecoder (c :: rest) None tokenObjectComma stack).
Proof.
  intros Hws Hws' Hv Hc. unfold Decode.
  cbn [dec_err tokenPrepareForDecode tokenState]. rewrite peek_ws by done.
  replace (negb (beq ":" ":")) with false by done.
  unfold advance, set_buf, set_tokenState, tokenValueAllowed, tokenValueEnd.
  cbn [dec_buf dec_err tokenStack tokenState tail negb].
  rewrite readValue_value by done.
  replace (ws' ++ v ++ c :: rest) with ((ws' ++ v) ++ c :: rest)
    by (by rewrite <-app_assoc).
  rewrite <-length_app, take_app_length, drop_app_length.
  unfold unmarshalRaw. rewrite skipSpace_app by done.
  unfold rawValue in Hv. apply andb_true_iff in Hv as [Hv _].
  destruct v as [|a v]; [done|]. apply negb_true_iff in Hv.
  by rewrite skipSpace_nonspace.
Qed.

(** ** The rewriter on an object text *)

Lemma delimiting_space c : isSpace c = true → delimiting c = true.
Proof.
  unfold isSpace, beq. rewrite !orb_true_iff.
  intros [[[H|H]|H]|H]; apply Ascii.eqb_eq in H; by subst.
Qed.

Lemma delimiting_head ws x X :
  allSpace ws = true → x = "," ∨ x = "}" →
  ∃ c r, ws ++ x :: X = c :: r ∧ delimiting c = true.
Proof.
  intros Hws Hx. destruct ws as [|a ws]; simpl.
  - exists x, X. split; [done|]. by destruct Hx as [-> | ->].
  - exists a, (ws ++ x :: X). split; [done|].
    simpl in Hws. apply andb_true_iff in Hws as [Ha _]. by apply delimiting_space.
Qed.

Lemma allSpace_app ws ws' :
  allSpace ws = true → allSpace ws' = true → allSpace (ws ++ ws') = true.
Proof. unfold allSpace. rewrite forallb_app. by intros -> ->. Qed.

Lemma memberOK_inv m :
  memberOK m = true →
  allSpace (m_pre m) = true ∧ plainKey (m_key m) = true
  ∧ allSpace (m_mid m) = true ∧ allSpace (m_post m) = true
  ∧ rawValue (m_val m) = true ∧ allSpace (m_end m) = true.
Proof.
  unfold memberOK. rewrite !andb_true_iff.
  intros [[[[[? ?] ?] ?] ?] ?]. repeat split; assumption.
Qed.

(** The decoder on one member: the key token, then the raw value. *)
Lemma decode_member m (first : bool) ws x X stack :
  allSpace ws = true → memberOK m = true → x = "," ∨ x = "}" →
  ∃ d1,
    NextToken (mkDecoder (ws ++ (if first then [] else [","]) ++ memberText m ++ x :: X)
                 None (if first then tokenObjectStart else tokenObjectComma) stack)
    = (inr (TokString (m_key m)), d1)
    ∧ Decode unmarshalRaw d1
      = (inr (m_val m), mkDecoder (m_end m ++ x :: X) None tokenObjectComma stack).
Proof.
  intros Hws (Hpre & Hkey & Hmid & Hpost & Hval & Hend)%memberOK_inv Hx.
  destruct (delimiting_head (m_end m) x X Hend Hx) as (c & r & Hcr & Hc).
  assert (∃ c' r', m_mid m ++ ":" :: m_post m ++ m_val m ++ m_end m ++ x :: X = c' :: r')
    as (c' & r' & Hcr').
  { destruct (m_mid m); simpl; eauto. }
  exists (mkDecoder (c' :: r') None tokenObjectColon stack). split.
  - unfold memberText. destruct first.
    + replace (ws ++ [] ++ (m_pre m ++ [dquote] ++ m_key m ++ [dquote] ++ m_mid m
                 ++ [":"] ++ m_post m ++ m_val m ++ m_end m) ++ x :: X)
        with ((ws ++ m_pre m) ++ dquote :: m_key m ++ dquote :: c' :: r').
      * apply NextToken_key; auto using allSpace_app.
      * rewrite <-Hcr'. list_norm. done.
    + replace (ws ++ [","] ++ (m_pre m ++ [dquote] ++ m_key m ++ [dquote] ++ m_mid m
                 ++ [":"] ++ m_post m ++ m_val m ++ m_end m) ++ x :: X)
        with (ws ++ "," :: m_pre m ++ dquote :: m_key m ++ dquote :: c' :: r').
      * by apply NextToken_comma_key.
      * rewrite <-Hcr'. list_norm. done.
  - rewrite <-Hcr', Hcr. by apply Decode_value.
Qed.

(** A member whose key is not the target is copied without its space. *)
Lemma copy_loop_member fuel att m (first : bool) ws w x X stack :
  allSpace ws = true → memberOK m = true → m_key m ≠ attachmentsKey →
  x = "," ∨ x = "}" →
  copy_loop (S fuel) att
    (mkDecoder (ws ++ (if first then [] else [","]) ++ memberText m ++ x :: X)
       None (if first then tokenObjectStart else tokenObjectComma) stack) first w
  = copy_loop fuel att
      (mkDecoder (m_end m ++ x :: X) None tokenObjectComma stack) false
      (w ++ (if first then [] else [","]) ++ compactMember m).
Proof.
  intros Hws Hm Hne Hx.
  destruct (decode_member m first ws x X stack Hws Hm Hx) as (d1 & Ht & Hd).
  cbn [copy_loop]. rewrite Ht, Hd. rewrite decide_False by done.
  f_equal. unfold compactMember.
  destruct first; list_norm; done.
Qed.

(** The member with the target key: its value is replaced and the rest of
    the input follows as it is. *)
Lemma copy_loop_target_member fuel enc m (first : bool) ws w x X stack :
  allSpace ws = true → memberOK m = true → m_key m = attachmentsKey →
  x = "," ∨ x = "}" →
  copy_loop (S fuel) (inr enc)
    (mkDecoder (ws ++ (if first then [] else [","]) ++ memberText m ++ x :: X)
       None (if first then tokenObjectStart else tokenObjectComma) stack) first w
  = Some (w ++ (if first then [] else [","]) ++ [dquote] ++ attachmentsKey
            ++ [dquote; ":"] ++ enc ++ m_end m ++ x :: X, None).
Proof.
  intros Hws Hm Heq Hx.
  destruct (decode_member m first ws x X stack Hws Hm Hx) as (d1 & Ht & Hd).
  cbn [copy_loop]. rewrite Ht, Hd. rewrite decide_True by done.
  unfold unread. cbn [dec_buf]. rewrite Heq. f_equal. f_equal.
  destruct first; list_norm; done.
Qed.

(** The closing brace, and the end of the input after it. *)
Lemma copy_loop_close fuel att ws ws1 st first w :
  allSpace ws = true → allSpace ws1 = true →
  st = tokenObjectStart ∨ st = tokenObjectComma →
  copy_loop (S (S fuel)) att
    (mkDecoder (ws ++ "}" :: ws1) None st [tokenTopValue]) first w
  = Some (w ++ ["}"], None).
Proof.
  intros Hws Hws1 Hst. cbn [copy_loop].
  rewrite NextToken_close by done. rewrite decide_True by done.
  unfold tokenValueEnd. cbn [tokenState]. by rewrite NextToken_eof.
Qed.

Lemma membersText_cons m r :
  r ≠ [] → membersText (m :: r) = memberText m ++ [","] ++ membersText r.
Proof. by destruct r. Qed.

Lemma compactMembers_cons m r :
  r ≠ [] → compactMembers (m :: r) = compactMember m ++ [","] ++ compactMembers r.
Proof. by destruct r. Qed.

(** All the members of an object without the target key, and its end. *)
Lemma copy_loop_members att ms : ∀ fuel (first : bool) ws w ws1,
  ms ≠ [] → Forall copied ms →
  allSpace ws = true → allSpace ws1 = true → (length ms + 2 ≤ fuel)%nat →
  copy_loop fuel att
    (mkDecoder (ws ++ (if first then [] else [","]) ++ membersText ms ++ "}" :: ws1)
       None (if first then tokenObjectStart else tokenObjectComma) [tokenTopValue])
    first w
  = Some (w ++ (if first then [] else [","]) ++ compactMembers ms ++ ["}"], None).
Proof.
  induction ms as [|m r IH]; intros fuel first ws w ws1 Hne Hall Hws Hws1 Hfuel;
    [done|].
  apply Forall_cons in Hall as [[Hm Hkey] Hall].
  destruct fuel as [|fuel]; [simpl in Hfuel; lia|]. simpl in Hfuel.
  destruct (decide (r = [])) as [->|Hr].
  - cbn [membersText compactMembers].
    rewrite copy_loop_member by auto.
    destruct fuel as [|[|fuel]]; [lia..|].
    apply memberOK_inv in Hm as (_ & _ & _ & _ & _ & Hend).
    rewrite copy_loop_close by auto.
    f_equal. f_equal. by rewrite <-!app_assoc.
  - rewrite membersText_cons, compactMembers_cons by done.
    replace (ws ++ (if first then [] else [","])
               ++ (memberText m ++ [","] ++ membersText r) ++ "}" :: ws1)
      with (ws ++ (if first then [] else [","]) ++ memberText m
              ++ "," :: (membersText r ++ "}" :: ws1))
      by (list_norm; done).
    rewrite copy_loop_member by auto.
    pose proof Hm as (_ & _ & _ & _ & _ & Hend)%memberOK_inv.
    replace (m_end m ++ "," :: membersText r ++ "}" :: ws1)
      with (m_end m ++ [","] ++ membersText r ++ "}" :: ws1) by done.
    rewrite (IH fuel false) by (auto; lia).
    f_equal. f_equal. list_norm. done.
Qed.

(** The members before the target key, the target member, and then whatever
    follows it. *)
Lemma copy_loop_members_target enc mt x X stack before : ∀ fuel (first : bool) ws w,
  Forall copied before → memberOK mt = true → m_key mt = attachmentsKey →
  x = "," ∨ x = "}" →
  allSpace ws = true → (length before + 1 ≤ fuel)%nat →
  copy_loop fuel (inr enc)
    (mkDecoder (ws ++ (if first then [] else [","]) ++ membersText (before ++ [mt])
                  ++ x :: X)
       None (if first then tokenObjectStart else tokenObjectComma) stack)
    first w
  = Some (w ++ (if first then [] else [","])
            ++ compactMembers (before ++ [withVal mt enc]) ++ m_end mt ++ x :: X,
          None).
Proof.
  induction before as [|m r IH]; intros fuel first ws w Hall Hmt Hkey Hx Hws Hfuel.
  - destruct fuel as [|fuel]; [simpl in Hfuel; lia|].
    cbn [app membersText compactMembers].
    rewrite copy_loop_target_member by done.
    f_equal. f_equal. unfold compactMember. cbn [withVal m_key m_val]. rewrite Hkey.
    list_norm. done.
  - apply Forall_cons in Hall as [[Hm Hmkey] Hall].
    destruct fuel as [|fuel]; [simpl in Hfuel; lia|]. simpl in Hfuel.
    rewrite <-!app_comm_cons.
    rewrite membersText_cons, compactMembers_cons by (by destruct r).
    replace (ws ++ (if first then [] else [","])
               ++ (memberText m ++ [","] ++ membersText (r ++ [mt])) ++ x :: X)
      with (ws ++ (if first then [] else [","]) ++ memberText m
              ++ "," :: (membersText (r ++ [mt]) ++ x :: X))
      by (list_norm; done).
    rewrite copy_loop_member by auto.
    pose proof Hm as (_ & _ & _ & _ & _ & Hend)%memberOK_inv.
    replace (m_end m ++ "," :: membersText (r ++ [mt]) ++ x :: X)
      with (m_end m ++ [","] ++ membersText (r ++ [mt]) ++ x :: X) by done.
    rewrite (IH fuel false) by (auto; lia).
    f_equal. f_equal. list_norm. done.
Qed.

(** An object text without the target key is copied without its space. *)
Lemma copyWithAttachments_object att ws0 inner ms ws1 :
  allSpace ws0 = true → allSpace inner = true → allSpace ws1 = true →
  Forall copied ms →
  copyWithAttachments (objectText ws0 inner ms ws1) att = (compactObject ms, None).
Proof.
  intros Hws0 Hinner Hws1 Hall.
  apply (copyWithAttachments_fuel_enough (length ms + 2)).
  unfold copyWithAttachments_fuel, objectText. cbn [app].
  rewrite NextToken_open by done. rewrite decide_True by done.
  unfold compactObject, fmt_v, delimByte.
  destruct (decide (ms = [])) as [->|Hne].
  - cbn [length Nat.add membersText compactMembers app].
    by rewrite copy_loop_close by auto.
  - replace (inner ++ membersText ms ++ "}" :: ws1)
      with (inner ++ [] ++ membersText ms ++ "}" :: ws1) by done.
    by rewrite (copy_loop_members att ms _ true) by auto.
Qed.

(** An object text with the target key: the value of its first occurrence is
    replaced, what precedes it is copied without its space, and what follows
    is copied as it is. *)
Lemma copyWithAttachments_object_target enc ws0 inner before mt x X :
  allSpace ws0 = true → allSpace inner = true →
  Forall copied before → memberOK mt = true → m_key mt = attachmentsKey →
  x = "," ∨ x = "}" →
  copyWithAttachments
    (ws0 ++ ["{"] ++ inner ++ membersText (before ++ [mt]) ++ x :: X) (inr enc)
  = (["{"] ++ compactMembers (before ++ [withVal mt enc]) ++ m_end mt ++ x :: X,
     None).
Proof.
  intros Hws0 Hinner Hall Hmt Hkey Hx.
  apply (copyWithAttachments_fuel_enough (length before + 1)).
  unfold copyWithAttachments_fuel. cbn [app].
  rewrite NextToken_open by done. rewrite decide_True by done.
  unfold fmt_v, delimByte.
  replace (inner ++ membersText (before ++ [mt]) ++ x :: X)
    with (inner ++ [] ++ membersText (before ++ [mt]) ++ x :: X) by done.
  by rewrite (copy_loop_members_target enc mt x X _ before _ true) by auto.
Qed.

(** A serialization without any space between its tokens is left as it is,
    up to the space that follows it. *)
Lemma membersText_compact ms :
  Forall (λ m, m_pre m = [] ∧ m_mid m = [] ∧ m_post m = [] ∧ m_end m = []) ms →
  membersText ms = compactMembers ms.
Proof.
  induction 1 as [|m r (H1 & H2 & H3 & H4) Hr IH]; [done|].
  assert (memberText m = compactMember m) as Hm.
  { unfold memberText, compactMember. rewrite H1, H2, H3, H4.
    list_norm. by rewrite app_nil_r. }
  destruct r as [|m' r']; [done|].
  rewrite membersText_cons, compactMembers_cons by done. by rewrite Hm, IH.
Qed.

Lemma objectText_compact ms ws1 :
  Forall (λ m, m_pre m = [] ∧ m_mid m = [] ∧ m_post m = [] ∧ m_end m = []) ms →
  objectText [] [] ms ws1 = compactObject ms ++ ws1.
Proof.
  intros H. unfold objectText, compactObject. rewrite membersText_compact by done.
  list_norm. done.
Qed.

(** ** attachmentStubs *)

Lemma attachmentStubs_range_lookup (order : list (string * Attachment)) :
  ∀ (acc : gmap string (gmap string GoScalar)) (filename : string),
  NoDup order.*1 →
  foldl (λ result '(filename, att), <[filename := stubOf att]> result) acc order
    !! filename
  = match list_to_map (M := gmap string Attachment) order !! filename with
    | Some att => Some (stubOf att)
    | None => acc !! filename
    end.
Proof.
  induction order as [|[k a] order IH]; intros acc filename Hnd.
  - simpl. by rewrite lookup_empty.
  - apply NoDup_cons in Hnd as [Hk Hnd]. cbn [foldl list_to_map foldr].
    rewrite IH by done.
    destruct (decide (k = filename)) as [->|Hne].
    + rewrite lookup_insert_eq.
      rewrite (not_elem_of_list_to_map_1 order filename) by done.
      by rewrite lookup_insert_eq.
    + rewrite !lookup_insert_ne by done. done.
Qed.

(** Whatever the visiting order, the stubs are the attachments' stubs. *)
Lemma attachmentStubs_range_fmap (m : Attachments) order :
  rangeOf m order → attachmentStubs_range order = stubOf <$> m.
Proof.
  intros Hr. apply map_eq. intros filename. unfold attachmentStubs_range.
  assert (NoDup order.*1) as Hnd.
  { unfold rangeOf in Hr. rewrite Hr. apply NoDup_fst_map_to_list. }
  rewrite attachmentStubs_range_lookup by done.
  assert (list_to_map (M := gmap string Attachment) order = m) as ->.
  { rewrite <-(list_to_map_to_list m). apply list_to_map_proper; done. }
  rewrite lookup_fmap, lookup_empty. by destruct (m !! filename).
Qed.

(** ** The multipart writer *)

Section MultipartBody.

Variable isPrintTable : Z → bool.

Lemma joinWith_cons sep x l :
  joinWith sep (x :: l) = x ++ concat (map (λ y, sep ++ y) l).
Proof.
  revert x. induction l as [|y l IH]; intros x; simpl; [by rewrite app_nil_r|].
  rewrite <-app_assoc. f_equal. f_equal. apply IH.
Qed.

Lemma CreatePart_attachment w filename att :
  lastpart w = true →
  CreatePart w (attachmentHeader isPrintTable filename att)
  = {| boundary := boundary w;
       mw_out := mw_out w ++ crlf
                   ++ partText (boundary w)
                        (mkPart (part_header (attachmentPart isPrintTable (filename, att))) []);
       lastpart := true |}.
Proof.
  intros Hl. unfold CreatePart. rewrite Hl. f_equal.
  unfold attachmentHeader, partText, attachmentPart, headerLines.
  cbn [sortByKey foldr insertByKey fst snd String.leb part_header part_body map concat].
  replace (String.leb "Content-Type" "Content-Disposition") with false by done.
  cbn [map concat]. list_norm.
  by rewrite !app_nil_r.
Qed.

(** When no attachment stream fails, the loop writes one part for each
    attachment and closes each stream after its part. *)
Lemma writeAttachments_ok order : ∀ st,
  lastpart (up_w st) = true →
  Forall (λ p, failure (Content (snd p)) = None) order →
  writeAttachments isPrintTable st order
  = ({| up_w := {| boundary := boundary (up_w st);
                   mw_out := mw_out (up_w st)
                     ++ concat (map (λ p, crlf ++ partText (boundary (up_w st))
                                                   (attachmentPart isPrintTable p))
                                    order);
                   lastpart := true |};
        closedAtts := closedAtts st ++ order.*1;
        docCloses := docCloses st |}, None).
Proof.
  induction order as [|[filename att] order IH]; intros st Hl Hall.
  - simpl. rewrite !app_nil_r. destruct st as [[b o l] c d]. simpl in *. by subst.
  - apply Forall_cons in Hall as [Hatt Hall]. simpl in Hatt.
    cbn [writeAttachments]. rewrite Hatt.
    rewrite CreatePart_attachment by done.
    rewrite IH by done. cbn [up_w boundary mw_out closedAtts docCloses partWrite].
    f_equal. f_equal.
    + f_equal. cbn [map concat fmap list_fmap].
      unfold partText, attachmentPart. cbn [part_header part_body fst snd].
      list_norm. done.
    + cbn [fmap list_fmap fst]. by rewrite <-app_assoc.
Qed.

Lemma code_inj a b : code a = code b → a = b.
Proof.
  unfold code. intros H%N2Z.inj.
  by rewrite <-(ascii_N_embedding a), H, ascii_N_embedding.
Qed.

Lemma beq_false_code a b : beq a b = false → (code a =? code b)%Z = false.
Proof.
  intros H%Ascii.eqb_neq. apply Z.eqb_neq. intros Heq. by apply H, code_inj.
Qed.

(** A name of printable ASCII bytes other than the quote and the backslash
    is quoted as it is. *)
Lemma quote_loop_plain fuel s :
  (length s ≤ fuel)%nat → printableName s = true →
  quote_loop isPrintTable fuel s = s.
Proof.
  revert fuel. induction s as [|c s IH]; intros fuel Hlen Hs; [by destruct fuel|].
  destruct fuel as [|fuel]; simpl in Hlen; [lia|].
  simpl in Hs. apply andb_true_iff in Hs as [[Hc Hdel]%andb_true_iff Hs].
  pose proof Hc as (H1 & H2 & H3 & H4)%plainByte_inv.
  cbn [quote_loop quote_one].
  assert ((128 <=? code c)%Z = false) as -> by lia.
  assert ((1 =? 1)%nat && (code c =? RuneError)%Z = false) as ->.
  { unfold RuneError. simpl. lia. }
  assert (appendEscapedRune isPrintTable (code c) = [c]) as ->.
  { unfold appendEscapedRune, IsPrint.
    assert ((code c =? code dquote)%Z = false) as ->.
    { by apply beq_false_code. }
    assert ((code c =? code backslash)%Z = false) as ->.
    { by apply beq_false_code. }
    cbn [orb].
    assert ((code c <=? 255)%Z = true) as -> by lia.
    assert ((32 <=? code c)%Z && (code c <=? 126)%Z = true) as Hp by lia.
    rewrite Hp. cbn [orb]. unfold EncodeRune.
    assert ((code c <? 0)%Z = false) as -> by lia.
    assert ((code c <=? 127)%Z = true) as -> by lia.
    unfold chr, code. by rewrite N2Z.id, ascii_N_embedding. }
  cbn [app drop]. rewrite IH by (done || lia). done.
Qed.

Lemma Quote_printable s :
  printableName s = true → Quote isPrintTable s = [dquote] ++ s ++ [dquote].
Proof. intros Hs. unfold Quote. by rewrite quote_loop_plain. Qed.

End MultipartBody.

(** When the stream of an attachment fails, the loop returns at once: the
    attachments before it have been written and closed; the failing one and
    those after it are not closed, and no part is started after it. *)
Lemma writeAttachments_failure isPrintTable pre filename att err post : ∀ st,
  lastpart (up_w st) = true →
  Forall (λ p, failure (Content (snd p)) = None) pre →
  failure (Content att) = Some err →
  writeAttachments isPrintTable st (pre ++ (filename, att) :: post)
  = ({| up_w := {| boundary := boundary (up_w st);
                   mw_out := mw_out (up_w st)
                     ++ concat (map (λ p, crlf ++ partText (boundary (up_w st))
                                                   (attachmentPart isPrintTable p))
                                    (pre ++ [(filename, att)]));
                   lastpart := true |};
        closedAtts := closedAtts st ++ pre.*1;
        docCloses := docCloses st |}, Some err).
Proof.
  induction pre as [|[k a] pre IH]; intros st Hl Hall Hfail.
  - cbn [app writeAttachments]. rewrite Hfail.
    rewrite CreatePart_attachment by done.
    unfold partWrite.
    cbn [up_w boundary mw_out closedAtts docCloses lastpart fmap list_fmap map concat].
    rewrite !app_nil_r. f_equal. f_equal. f_equal.
    unfold partText, attachmentPart. cbn [part_header part_body fst snd].
    list_norm. done.
  - apply Forall_cons in Hall as [Hatt Hall]. simpl in Hatt.
    rewrite <-!app_comm_cons. cbn [writeAttachments]. rewrite Hatt.
    rewrite CreatePart_attachment by done.
    rewrite IH by done. unfold partWrite.
    cbn [up_w boundary mw_out closedAtts docCloses lastpart].
    f_equal. f_equal.
    + f_equal. cbn [map concat fmap list_fmap].
      unfold partText, attachmentPart. cbn [part_header part_body fst snd].
      list_norm. done.
    + cbn [fmap list_fmap fst]. by rewrite <-app_assoc.
Qed.

(** ** The attachment extractor *)

Lemma moveEntries_lookup (order : list (string * Attachment)) :
  ∀ (atts t : Attachments) (k : string),
  NoDup order.*1 →
  (moveEntries order atts t).1 !! k
  = match list_to_map (M := Attachments) order !! k with
    | Some v => Some v
    | None => atts !! k
    end
  ∧ (moveEntries order atts t).2 !! k
    = match list_to_map (M := Attachments) order !! k with
      | Some _ => None
      | None => t !! k
      end.
Proof.
  unfold moveEntries.
  induction order as [|[k0 v0] order IH]; intros atts t k Hnd.
  - simpl. by rewrite lookup_empty.
  - apply NoDup_cons in Hnd as [Hk Hnd]. cbn [foldl list_to_map foldr].
    destruct (IH (<[k0 := v0]> atts) (delete k0 t) k Hnd) as [-> ->].
    destruct (decide (k0 = k)) as [->|Hne].
    + rewrite lookup_insert_eq.
      rewrite (not_elem_of_list_to_map_1 order k) by done.
      by rewrite lookup_insert_eq, lookup_delete_eq.
    + rewrite !lookup_insert_ne, lookup_delete_ne by done. done.
Qed.

(** The loop moves every entry of the source into the new map. *)
Lemma moveEntries_all (entries : Attachments) :
  moveEntries (map_to_list entries) ∅ entries = (entries, ∅).
Proof.
  pose proof (λ k, moveEntries_lookup (map_to_list entries) ∅ entries k
                     (NoDup_fst_map_to_list entries)) as H.
  rewrite list_to_map_to_list in H.
  destruct (moveEntries (map_to_list entries) ∅ entries) as [atts t].
  f_equal; apply map_eq; intros k; destruct (H k) as [H1 H2]; simpl in *.
  - rewrite H1. by destruct (entries !! k).
  - rewrite H2, lookup_empty. by destruct (entries !! k).
Qed.

Lemma interfaceToAttachments_unrecognized i h :
  fieldEntries h i = None → i ≠ GoAttachmentsPtr None →
  interfaceToAttachments i h = Returns (None, false, h).
Proof. by destruct i as [m|[p|]|]. Qed.

Lemma interfaceToAttachments_moves i h entries :
  allocated h i → fieldEntries h i = Some entries →
  ∃ p h',
    interfaceToAttachments i h = Returns (Some p, true, h')
    ∧ resultEntries h' (Some p) = entries
    ∧ fieldEntries h' i = Some ∅
    ∧ (∀ l, is_Some (h_maps h !! l) → i ≠ GoAttachments (Some l) →
            h_maps h' !! l = h_maps h !! l)
    ∧ (∀ q, is_Some (h_vars h !! q) → i ≠ GoAttachmentsPtr (Some q) →
            h_vars h' !! q = h_vars h !! q).
Proof.
  destruct i as [t|[t|]|]; cbn [allocated fieldEntries interfaceToAttachments];
    try done.
  - intros Halloc [= <-].
    rewrite moveEntries_all.
    set (l := fresh (dom (h_maps h))). set (p := fresh (dom (h_vars h))).
    assert (h_maps h !! l = None) as Hl.
    { apply not_elem_of_dom. apply is_fresh. }
    assert (h_vars h !! p = None) as Hp.
    { apply not_elem_of_dom. apply is_fresh. }
    eexists _, _. split; [done|]. repeat split.
    + unfold resultEntries, varEntries. cbn [h_vars h_maps mapEntries].
      rewrite lookup_insert_eq. cbn [from_option id mapEntries h_maps].
      by rewrite lookup_insert_eq.
    + f_equal. destruct t as [lt|]; [|done]. cbn [mapEntries h_maps].
      destruct Halloc as [x Hx].
      rewrite lookup_insert_ne by congruence. by rewrite lookup_insert_eq.
    + intros l0 [x Hx] Hne. cbn [h_maps].
      rewrite lookup_insert_ne by congruence.
      destruct t as [lt|]; [|done]. rewrite lookup_insert_ne; [done|congruence].
    + intros q [x Hx] _. cbn [h_vars]. rewrite lookup_insert_ne; [done|congruence].
  - intros (v & Hv & Hvalloc) [= <-].
    set (p := fresh (dom (h_vars h))).
    assert (h_vars h !! p = None) as Hp.
    { apply not_elem_of_dom. apply is_fresh. }
    assert (t ≠ p) as Hne by congruence.
    eexists _, _. split; [done|]. repeat split.
    + unfold resultEntries, varEntries. cbn [h_vars].
      rewrite lookup_insert_ne, lookup_insert_eq by done.
      by rewrite Hv.
    + unfold varEntries. cbn [h_vars]. by rewrite lookup_insert_eq.
    + intros q [x Hx] Hq. cbn [h_vars].
      rewrite !lookup_insert_ne; [done|congruence..].
Qed.

Lemma extractFields_field fields h :
  extractFields fields h
  = match find (λ f, bool_decide (f_tag f = attachmentsKey)) fields with
    | Some f => if f_exported f then interfaceToAttachments (f_value f) h else Panics
    | None => Returns (None, false, h)
    end.
Proof.
  induction fields as [|f fields IH]; [done|]. cbn [extractFields find].
  destruct (decide (f_tag f = attachmentsKey)) as [Heq|Hne].
  - by rewrite bool_decide_eq_true_2.
  - by rewrite bool_decide_eq_false_2.
Qed.

(** What [extractAttachments] does is what [interfaceToAttachments] does on
    the attachments field, when there is one. *)
Lemma extractAttachments_field doc h :
  safeDoc doc = true →
  extractAttachments doc h
  = match attachmentsField doc with
    | Some i => interfaceToAttachments i h
    | None => Returns (None, false, h)
    end.
Proof.
  induction doc as [| |d IH|m|fields|]; cbn [safeDoc extractAttachments attachmentsField];
    try done.
  - intros _. by destruct (m !! "_attachments"%string).
  - rewrite extractFields_field.
    destruct (find _ fields) as [f|]; [|done]. cbn [fmap option_fmap option_map].
    by intros [-> _]%andb_true_iff.
Qed.

Lemma safeDoc_field doc :
  safeDoc doc = true → attachmentsField doc ≠ Some (GoAttachmentsPtr None).
Proof.
  induction doc as [| |d IH|m|fields|]; cbn [safeDoc attachmentsField]; try done.
  - by destruct (m !! "_attachments"%string) as [[|[]|]|].
  - destruct (find _ fields) as [f|]; [|done]. cbn [fmap option_fmap option_map].
    intros [_ H]%andb_true_iff [= Hf]. by rewrite Hf in H.
Qed.

(** ** Inputs without any token *)

Lemma scanStep_err s c : scanErrSyntax s → scanErrSyntax (fst (scanStep s c)).
Proof.
  destruct s as [st ps err et]. unfold scanErrSyntax. cbn [scan_err]. intros Herr.
  unfold scanStep, do_stateBeginValueOrEmpty, do_stateBeginValue,
    do_stateBeginStringOrEmpty, do_stateBeginString, do_stateInString,
    do_stateInStringEsc, do_hex, do_stateNeg, do_state1, do_state0, do_stateDot,
    do_stateDot0, do_stateE, do_stateESign, do_stateE0, do_letter,
    do_stateEndValue, do_stateEndTop, scan_error, setTopParseState,
    popParseState, pushParseState, set_step, set_parseState.
  destruct st; cbn [step parseState scan_err endTop fst];
    repeat match goal with
           | |- context [if ?b then _ else _] => destruct b
           | |- context [match ?l with [] => _ | _ :: _ => _ end] => destruct l
           | |- context [match ?p with parseObjectKey => _ | _ => _ end] => destruct p
           end; cbn [step parseState scan_err endTop fst tail]; done.
Qed.

Lemma do_stateEndValue_err s c :
  scanErrSyntax s → scanErrSyntax (fst (do_stateEndValue s c)).
Proof.
  destruct s as [st ps err et]. unfold scanErrSyntax. cbn [scan_err]. intros Herr.
  unfold do_stateEndValue, do_stateEndTop, scan_error, setTopParseState,
    popParseState, set_step, set_parseState.
  cbn [step parseState scan_err endTop fst];
    repeat match goal with
           | |- context [if ?b then _ else _] => destruct b
           | |- context [match ?l with [] => _ | _ :: _ => _ end] => destruct l
           | |- context [match ?p with parseObjectKey => _ | _ => _ end] => destruct p
           end; cbn [step parseState scan_err endTop fst tail]; done.
Qed.

(** The decoder reports [io.EOF] for a value only when nothing but space is
    left. *)
Lemma readValue_loop_not_EOF whole buf : ∀ s n,
  scanErrSyntax s → nonSpace whole = true →
  readValue_loop whole s buf n ≠ inl EOF.
Proof.
  induction buf as [|c buf IH]; intros s n Hs Hw; cbn [readValue_loop].
  - rewrite Hw. by destruct (snd (scanStep s " ")).
  - pose proof (scanStep_err s c Hs) as Hs1.
    destruct (scanStep s c) as [s1 v]. cbn [fst] in Hs1.
    destruct v; try (by apply IH); try done.
    + pose proof (do_stateEndValue_err s1 " " Hs1) as Hs2.
      destruct (do_stateEndValue s1 " ") as [s2 v2]. cbn [fst] in Hs2.
      destruct v2; try (by apply IH); done.
    + pose proof (do_stateEndValue_err s1 " " Hs1) as Hs2.
      destruct (do_stateEndValue s1 " ") as [s2 v2]. cbn [fst] in Hs2.
      destruct v2; try (by apply IH); done.
    + unfold scanErrSyntax in Hs1. by destruct (scan_err s1) as [[]|].
Qed.

Lemma skipSpace_nil_allSpace b : skipSpace b = [] ↔ allSpace b = true.
Proof.
  induction b as [|c b IH]; simpl; [done|].
  destruct (isSpace c); simpl; [done|]. split; done.
Qed.

Lemma nonSpace_head c r : isSpace c = false → nonSpace (c :: r) = true.
Proof. intros H. simpl. by rewrite H. Qed.

(** The first [Token()] reports [io.EOF] exactly when the input holds
    nothing but space. *)
Lemma firstToken_EOF r : firstToken r = inl EOF ↔ allSpace r = true.
Proof.
  split.
  - unfold firstToken, NextToken, NewDecoder. cbn [dec_buf].
    generalize (S (length r)). intros fuel. cbn [Token_loop]; unfold Token_body.
    unfold peek. cbn [dec_buf].
    destruct (skipSpace r) as [|c r'] eqn:Hsk.
    { intros _. by apply skipSpace_nil_allSpace. }
    pose proof (skipSpace_head _ _ _ Hsk) as Hc.
    unfold tokenError, set_buf, tokenValueAllowed.
    cbn [tokenState dec_buf dec_err tokenStack negb].
    destruct (beq c "["); [done|]. destruct (beq c "]"); [done|].
    destruct (beq c "{"); [done|]. destruct (beq c "}"); [done|].
    destruct (beq c ":"); [done|]. destruct (beq c ","); [done|].
    rewrite andb_false_r.
    unfold Decode. cbn [dec_err tokenPrepareForDecode tokenState negb dec_buf].
    unfold readValue.
    pose proof (readValue_loop_not_EOF (c :: r') (c :: r') scanner_reset 0 I
                  (nonSpace_head c r' Hc)) as Hne.
    destruct (readValue_loop (c :: r') scanner_reset (c :: r') 0) as [e|n];
      cbn [fst]; [by intros [= ->]|].
    unfold unmarshalAny.
    destruct (skipSpace (take n (c :: r'))) as [|a l]; [done|].
    case_ifs; try done.
    by destruct (unquoteBytes (a :: l)).
  - intros Hr. unfold firstToken. unfold NewDecoder. by rewrite NextToken_eof.
Qed.

(** On such an input the rewriter writes [<nil>] and returns no error. *)
Lemma copyWithAttachments_no_token r att :
  firstToken r = inl EOF → copyWithAttachments r att = (lit "<nil>", None).
Proof.
  intros Hr%firstToken_EOF.
  apply (copyWithAttachments_fuel_enough 1). unfold copyWithAttachments_fuel.
  unfold NewDecoder. rewrite NextToken_eof by done.
  rewrite decide_True by done. cbn [copy_loop].
  rewrite NextToken_eof by done. by rewrite decide_True.
Qed.

Lemma memberTrace_no_token r : firstToken r = inl EOF → memberTrace r = [].
Proof.
  intros Hr%firstToken_EOF. unfold memberTrace, NewDecoder.
  rewrite NextToken_eof by done. cbn [snd events].
  rewrite NextToken_eof by done. by rewrite decide_True.
Qed.

(** ** The fuel of the loops is never used up *)

Lemma Token_loop_fuel fuel : ∀ d,
  (length (dec_buf d) < fuel)%nat → Token_loop (S fuel) d = Token_loop fuel d.
Proof.
  induction fuel as [|fuel IH]; intros d Hlen; [lia|].
  change (Token_loop (S (S fuel)) d) with (Token_body (Token_loop (S fuel)) d).
  change (Token_loop (S fuel) d) with (Token_body (Token_loop fuel) d).
  unfold Token_body.
  destruct (peek d) as [[e|c] d1] eqn:Hp; [done|].
  pose proof (peek_suffix _ _ _ Hp) as Hsuf%suffix_length.
  apply peek_ok in Hp as (r & Hbuf & _).
  pose proof (advance_shorter _ _ _ Hbuf) as Hadv.
  assert (∀ t, Token_loop (S fuel) (set_tokenState (advance d1) t)
               = Token_loop fuel (set_tokenState (advance d1) t)) as Hrec.
  { intros t. apply IH. cbn [set_tokenState dec_buf]. lia. }
  repeat match goal with
         | |- context [if ?b then _ else _] => destruct b
         | |- context [match tokenState d1 with _ => _ end] => destruct (tokenState d1)
         end; try done; apply Hrec.
Qed.

Lemma Token_loop_fuel_le fuel fuel' d :
  (length (dec_buf d) < fuel)%nat → (fuel ≤ fuel')%nat →
  Token_loop fuel' d = Token_loop fuel d.
Proof.
  intros Hlen Hle. induction Hle as [|m Hle IH]; [done|].
  rewrite Token_loop_fuel; [done|]. lia.
Qed.

(** [NextToken] gives the decoder more fuel than it can use. *)
Lemma Token_loop_enough fuel d :
  (length (dec_buf d) < fuel)%nat → Token_loop fuel d = NextToken d.
Proof.
  unfold NextToken. intros Hlen.
  destruct (Nat.le_ge_cases fuel (S (S (length (dec_buf d))))) as [Hle|Hle].
  - symmetry. by apply Token_loop_fuel_le.
  - apply Token_loop_fuel_le; [lia|done].
Qed.

Lemma DecodeRune_width c s : (1 ≤ snd (DecodeRune (c :: s)))%nat.
Proof.
  unfold DecodeRune.
  repeat match goal with
         | |- context [if ?b then _ else _] => destruct b
         | |- context [match utf8_first ?x with _ => _ end] =>
             destruct (utf8_first x) as [[[? ?] ?]|]
         | |- context [match ?l with [] => _ | _ :: _ => _ end] => destruct l
         end; cbn [snd]; lia.
Qed.

Lemma unquote_one_width s out n : unquote_one s = Some (out, n) → (1 ≤ n)%nat.
Proof.
  unfold unquote_one. destruct s as [|c r]; [done|].
  pose proof (DecodeRune_width c r) as Hw.
  destruct (DecodeRune (c :: r)) as [rr size]. cbn [snd] in Hw.
  repeat match goal with
         | |- context [if ?b then _ else _] => destruct b
         | |- context [match ?l with [] => _ | _ :: _ => _ end] => destruct l
         end; intros [= <- <-]; lia.
Qed.

Lemma unquote_loop_fuel fuel : ∀ s,
  (length s ≤ fuel)%nat → unquote_loop (S fuel) s = unquote_loop fuel s.
Proof.
  induction fuel as [|fuel IH]; intros s Hlen.
  - destruct s; [done|simpl in Hlen; lia].
  - destruct s as [|c r]; [done|].
    change (unquote_loop (S (S fuel)) (c :: r))
      with (match unquote_one (c :: r) with
            | None => None
            | Some (out, n) =>
                match unquote_loop (S fuel) (drop n (c :: r)) with
                | None => None
                | Some rest => Some (out ++ rest)
                end
            end).
    change (unquote_loop (S fuel) (c :: r))
      with (match unquote_one (c :: r) with
            | None => None
            | Some (out, n) =>
                match unquote_loop fuel (drop n (c :: r)) with
                | None => None
                | Some rest => Some (out ++ rest)
                end
            end).
    destruct (unquote_one (c :: r)) as [[out n]|] eqn:Hone; [|done].
    apply unquote_one_width in Hone. rewrite IH; [done|].
    rewrite length_drop. simpl in *. lia.
Qed.

Lemma quote_one_width isPrintTable c s :
  (1 ≤ snd (quote_one isPrintTable (c :: s)))%nat.
Proof.
  unfold quote_one. pose proof (DecodeRune_width c s) as Hw.
  destruct (128 <=? code c)%Z.
  - destruct (DecodeRune (c :: s)) as [r width]. cbn [snd] in Hw.
    by destruct (_ && _).
  - by destruct (_ && _).
Qed.

Lemma quote_loop_fuel isPrintTable fuel : ∀ s,
  (length s ≤ fuel)%nat →
  quote_loop isPrintTable (S fuel) s = quote_loop isPrintTable fuel s.
Proof.
  induction fuel as [|fuel IH]; intros s Hlen.
  - destruct s; [done|simpl in Hlen; lia].
  - destruct s as [|c r]; [done|].
    change (quote_loop isPrintTable (S (S fuel)) (c :: r))
      with (let '(out, n) := quote_one isPrintTable (c :: r) in
            out ++ quote_loop isPrintTable (S fuel) (drop n (c :: r))).
    change (quote_loop isPrintTable (S fuel) (c :: r))
      with (let '(out, n) := quote_one isPrintTable (c :: r) in
            out ++ quote_loop isPrintTable fuel (drop n (c :: r))).
    pose proof (quote_one_width isPrintTable c r) as Hw.
    destruct (quote_one isPrintTable (c :: r)) as [out n]. cbn [snd] in Hw.
    rewrite IH; [done|]. rewrite length_drop. simpl in *. lia.
Qed.

Lemma encodeString_one_width c s : (1 ≤ snd (encodeString_one (c :: s)))%nat.
Proof.
  unfold encodeString_one. pose proof (DecodeRune_width c s) as Hw.
  destruct (DecodeRune (c :: s)) as [r width]. cbn [snd] in Hw.
  case_ifs; cbn [snd]; lia.
Qed.

Lemma encodeString_loop_fuel fuel : ∀ s,
  (length s ≤ fuel)%nat → encodeString_loop (S fuel) s = encodeString_loop fuel s.
Proof.
  induction fuel as [|fuel IH]; intros s Hlen.
  - destruct s; [done|simpl in Hlen; lia].
  - destruct s as [|c r]; [done|].
    change (encodeString_loop (S (S fuel)) (c :: r))
      with (let '(out, n) := encodeString_one (c :: r) in
            out ++ encodeString_loop (S fuel) (drop n (c :: r))).
    change (encodeString_loop (S fuel) (c :: r))
      with (let '(out, n) := encodeString_one (c :: r) in
            out ++ encodeString_loop fuel (drop n (c :: r))).
    pose proof (encodeString_one_width c r) as Hw.
    destruct (encodeString_one (c :: r)) as [out n]. cbn [snd] in Hw.
    rewrite IH; [done|]. rewrite length_drop. simpl in *. lia.
Qed.

(** The whole run when the stream of an attachment fails: the body is the
    parts written so far, the last of them cut where its stream failed, with
    no closing boundary; the error is the terminal error of the body; the
    attachments before the failing one have been closed, the failing one and
    those after it have not. *)
Lemma multipartAttachments_failure isPrintTable b r (m : Attachments)
    pre filename att err post doc :
  replaceAttachments r (Some m) = mkStream doc None →
  Forall (λ p, failure (Content (snd p)) = None) pre →
  failure (Content att) = Some err →
  multipartAttachments isPrintTable b r (Some m) (pre ++ (filename, att) :: post)
  = Returns
      {| mr_boundary := b;
         mr_body :=
           mkStream
             (joinWith crlf
                (map (partText b)
                   (documentPart doc
                      :: map (attachmentPart isPrintTable) (pre ++ [(filename, att)]))))
             (Some err);
         mr_closedAtts := pre.*1;
         mr_docCloses := 2 |}.
Proof.
  intros Hdoc Hpre Hfail. unfold multipartAttachments, createMultipart.
  rewrite Hdoc. cbn [failure content up_w closedAtts docCloses].
  rewrite (writeAttachments_failure isPrintTable pre filename att err post) by done.
  cbn [up_w closedAtts docCloses boundary mw_out CreatePart NewWriter partWrite
       lastpart app].
  f_equal. f_equal. f_equal.
  cbn [map]. rewrite joinWith_cons.
  unfold partText at 2, documentPart, headerLines.
  cbn [sortByKey foldr insertByKey part_header part_body map concat].
  list_norm.
  by rewrite !map_map.
Qed.

(** ** optionsToParams *)

Lemma Values_Add_fold key values : ∀ params k,
  valuesOf (foldl (λ p value, Values_Add p key value) params values) k
  = valuesOf params k ++ (if decide (k = key) then values else []).
Proof.
  unfold valuesOf.
  induction values as [|v values IH]; intros params k; cbn [foldl].
  - case_decide; by rewrite app_nil_r.
  - rewrite IH. unfold Values_Add.
    destruct (decide (k = key)) as [->|Hne].
    + rewrite lookup_insert_eq. cbn [from_option id]. by rewrite <-app_assoc.
    + by rewrite lookup_insert_ne, !app_nil_r.
Qed.

Lemma Values_Add_fold_noEmpty key values : ∀ params,
  noEmptyEntry params →
  noEmptyEntry (foldl (λ p value, Values_Add p key value) params values).
Proof.
  induction values as [|v values IH]; intros params Hp; cbn [foldl]; [done|].
  apply IH. intros k. unfold Values_Add.
  destruct (decide (k = key)) as [->|Hne].
  - rewrite lookup_insert_eq. intros [= H]. by apply app_eq_nil in H as [_ [=]].
  - rewrite lookup_insert_ne by done. apply Hp.
Qed.

Lemma optionsToParams_set_ok order : ∀ params,
  NoDup order.*1 →
  (∀ k T, (k, OptOther T) ∉ order) →
  noEmptyEntry params →
  ∃ params',
    optionsToParams_set params order = inr params'
    ∧ noEmptyEntry params'
    ∧ ∀ k, valuesOf params' k
           = valuesOf params k ++ valuesAt k (list_to_map order).
Proof.
  induction order as [|[key i] rest IH]; intros params Hnd Hok Hne.
  - exists params. repeat split; [done|]. intros k. unfold valuesAt.
    cbn [list_to_map foldr]. by rewrite lookup_empty, app_nil_r.
  - cbn [fmap list_fmap fst] in Hnd. apply NoDup_cons in Hnd as [Hkey Hnd].
    cbn [optionsToParams_set].
    destruct (optionValues i) as [e|values] eqn:Hi.
    { destruct i; try done. exfalso. eapply Hok. by left. }
    destruct (IH (foldl (λ p value, Values_Add p key value) params values))
      as (params' & Hrun & Hne' & Hval).
    + done.
    + intros k T Hin. eapply Hok. by right.
    + by apply Values_Add_fold_noEmpty.
    + exists params'. repeat split; [done..|]. intros k.
      rewrite Hval, Values_Add_fold, <-app_assoc. f_equal.
      unfold valuesAt. cbn [list_to_map foldr uncurry].
      destruct (decide (k = key)) as [->|Hk].
      * rewrite lookup_insert_eq. cbn [snd]. rewrite Hi.
        rewrite (not_elem_of_list_to_map_1 (M := gmap string)) by done.
        by rewrite app_nil_r.
      * by rewrite lookup_insert_ne.
Qed.

Lemma optionsToParams_set_error order : ∀ params e,
  optionsToParams_set params order = inl e →
  ∃ k T, (k, OptOther T) ∈ order
         ∧ e = Statusf StatusBadRequest
                 (lit "kivik: invalid type " ++ T ++ lit " for options").
Proof.
  induction order as [|[key i] rest IH]; intros params e; cbn [optionsToParams_set];
    [done|].
  destruct (optionValues i) as [e'|values] eqn:Hi.
  - intros [= <-]. destruct i; try done. injection Hi as <-.
    eexists _, _. split; [by left|done].
  - intros (k & T & Hin & He)%IH. exists k, T. split; [by right|done].
Qed.

Lemma rangeOf_options (m : OptionSet) order :
  order ≡ₚ map_to_list m →
  NoDup order.*1 ∧ list_to_map order = m ∧ ∀ k i, (k, i) ∈ order ↔ m !! k = Some i.
Proof.
  intros Hp.
  assert (NoDup order.*1) as Hnd by (rewrite Hp; apply NoDup_fst_map_to_list).
  split; [done|split].
  - rewrite <-(list_to_map_to_list m). by apply list_to_map_proper.
  - intros k i. rewrite Hp. apply elem_of_map_to_list.
Qed.

Lemma optionsToParams_sets_ok opts : ∀ orders params,
  rangesOf opts orders →
  (∀ m k T, m ∈ opts → m !! k ≠ Some (OptOther T)) →
  noEmptyEntry params →
  ∃ params',
    optionsToParams_sets params orders = inr params'
    ∧ noEmptyEntry params'
    ∧ ∀ k, valuesOf params' k
           = valuesOf params k ++ concat (map (valuesAt k) opts).
Proof.
  induction opts as [|m opts IH]; intros orders params Hr Hok Hne.
  - apply Forall2_nil_inv_l in Hr as ->. exists params.
    repeat split; [done|]. intros k. by rewrite app_nil_r.
  - apply Forall2_cons_inv_l in Hr as (order & orders' & Ho & Hr & ->).
    apply rangeOf_options in Ho as (Hnd & Hmap & Hin).
    destruct (optionsToParams_set_ok order params) as (p1 & Hrun1 & Hne1 & Hval1);
      [done| |done|].
    { intros k T Hk%Hin. eapply Hok; [by left|done]. }
    destruct (IH orders' p1) as (p2 & Hrun2 & Hne2 & Hval2); [done| |done|].
    { intros m' k T Hm'. apply Hok. by right. }
    exists p2. cbn [optionsToParams_sets]. rewrite Hrun1.
    repeat split; [done..|]. intros k.
    rewrite Hval2, Hval1, Hmap. cbn [map concat]. by rewrite app_assoc.
Qed.

Lemma optionsToParams_sets_error opts : ∀ orders params e,
  rangesOf opts orders →
  optionsToParams_sets params orders = inl e →
  ∃ m k T, m ∈ opts ∧ m !! k = Some (OptOther T)
           ∧ e = Statusf StatusBadRequest
                   (lit "kivik: invalid type " ++ T ++ lit " for options").
Proof.
  induction opts as [|m opts IH]; intros orders params e Hr.
  - by apply Forall2_nil_inv_l in Hr as ->.
  - apply Forall2_cons_inv_l in Hr as (order & orders' & Ho & Hr & ->).
    apply rangeOf_options in Ho as (Hnd & Hmap & Hin).
    cbn [optionsToParams_sets].
    destruct (optionsToParams_set params order) as [e'|p1] eqn:Hrun.
    + intros [= <-]. apply optionsToParams_set_error in Hrun as (k & T & Hk & He).
      exists m, k, T. split; [by left|]. split; [by apply Hin|done].
    + intros (m' & k & T & Hm' & Hk & He)%IH; [|done].
      exists m', k, T. split; [by right|done].
Qed.

Lemma optionsToParams_set_invalid order : ∀ params k T,
  (k, OptOther T) ∈ order → ∃ e, optionsToParams_set params order = inl e.
Proof.
  induction order as [|[key i] rest IH]; intros params k T Hin.
  - by apply elem_of_nil in Hin.
  - cbn [optionsToParams_set]. destruct (optionValues i) as [e|values] eqn:Hi; [eauto|].
    apply elem_of_cons in Hin as [[= <- <-]|Hin]; [done|]. eauto.
Qed.

Lemma optionsToParams_sets_invalid opts : ∀ orders params m k T,
  rangesOf opts orders → m ∈ opts → m !! k = Some (OptOther T) →
  ∃ e, optionsToParams_sets params orders = inl e.
Proof.
  induction opts as [|m0 opts IH]; intros orders params m k T Hr Hm Hk.
  - by apply elem_of_nil in Hm.
  - apply Forall2_cons_inv_l in Hr as (order & orders' & Ho & Hr & ->).
    apply rangeOf_options in Ho as (Hnd & Hmap & Hin).
    cbn [optionsToParams_sets].
    destruct (optionsToParams_set params order) as [e'|p1] eqn:Hrun; [eauto|].
    apply elem_of_cons in Hm as [->|Hm].
    + apply Hin in Hk.
      destruct (optionsToParams_set_invalid order params k T Hk) as [e He]. congruence.
    + eauto.
Qed.

(** ** strings.Trim *)

Lemma TrimLeft_head s cutset :
  match TrimLeft s cutset with
  | [] => True
  | c :: _ => existsb (beq c) cutset = false
  end.
Proof.
  induction s as [|c r IH]; [done|]. cbn [TrimLeft].
  by destruct (existsb (beq c) cutset) eqn:Hc.
Qed.

Lemma TrimLeft_suffix s cutset : TrimLeft s cutset `suffix_of` s.
Proof.
  induction s as [|c r IH]; [done|]. cbn [TrimLeft].
  destruct (existsb (beq c) cutset); [by apply suffix_cons_r|done].
Qed.

Lemma TrimLeft_id s cutset :
  match s with [] => True | c :: _ => existsb (beq c) cutset = false end →
  TrimLeft s cutset = s.
Proof. destruct s as [|c r]; [done|]. cbn [TrimLeft]. by intros ->. Qed.

Lemma TrimLeft_last s cutset :
  TrimLeft s cutset ≠ [] → last (TrimLeft s cutset) = last s.
Proof.
  intros Hne. destruct (TrimLeft_suffix s cutset) as [pre Hs].
  rewrite Hs at 2. rewrite last_app.
  destruct (last (TrimLeft s cutset)) eqn:Hl; [done|].
  by apply last_None in Hl.
Qed.

Lemma head_trimmed s cutset :
  match s with [] => True | c :: _ => existsb (beq c) cutset = false end
  ↔ match head s with None => True | Some c => existsb (beq c) cutset = false end.
Proof. by destruct s. Qed.

Lemma TrimRight_last s cutset :
  match last (TrimRight s cutset) with
  | None => True
  | Some c => existsb (beq c) cutset = false
  end.
Proof.
  unfold TrimRight. rewrite last_reverse. apply head_trimmed, TrimLeft_head.
Qed.

Lemma TrimRight_id s cutset :
  match last s with None => True | Some c => existsb (beq c) cutset = false end →
  TrimRight s cutset = s.
Proof.
  intros H. unfold TrimRight. rewrite TrimLeft_id; [apply reverse_involutive|].
  apply head_trimmed. by rewrite head_reverse.
Qed.

Lemma Trim_trimmed s cutset : trimmed (Trim s cutset) cutset.
Proof.
  unfold trimmed, Trim. split; [apply TrimLeft_head|].
  destruct (decide (TrimLeft (TrimRight s cutset) cutset = [])) as [->|Hne]; [done|].
  rewrite TrimLeft_last by done. apply TrimRight_last.
Qed.

Lemma Trim_id s cutset : trimmed s cutset → Trim s cutset = s.
Proof.
  intros [Hh Hl]. unfold Trim. rewrite TrimRight_id by done. by apply TrimLeft_id.
Qed.

Lemma TrimRight_snoc s c cutset :
  existsb (beq c) cutset = true → TrimRight (s ++ [c]) cutset = TrimRight s cutset.
Proof.
  intros Hc. unfold TrimRight. rewrite reverse_snoc. cbn [TrimLeft]. by rewrite Hc.
Qed.

(** Quoting a text once more does not change what [Trim] makes of it. *)
Lemma Trim_quoted s c cutset :
  existsb (beq c) cutset = true →
  Trim ([c] ++ s ++ [c]) cutset = Trim s cutset.
Proof.
  intros Hc. unfold Trim.
  replace ([c] ++ s ++ [c]) with ((c :: s) ++ [c]) by done.
  rewrite TrimRight_snoc by done.
  unfold TrimRight. rewrite reverse_cons.
  destruct (TrimLeft (reverse s) cutset) as [|x l] eqn:Hs.
  - assert (TrimLeft (reverse s ++ [c]) cutset = []) as ->.
    { revert Hs. induction (reverse s) as [|y r IH]; cbn [TrimLeft app].
      - by rewrite Hc.
      - destruct (existsb (beq y) cutset); [done|discriminate]. }
    done.
  - assert (TrimLeft (reverse s ++ [c]) cutset = (x :: l) ++ [c]) as ->.
    { revert Hs. induction (reverse s) as [|y r IH]; cbn [TrimLeft app]; [done|].
      destruct (existsb (beq y) cutset); [done|]. by intros [= -> ->]. }
    rewrite reverse_app, reverse_singleton. cbn [app TrimLeft]. by rewrite Hc.
Qed.

(** ** fixPath *)

Lemma SplitN2_head s sep :
  ∃ a l, SplitN2 s sep = a :: l ∧ (sep ∉ a)
         ∧ (sep ∉ s → a = s).
Proof.
  induction s as [|c r (a & l & Hs & Ha & Hid)]; cbn [SplitN2].
  - exists [], []. split; [done|]. split; [|done]. by intros ?%elem_of_nil.
  - destruct (beq c sep) eqn:Hc.
    + exists [], [r]. split; [done|]. split; [by intros ?%elem_of_nil|].
      apply Ascii.eqb_eq in Hc as ->. intros Hr. exfalso. apply Hr. by left.
    + rewrite Hs. exists (c :: a), l. split; [done|]. split.
      * intros [->|?]%elem_of_cons; [|done]. unfold beq in Hc.
        by rewrite Ascii.eqb_refl in Hc.
      * intros Hr. f_equal. apply Hid. intros ?. apply Hr. by right.
Qed.

Lemma TrimPrefix_suffix s prefix : TrimPrefix s prefix `suffix_of` s.
Proof.
  unfold TrimPrefix. destruct (HasPrefix s prefix); [apply suffix_drop|done].
Qed.

(** ** url.Values.Encode *)

Lemma escapeByte_escaped c : forallb escapedByte (escapeByte c) = true.
Proof. destruct c as [[] [] [] [] [] [] [] []]; vm_compute; reflexivity. Qed.

Lemma QueryEscape_escaped s : Forall (λ c, escapedByte c = true) (QueryEscape s).
Proof.
  induction s as [|c r IH]; [constructor|].
  unfold QueryEscape. cbn [flat_map]. apply Forall_app. split; [|done].
  apply Forall_forall. intros x Hx.
  pose proof (escapeByte_escaped c) as H. rewrite forallb_forall in H.
  apply H. by apply list_elem_of_In.
Qed.

(** Appending pairs to the buffer, as the loops of [Encode] do. *)
Lemma encodeValues_pairs keyEscaped vs : ∀ buf,
  encodeValues keyEscaped vs buf
  = foldl (λ buf p, (if (0 <? length buf)%nat then buf ++ ["&"] else buf) ++ p) buf
      (map (λ x, keyEscaped ++ lit "=" ++ QueryEscape x) vs).
Proof.
  unfold encodeValues. induction vs as [|v vs IH]; intros buf; [done|].
  cbn [foldl map]. by rewrite IH.
Qed.

Lemma appendPairs_nonempty ps : ∀ buf,
  buf ≠ [] →
  foldl (λ buf p, (if (0 <? length buf)%nat then buf ++ ["&"] else buf) ++ p) buf ps
  = buf ++ concat (map (λ p, "&" :: p) ps).
Proof.
  induction ps as [|p ps IH]; intros buf Hb; cbn [foldl map concat].
  - by rewrite app_nil_r.
  - destruct buf as [|b buf]; [done|]. cbn [length Nat.ltb Nat.leb].
    rewrite IH by done. list_norm. done.
Qed.

Lemma joinWith_concat ps : ∀ p,
  p ++ concat (map (λ p, "&" :: p) ps) = joinWith ["&"] (p :: ps).
Proof.
  induction ps as [|q ps IH]; intros p.
  - cbn [map concat joinWith]. by rewrite app_nil_r.
  - change (joinWith ["&"] (p :: q :: ps)) with (p ++ ["&"] ++ joinWith ["&"] (q :: ps)).
    rewrite <-IH. done.
Qed.

Lemma appendPairs_join ps :
  Forall (λ p, p ≠ []) ps →
  foldl (λ buf p, (if (0 <? length buf)%nat then buf ++ ["&"] else buf) ++ p) [] ps
  = joinWith ["&"] ps.
Proof.
  destruct 1 as [|p ps Hp Hps]; [done|].
  cbn [foldl length Nat.ltb Nat.leb app]. rewrite appendPairs_nonempty by done.
  apply joinWith_concat.
Qed.

Lemma Values_Encode_pairs (v : Values) :
  Values_Encode v = joinWith ["&"] (queryPairs v).
Proof.
  unfold Values_Encode, queryPairs.
  rewrite <-appendPairs_join.
  - assert (∀ (l : list (string * list bytes)) buf,
              foldl (λ buf '(k, vs), encodeValues (QueryEscape (lit k)) vs buf) buf l
              = foldl (λ buf p,
                         (if (0 <? length buf)%nat then buf ++ ["&"] else buf) ++ p)
                  buf
                  (flat_map
                     (λ '(k, vs),
                        map (λ x, QueryEscape (lit k) ++ lit "=" ++ QueryEscape x) vs)
                     l)) as H; [|apply H].
    induction l as [|[k vs] l IH]; intros buf; [done|].
    cbn [foldl flat_map]. rewrite foldl_app, IH. f_equal.
    apply encodeValues_pairs.
  - apply Forall_forall. intros p Hp. apply list_elem_of_In, in_flat_map in Hp
      as ([k vs] & _ & Hp). apply in_map_iff in Hp as (x & <- & _).
    intros H. by apply app_eq_nil in H as [_ [=]].
Qed.

Lemma joinWith_Forall (P : byte → Prop) sep l :
  Forall P sep → Forall (Forall P) l → Forall P (joinWith sep l).
Proof.
  intros Hsep. induction 1 as [|x l Hx Hl IH]; [constructor|].
  destruct l as [|y l']; [done|].
  change (Forall P (x ++ sep ++ joinWith sep (y :: l'))).
  rewrite !Forall_app. auto.
Qed.

Lemma Values_Encode_bytes (v : Values) :
  Forall (λ c, queryByte c = true) (Values_Encode v).
Proof.
  rewrite Values_Encode_pairs. apply joinWith_Forall.
  - by repeat constructor.
  - apply Forall_forall. intros p Hp. unfold queryPairs in Hp.
    apply list_elem_of_In, in_flat_map in Hp as ([k vs] & _ & Hp).
    apply in_map_iff in Hp as (x & <- & _).
    assert (∀ s, Forall (λ c, queryByte c = true) (QueryEscape s)) as Hq.
    { intros s. eapply Forall_impl; [apply QueryEscape_escaped|].
      intros c Hc. unfold queryByte. by rewrite Hc. }
    rewrite !Forall_app. split; [apply Hq|]. split; [by repeat constructor|apply Hq].
Qed.

(** Escaping loses nothing: the escaped text determines the text. *)
Lemma escapeByte_inj c c' r r' :
  escapeByte c ++ r = escapeByte c' ++ r' → c = c' ∧ r = r'.
Proof.
  pose (unhex := λ h : byte,
          if between "0" "9" h then (code h - code "0")%Z
          else (code h - code "A" + 10)%Z).
  pose (back := λ l : bytes,
          match l with
          | "+" :: t => Some (" ", t)
          | "%" :: h :: l' :: t => Some (chr (16 * unhex h + unhex l'), t)
          | x :: t => Some (x, t)
          | [] => None
          end).
  assert (∀ x t, back (escapeByte x ++ t) = Some (x, t)) as Hback.
  { intros x t. destruct x as [[] [] [] [] [] [] [] []]; reflexivity. }
  intros H. apply (f_equal back) in H. rewrite !Hback in H. by injection H.
Qed.

Lemma escapeByte_nonempty c : escapeByte c ≠ [].
Proof. unfold escapeByte. by repeat case_match. Qed.

Lemma QueryEscape_inj a : ∀ b, QueryEscape a = QueryEscape b → a = b.
Proof.
  unfold QueryEscape.
  induction a as [|c a IH]; intros [|c' b]; cbn [flat_map]; [done| | |].
  - intros H. symmetry in H. apply app_eq_nil in H as [H _].
    by apply escapeByte_nonempty in H.
  - intros H. apply app_eq_nil in H as [H _]. by apply escapeByte_nonempty in H.
  - intros [-> H]%escapeByte_inj. f_equal. by apply IH.
Qed.

Lemma escapeByte_head c r : ∃ x t, escapeByte c ++ r = x :: t ∧ escapedByte x = true.
Proof.
  pose proof (escapeByte_escaped c) as H.
  destruct (escapeByte c) as [|x t] eqn:Hc; [by apply escapeByte_nonempty in Hc|].
  exists x, (t ++ r). split; [done|]. cbn [forallb] in H. by apply andb_prop in H as [].
Qed.

Lemma queryKey_inj k : ∀ k' r r',
  QueryEscape k ++ "=" :: r = QueryEscape k' ++ "=" :: r' → k = k' ∧ r = r'.
Proof.
  unfold QueryEscape.
  induction k as [|c k IH]; intros [|c' k'] r r'; cbn [flat_map app].
  - by intros [= ->].
  - rewrite <-app_assoc.
    destruct (escapeByte_head c' (flat_map escapeByte k' ++ "=" :: r'))
      as (x & t & -> & Hx).
    intros [= <- _]. done.
  - rewrite <-app_assoc.
    destruct (escapeByte_head c (flat_map escapeByte k ++ "=" :: r))
      as (x & t & -> & Hx).
    intros [= -> _]. done.
  - rewrite <-!app_assoc. intros [-> H]%escapeByte_inj.
    apply IH in H as [-> ->]. done.
Qed.

(** ** DecodeJSON *)

Lemma readValue_loop_error whole buf : ∀ s n e,
  scanErrSyntax s →
  readValue_loop whole s buf n = inl e →
  e = EOF ∨ e = ErrUnexpectedEOF ∨ ∃ c context, e = SyntaxError c context.
Proof.
  induction buf as [|c buf IH]; intros s n e Hs; cbn [readValue_loop].
  - destruct (snd (scanStep s " ")); try done;
      destruct (nonSpace whole); intros [= <-]; auto.
  - pose proof (scanStep_err s c Hs) as Hs1.
    destruct (scanStep s c) as [s1 v]. cbn [fst] in Hs1.
    destruct v; try (by apply IH); try done.
    + pose proof (do_stateEndValue_err s1 " " Hs1) as Hs2.
      destruct (do_stateEndValue s1 " ") as [s2 v2]. cbn [fst] in Hs2.
      destruct v2; try (by apply IH); done.
    + pose proof (do_stateEndValue_err s1 " " Hs1) as Hs2.
      destruct (do_stateEndValue s1 " ") as [s2 v2]. cbn [fst] in Hs2.
      destruct v2; try (by apply IH); done.
    + unfold scanErrSyntax in Hs1. intros [= <-].
      destruct (scan_err s1) as [[]|]; try done; cbn [from_option id]; eauto.
Qed.

Lemma nonSpace_allSpace b : nonSpace b = negb (allSpace b).
Proof.
  induction b as [|c b IH]; [done|]. cbn [nonSpace allSpace existsb forallb].
  fold (nonSpace b). fold (allSpace b). rewrite IH. by destruct (isSpace c).
Qed.

Lemma readValue_allSpace body : allSpace body = true → readValue body = inl EOF.
Proof.
  intros Hb. unfold readValue.
  rewrite <-(app_nil_r body) at 2. rewrite readValue_loop_spaces by done.
  cbn [readValue_loop]. rewrite nonSpace_allSpace, Hb. done.
Qed.

Lemma Decode_top {A} (um : bytes → error + A) body :
  fst (Decode um (NewDecoder body))
  = match readValue body with
    | inl e => inl e
    | inr n => um (take n body)
    end.
Proof.
  unfold Decode, NewDecoder.
  cbn [dec_err tokenPrepareForDecode tokenState tokenValueAllowed negb dec_buf].
  by destruct (readValue body).
Qed.

(** ** CreateDoc *)

Lemma optionsToParams_paramsOf (options : OptionSet) order :
  order ≡ₚ map_to_list options →
  (∀ k T, options !! k ≠ Some (OptOther T)) →
  optionsToParams [order] = inr (paramsOf options).
Proof.
  intros Ho Hok.
  destruct (optionsToParams_sets_ok [options] [order] ∅) as (params & Hrun & Hne & Hval).
  { constructor; [done|constructor]. }
  { intros m k T ->%list_elem_of_singleton. apply Hok. }
  { intros k. by rewrite lookup_empty. }
  unfold optionsToParams. rewrite Hrun. f_equal. apply map_eq. intros k.
  specialize (Hval k). specialize (Hne k). unfold valuesOf in Hval.
  rewrite lookup_empty in Hval. cbn [from_option app map concat] in Hval.
  rewrite app_nil_r in Hval. unfold paramsOf. rewrite lookup_omap.
  unfold valuesAt in Hval.
  destruct (options !! k) as [i|]; cbn [mbind option_bind].
  - destruct (optionValues i) as [e|[|v vs]];
      destruct (params !! k) as [[|x l]|]; cbn [from_option id] in Hval; congruence.
  - destruct (params !! k) as [[|x l]|]; cbn [from_option id] in Hval; congruence.
Qed.

(** ** The rewriter on its own output *)

(** A member without the space around its tokens. *)
Lemma compactMember_text m :
  memberText (mkMember [] (m_key m) [] [] (m_val m) []) = compactMember m.
Proof.
  unfold memberText, compactMember. cbn [m_pre m_key m_mid m_post m_val m_end].
  list_norm. by rewrite app_nil_r.
Qed.

Lemma compactObject_text ms :
  let ms' := map (λ m, mkMember [] (m_key m) [] [] (m_val m) []) ms in
  objectText [] [] ms' [] = compactObject ms ∧ compactObject ms' = compactObject ms.
Proof.
  cbn zeta.
  assert (compactMembers (map (λ m, mkMember [] (m_key m) [] [] (m_val m) []) ms)
          = compactMembers ms) as Hc.
  { induction ms as [|m [|m' r] IH]; [done|done|].
    change (map ?f (m :: m' :: r)) with (f m :: map f (m' :: r)).
    rewrite compactMembers_cons by done. rewrite IH. done. }
  split.
  - rewrite objectText_compact.
    + unfold compactObject. by rewrite Hc, app_nil_r.
    + apply Forall_forall. intros m (m0 & -> & _)%list_elem_of_fmap. done.
  - unfold compactObject. by rewrite Hc.
Qed.

Lemma copied_compact ms :
  Forall copied ms →
  Forall copied (map (λ m, mkMember [] (m_key m) [] [] (m_val m) []) ms).
Proof.
  intros H. apply Forall_forall. intros m (m0 & -> & Hm0)%list_elem_of_fmap.
  rewrite Forall_forall in H. destruct (H m0 Hm0) as [Hok Hkey].
  split; [|done]. apply memberOK_inv in Hok as (_ & Hk & _ & _ & Hv & _).
  unfold memberOK. cbn [m_pre m_key m_mid m_post m_val m_end allSpace forallb].
  by rewrite Hk, Hv.
Qed.

(** ** The document part of a failed upload *)

Lemma extractFields_panics fields h :
  extractFields fields h = Panics
  ↔ match find (λ f, bool_decide (f_tag f = attachmentsKey)) fields with
    | Some f =>
        f_exported f
        && match f_value f with GoAttachmentsPtr None => false | _ => true end
    | None => true
    end = false.
Proof.
  induction fields as [|f rest IH]; cbn [extractFields find]; [done|].
  destruct (decide (f_tag f = attachmentsKey)) as [Hf|Hf].
  - rewrite bool_decide_eq_true_2 by done.
    destruct (f_exported f); [|done]. cbn [andb].
    unfold interfaceToAttachments. destruct (f_value f) as [t|[p|]|]; try done.
    by destruct (moveEntries _ _ _).
  - by rewrite bool_decide_eq_false_2.
Qed.

(** ** The encoder writes valid JSON *)

Lemma checkValid_loop_app s a : ∀ b,
  checkValid_loop s (a ++ b) = checkValid_loop s a ≫= λ s', checkValid_loop s' b.
Proof.
  revert s. induction a as [|c a IH]; intros s b; [done|].
  cbn [app checkValid_loop]. destruct (scanStep s c) as [s1 v].
  destruct v; try apply IH. done.
Qed.

Lemma beq_code_ne (a b : byte) : code a ≠ code b → beq a b = false.
Proof.
  intros H. unfold beq. destruct (Ascii.eqb a b) eqn:Hab; [|done].
  apply Ascii.eqb_eq in Hab. by subst.
Qed.

(** Inside a string literal the scanner passes over every byte from 128 on. *)
Lemma checkValid_loop_high ps err et l :
  Forall (λ x, (128 ≤ code x)%Z) l →
  checkValid_loop (mkScanner stateInString ps err et) l
  = Some (mkScanner stateInString ps err et).
Proof.
  induction 1 as [|c l Hc Hl IH]; [done|].
  cbn [checkValid_loop]. unfold scanStep. cbn [step]. unfold do_stateInString.
  rewrite (beq_code_ne c dquote), (beq_code_ne c backslash)
    by (change (code dquote) with 34%Z; change (code backslash) with 92%Z; lia).
  assert ((code c <? 32)%Z = false) as -> by (apply Z.ltb_ge; lia).
  apply IH.
Qed.

(** The bytes of a well-formed sequence of more than one byte are all from
    128 on. *)
Lemma DecodeRune_high b rest c size :
  (128 ≤ code b)%Z → DecodeRune (b :: rest) = (c, size) →
  (c = RuneError ∧ size = 1%nat)
  ∨ Forall (λ x, (128 ≤ code x)%Z) (take size (b :: rest)).
Proof.
  intros Hb. unfold DecodeRune.
  assert ((code b <? 128)%Z = false) as -> by (apply Z.ltb_ge; lia).
  destruct (utf8_first (code b)) as [[[sz lo] hi]|] eqn:Hf; [|intros [= <- <-]; by left].
  assert (128 ≤ lo)%Z as Hlo.
  { revert Hf. unfold utf8_first. repeat case_match; intros [= <- <- <-]; lia. }
  destruct (length (b :: rest) <? sz)%nat; [intros [= <- <-]; by left|].
  destruct rest as [|c1 p2]; [intros [= <- <-]; by left|].
  destruct ((code c1 <? lo)%Z || (hi <? code c1)%Z) eqn:H1; [intros [= <- <-]; by left|].
  apply orb_false_iff in H1 as [H1%Z.ltb_ge _].
  destruct (sz <=? 2)%nat.
  { intros [= <- <-]. right. cbn [take]. repeat constructor; lia. }
  destruct p2 as [|c2 p3]; [intros [= <- <-]; by left|].
  destruct (isCont (code c2)) eqn:H2; cbn [negb]; [|intros [= <- <-]; by left].
  apply andb_true_iff in H2 as [H2%Z.leb_le _].
  destruct (sz <=? 3)%nat.
  { intros [= <- <-]. right. cbn [take]. repeat constructor; lia. }
  destruct p3 as [|c3 p4]; [intros [= <- <-]; by left|].
  destruct (isCont (code c3)) eqn:H3; cbn [negb]; [|intros [= <- <-]; by left].
  apply andb_true_iff in H3 as [H3%Z.leb_le _].
  intros [= <- <-]. right. cbn [take]. repeat constructor; lia.
Qed.

(** What one turn of the string encoder writes keeps the scanner inside the
    string literal. *)
Lemma encodeString_one_scans ps err et b rest :
  checkValid_loop (mkScanner stateInString ps err et)
    (fst (encodeString_one (b :: rest)))
  = Some (mkScanner stateInString ps err et).
Proof.
  destruct (code b <? 128)%Z eqn:Hb.
  - destruct b as [b0 b1 b2 b3 b4 b5 b6 b7].
    destruct b7; destruct b0, b1, b2, b3, b4, b5, b6;
      first [reflexivity | by vm_compute in Hb].
  - unfold encodeString_one. rewrite Hb. apply Z.ltb_ge in Hb.
    destruct (DecodeRune (b :: rest)) as [c size] eqn:Hd.
    destruct ((c =? RuneError)%Z && (size =? 1)%nat) eqn:He; [reflexivity|].
    destruct (c =? 8232)%Z eqn:H1; [apply Z.eqb_eq in H1 as ->; reflexivity|].
    destruct (c =? 8233)%Z eqn:H2; [apply Z.eqb_eq in H2 as ->; reflexivity|].
    cbn [orb fst].
    destruct (DecodeRune_high b rest c size Hb Hd) as [[-> ->]|Hh].
    + by vm_compute in He.
    + by apply checkValid_loop_high.
Qed.

Lemma encodeString_loop_scans ps err et fuel : ∀ s,
  checkValid_loop (mkScanner stateInString ps err et) (encodeString_loop fuel s)
  = Some (mkScanner stateInString ps err et).
Proof.
  induction fuel as [|fuel IH]; intros s; [by destruct s|].
  destruct s as [|b rest]; [done|]. cbn [encodeString_loop].
  pose proof (encodeString_one_scans ps err et b rest) as H1.
  destruct (encodeString_one (b :: rest)) as [out n]. cbn [fst] in H1.
  rewrite checkValid_loop_app, H1. cbn [mbind option_bind]. apply IH.
Qed.

(** A string literal is scanned as one token, wherever a string may begin. *)
Lemma encodeString_scans st ps err et s :
  st = stateBeginValue ∨ st = stateBeginString ∨ st = stateBeginStringOrEmpty →
  checkValid_loop (mkScanner st ps err et) (encodeString s)
  = Some (mkScanner stateEndValue ps err et).
Proof.
  intros Hst. unfold encodeString. cbn [app checkValid_loop].
  assert (scanStep (mkScanner st ps err et) dquote
          = (mkScanner stateInString ps err et, scanBeginLiteral)) as ->.
  { by destruct Hst as [-> | [-> | ->]]. }
  rewrite checkValid_loop_app, encodeString_loop_scans. done.
Qed.

Lemma encodeScalar_scans p ps err et v :
  checkValid_loop (mkScanner stateBeginValue (p :: ps) err et) (encodeScalar v)
  = Some (mkScanner stateEndValue (p :: ps) err et).
Proof.
  destruct v as [s|[]]; [by apply encodeString_scans; left|done|done].
Qed.

Section EncodeMap.

Context {A : Type} (enc : A → bytes).

Hypothesis enc_scans : ∀ v p ps err et,
  checkValid_loop (mkScanner stateBeginValue (p :: ps) err et) (enc v)
  = Some (mkScanner stateEndValue (p :: ps) err et).

Lemma encodeMembers_scans l : ∀ k v st ps err et,
  st = stateBeginString ∨ st = stateBeginStringOrEmpty →
  checkValid_loop (mkScanner st (parseObjectKey :: ps) err et)
    (joinWith [","]
       (map (λ '(k, v), encodeString (lit k) ++ [":"] ++ enc v) ((k, v) :: l)))
  = Some (mkScanner stateEndValue (parseObjectValue :: ps) err et).
Proof.
  induction l as [|[k' v'] l IH]; intros k v st ps err et Hst.
  - cbn [map joinWith]. rewrite checkValid_loop_app, encodeString_scans by auto.
    cbn [mbind option_bind app checkValid_loop].
    change (scanStep (mkScanner stateEndValue (parseObjectKey :: ps) err et) ":")
      with (mkScanner stateBeginValue (parseObjectValue :: ps) err et, scanObjectKey).
    cbn iota. apply enc_scans.
  - change (joinWith [","] (map ?f ((k, v) :: (k', v') :: l)))
      with ((encodeString (lit k) ++ [":"] ++ enc v)
              ++ [","] ++ joinWith [","] (map f ((k', v') :: l))).
    rewrite !checkValid_loop_app, encodeString_scans by auto.
    cbn [mbind option_bind app checkValid_loop].
    change (scanStep (mkScanner stateEndValue (parseObjectKey :: ps) err et) ":")
      with (mkScanner stateBeginValue (parseObjectValue :: ps) err et, scanObjectKey).
    cbn iota. rewrite enc_scans.
    cbn [mbind option_bind app checkValid_loop].
    change (scanStep (mkScanner stateEndValue (parseObjectValue :: ps) err et) ",")
      with (mkScanner stateBeginString (parseObjectKey :: ps) err et, scanObjectValue).
    cbn iota. apply IH. by left.
Qed.

(** An encoded map is scanned as one value: inside a composite the scanner
    is then after a value, at the top level it has ended. *)
Lemma encodeMap_scans (m : gmap string A) ps err et :
  checkValid_loop (mkScanner stateBeginValue ps err et) (encodeMap enc m)
  = Some (match ps with
          | [] => mkScanner stateEndTop [] err true
          | _ => mkScanner stateEndValue ps err et
          end).
Proof.
  unfold encodeMap. rewrite checkValid_loop_app.
  change (checkValid_loop (mkScanner stateBeginValue ps err et) ["{"])
    with (Some (mkScanner stateBeginStringOrEmpty (parseObjectKey :: ps) err et)).
  cbn [mbind option_bind]. destruct (sortByKey (map_to_list m)) as [|[k v] l].
  - cbn [map joinWith app checkValid_loop]. by destruct ps.
  - rewrite checkValid_loop_app, encodeMembers_scans by auto.
    cbn [mbind option_bind checkValid_loop]. by destruct ps.
Qed.

End EncodeMap.

Lemma Encode_valid att js : Encode att = inr js → Valid js = true.
Proof.
  unfold Encode. destruct att as [m|]; [|by intros [= <-]].
  intros H.
  assert (js = encodeMap (encodeMap encodeScalar) m ++ ["010"]) as -> by congruence.
  clear H. unfold Valid, scanner_reset. rewrite checkValid_loop_app.
  rewrite (encodeMap_scans (encodeMap encodeScalar)).
  - done.
  - intros v p ps err et. apply (encodeMap_scans encodeScalar).
    intros. apply encodeScalar_scans.
Qed.

(** ** The rewriter on an object text that is cut short *)

Lemma NextToken_comma_eof ws ws' stack :
  allSpace ws = true → allSpace ws' = true →
  fst (NextToken (mkDecoder (ws ++ "," :: ws') None tokenObjectComma stack))
  = inl EOF.
Proof.
  intros Hws Hws'. unfold NextToken. cbn [Token_loop]; unfold Token_body.
  rewrite peek_ws by done.
  assert (beq "," "[" = false ∧ beq "," "]" = false ∧ beq "," "{" = false
          ∧ beq "," "}" = false ∧ beq "," ":" = false ∧ beq "," "," = true)
    as (-> & -> & -> & -> & -> & ->) by done.
  cbn [tokenState]. unfold advance, set_buf, set_tokenState.
  cbn [dec_buf dec_err tokenStack tokenState tail].
  by rewrite peek_eof.
Qed.

(** The members of an object text without the target key, followed by a
    comma or a closing brace: the loop copies them and goes on after the last
    of them. *)
Lemma copy_loop_members_then att x X stack ms : ∀ fuel (first : bool) ws w,
  ms ≠ [] → Forall copied ms → x = "," ∨ x = "}" → allSpace ws = true →
  ∃ ws', allSpace ws' = true
    ∧ copy_loop (length ms + fuel) att
        (mkDecoder (ws ++ (if first then [] else [","]) ++ membersText ms ++ x :: X)
           None (if first then tokenObjectStart else tokenObjectComma) stack)
        first w
      = copy_loop fuel att (mkDecoder (ws' ++ x :: X) None tokenObjectComma stack)
          false (w ++ (if first then [] else [","]) ++ compactMembers ms).
Proof.
  induction ms as [|m r IH]; intros fuel first ws w Hne Hall Hx Hws; [done|].
  apply Forall_cons in Hall as [[Hm Hkey] Hall].
  pose proof Hm as (_ & _ & _ & _ & _ & Hend)%memberOK_inv.
  destruct (decide (r = [])) as [->|Hr].
  - exists (m_end m). split; [done|].
    cbn [membersText compactMembers length Nat.add].
    by rewrite copy_loop_member by auto.
  - rewrite membersText_cons, compactMembers_cons by done.
    replace (ws ++ (if first then [] else [","])
               ++ (memberText m ++ [","] ++ membersText r) ++ x :: X)
      with (ws ++ (if first then [] else [","]) ++ memberText m
              ++ "," :: (membersText r ++ x :: X))
      by (list_norm; done).
    cbn [length Nat.add]. rewrite copy_loop_member by auto.
    replace (m_end m ++ "," :: membersText r ++ x :: X)
      with (m_end m ++ [","] ++ membersText r ++ x :: X) by done.
    destruct (IH fuel false (m_end m)
                (w ++ (if first then [] else [","]) ++ compactMember m))
      as (ws' & Hws' & Hrun); [done..|].
    exists ws'. split; [done|]. rewrite Hrun. f_equal. by list_norm.
Qed.

(** ** Extracting twice *)

Lemma moveEntries_empty : moveEntries (map_to_list (∅ : Attachments)) ∅ ∅ = (∅, ∅).
Proof. apply moveEntries_all. Qed.

Lemma interfaceToAttachments_twice i h entries :
  allocated h i → fieldEntries h i = Some entries →
  ∃ p h' p2 h2,
    interfaceToAttachments i h = Returns (Some p, true, h')
    ∧ interfaceToAttachments i h' = Returns (Some p2, true, h2)
    ∧ resultEntries h2 (Some p2) = ∅
    ∧ resultEntries h2 (Some p) = entries.
Proof.
  destruct i as [t|[t|]|]; cbn [allocated fieldEntries]; try done.
  - intros Halloc [= <-].
    set (l := fresh (dom (h_maps h))). set (p := fresh (dom (h_vars h))).
    assert (h_maps h !! l = None) as Hl by (apply not_elem_of_dom, is_fresh).
    assert (h_vars h !! p = None) as Hp by (apply not_elem_of_dom, is_fresh).
    set (maps1 := match t with Some lt => <[lt := ∅]> (h_maps h) | None => h_maps h end).
    set (h' := {| h_maps := <[l := mapEntries h t]> maps1;
                  h_vars := <[p := Some l]> (h_vars h) |}).
    assert (interfaceToAttachments (GoAttachments t) h = Returns (Some p, true, h'))
      as H1.
    { cbn [interfaceToAttachments]. by rewrite moveEntries_all. }
    assert (t ≠ Some l) as Htl.
    { intros ->. destruct Halloc as [x Hx]. congruence. }
    assert (mapEntries h' t = ∅) as Hempty.
    { destruct t as [lt|]; [|done]. unfold mapEntries, h', maps1. cbn [h_maps].
      rewrite lookup_insert_ne by congruence. by rewrite lookup_insert_eq. }
    set (l2 := fresh (dom (h_maps h'))). set (p2 := fresh (dom (h_vars h'))).
    assert (h_maps h' !! l2 = None) as Hl2 by (apply not_elem_of_dom, is_fresh).
    assert (h_vars h' !! p2 = None) as Hp2 by (apply not_elem_of_dom, is_fresh).
    assert (h_maps h' !! l = Some (mapEntries h t)) as Hl'
      by (unfold h'; cbn [h_maps]; apply lookup_insert_eq).
    assert (h_vars h' !! p = Some (Some l)) as Hp'
      by (unfold h'; cbn [h_vars]; apply lookup_insert_eq).
    set (maps2 := match t with Some lt => <[lt := ∅]> (h_maps h') | None => h_maps h' end).
    set (h2 := {| h_maps := <[l2 := ∅]> maps2;
                  h_vars := <[p2 := Some l2]> (h_vars h') |}).
    assert (interfaceToAttachments (GoAttachments t) h' = Returns (Some p2, true, h2))
      as H2.
    { cbn [interfaceToAttachments]. by rewrite Hempty, moveEntries_empty. }
    exists p, h', p2, h2. split; [done|]. split; [done|]. split.
    + unfold resultEntries, varEntries, h2. cbn [h_vars h_maps mapEntries].
      rewrite lookup_insert_eq. cbn [from_option id mapEntries h_maps].
      by rewrite lookup_insert_eq.
    + unfold resultEntries, varEntries, h2. cbn [h_vars h_maps mapEntries].
      rewrite lookup_insert_ne by congruence. rewrite Hp'.
      cbn [from_option id mapEntries h_maps].
      rewrite lookup_insert_ne by congruence. unfold maps2.
      destruct t as [lt|].
      * rewrite lookup_insert_ne by congruence. by rewrite Hl'.
      * by rewrite Hl'.
  - intros (v & Hv & Hvalloc) [= <-].
    set (p := fresh (dom (h_vars h))).
    assert (h_vars h !! p = None) as Hp by (apply not_elem_of_dom, is_fresh).
    assert (t ≠ p) as Hne by congruence.
    set (h' := {| h_maps := h_maps h;
                  h_vars := <[t := None]> (<[p := default None (h_vars h !! t)]> (h_vars h)) |}).
    set (p2 := fresh (dom (h_vars h'))).
    assert (h_vars h' !! p2 = None) as Hp2 by (apply not_elem_of_dom, is_fresh).
    assert (h_vars h' !! t = Some None) as Ht'
      by (unfold h'; cbn [h_vars]; apply lookup_insert_eq).
    assert (h_vars h' !! p = Some v) as Hp'.
    { unfold h'. cbn [h_vars]. rewrite lookup_insert_ne by done.
      by rewrite lookup_insert_eq, Hv. }
    set (h2 := {| h_maps := h_maps h';
                  h_vars := <[t := None]> (<[p2 := default None (h_vars h' !! t)]> (h_vars h')) |}).
    exists p, h', p2, h2. split; [done|]. split; [done|]. split.
    + unfold resultEntries, varEntries, h2. cbn [h_vars].
      rewrite lookup_insert_ne by congruence. rewrite lookup_insert_eq.
      by rewrite Ht'.
    + unfold resultEntries, varEntries, h2. cbn [h_vars].
      rewrite lookup_insert_ne by congruence.
      rewrite lookup_insert_ne by congruence. rewrite Hp'.
      unfold varEntries. by rewrite Hv.
Qed.

(** ** UTF-8: encoding a decoded rune gives back its bytes *)

Lemma land_shiftl_low a k y :
  (0 ≤ k)%Z → (0 ≤ y < 2 ^ k)%Z → Z.land (Z.shiftl a k) y = 0%Z.
Proof.
  intros Hk Hy. apply Z.bits_inj'. intros n Hn.
  rewrite Z.land_spec, Z.bits_0.
  destruct (Z.lt_ge_cases n k) as [Hlt|Hge].
  - by rewrite Z.shiftl_spec_low.
  - destruct (decide (y = 0%Z)) as [->|Hy0].
    + by rewrite Z.bits_0, andb_false_r.
    + rewrite (Z.bits_above_log2 y n), andb_false_r; [done|lia|].
      apply Z.log2_lt_pow2; [lia|].
      apply Z.lt_le_trans with (2 ^ k)%Z; [lia|].
      apply Z.pow_le_mono_r; lia.
Qed.

Lemma lor_shiftl_low a k y :
  (0 ≤ k)%Z → (0 ≤ y < 2 ^ k)%Z → Z.lor (Z.shiftl a k) y = (a * 2 ^ k + y)%Z.
Proof.
  intros Hk Hy. pose proof (Z.add_lor_land (Z.shiftl a k) y) as H.
  rewrite land_shiftl_low in H by done. rewrite Z.add_0_r in H. rewrite H.
  by rewrite Z.shiftl_mul_pow2.
Qed.

Lemma chr_code c : chr (code c) = c.
Proof. unfold chr, code. by rewrite N2Z.id, ascii_N_embedding. Qed.

Lemma code_range c : (0 ≤ code c < 256)%Z.
Proof.
  unfold code. pose proof (N_ascii_bounded c). lia.
Qed.

Lemma utf8_first_inv p0 sz lo hi :
  utf8_first p0 = Some (sz, lo, hi) →
  (128 ≤ lo)%Z ∧ (hi ≤ 191)%Z
  ∧ ((sz = 2%nat ∧ (194 ≤ p0 ≤ 223)%Z)
     ∨ (sz = 3%nat ∧ (224 ≤ p0 ≤ 239)%Z
        ∧ (p0 = 224 → lo = 160)%Z ∧ (p0 = 237 → hi = 159)%Z)
     ∨ (sz = 4%nat ∧ (240 ≤ p0 ≤ 244)%Z
        ∧ (p0 = 240 → lo = 144)%Z ∧ (p0 = 244 → hi = 143)%Z)).
Proof.
  unfold utf8_first.
  repeat match goal with
         | |- context [if ?b then _ else _] => destruct b eqn:?
         end; intros [= <- <- <-]; (split; [lia|]); (split; [lia|]);
    repeat match goal with
           | H : (_ <? _)%Z = true |- _ => apply Z.ltb_lt in H
           | H : (_ <? _)%Z = false |- _ => apply Z.ltb_ge in H
           | H : (_ <=? _)%Z = true |- _ => apply Z.leb_le in H
           | H : (_ <=? _)%Z = false |- _ => apply Z.leb_gt in H
           | H : (_ =? _)%Z = true |- _ => apply Z.eqb_eq in H
           | H : (_ =? _)%Z = false |- _ => apply Z.eqb_neq in H
           end; first [left; lia | right; left; lia | right; right; lia].
Qed.

Lemma rune2 p0 b1 :
  (192 ≤ p0 ≤ 223)%Z → (128 ≤ b1 ≤ 191)%Z →
  Z.lor (Z.shiftl (Z.land p0 31) 6) (Z.land b1 63)
  = ((p0 - 192) * 64 + (b1 - 128))%Z.
Proof.
  intros H0 H1.
  change 31%Z with (Z.ones 5). change 63%Z with (Z.ones 6).
  rewrite !Z.land_ones by lia.
  rewrite lor_shiftl_low by (try lia; apply Z.mod_pos_bound; lia).
  change (2 ^ 5)%Z with 32%Z. change (2 ^ 6)%Z with 64%Z.
  Z.div_mod_to_equations. lia.
Qed.

Lemma rune3 p0 b1 b2 :
  (224 ≤ p0 ≤ 239)%Z → (128 ≤ b1 ≤ 191)%Z → (128 ≤ b2 ≤ 191)%Z →
  Z.lor (Z.lor (Z.shiftl (Z.land p0 15) 12) (Z.shiftl (Z.land b1 63) 6))
        (Z.land b2 63)
  = ((p0 - 224) * 4096 + (b1 - 128) * 64 + (b2 - 128))%Z.
Proof.
  intros H0 H1 H2.
  change 15%Z with (Z.ones 4). change 63%Z with (Z.ones 6).
  rewrite !Z.land_ones by lia.
  change (2 ^ 4)%Z with 16%Z. change (2 ^ 6)%Z with 64%Z.
  assert (p0 mod 16 = p0 - 224)%Z as -> by (Z.div_mod_to_equations; lia).
  assert (b1 mod 64 = b1 - 128)%Z as -> by (Z.div_mod_to_equations; lia).
  assert (b2 mod 64 = b2 - 128)%Z as -> by (Z.div_mod_to_equations; lia).
  rewrite (Z.shiftl_mul_pow2 (b1 - 128) 6) by lia. change (2 ^ 6)%Z with 64%Z.
  rewrite (lor_shiftl_low (p0 - 224) 12) by (change (2 ^ 12)%Z with 4096%Z; lia).
  change (2 ^ 12)%Z with 4096%Z.
  replace ((p0 - 224) * 4096 + (b1 - 128) * 64)%Z
    with (Z.shiftl ((p0 - 224) * 64 + (b1 - 128)) 6)
    by (rewrite Z.shiftl_mul_pow2 by lia; change (2 ^ 6)%Z with 64%Z; lia).
  rewrite lor_shiftl_low by (change (2 ^ 6)%Z with 64%Z; lia).
  rewrite ?Z.shiftl_mul_pow2 by lia.
  change (2 ^ 6)%Z with 64%Z. lia.
Qed.

Lemma rune4 p0 b1 b2 b3 :
  (240 ≤ p0 ≤ 247)%Z → (128 ≤ b1 ≤ 191)%Z → (128 ≤ b2 ≤ 191)%Z →
  (128 ≤ b3 ≤ 191)%Z →
  Z.lor (Z.lor (Z.lor (Z.shiftl (Z.land p0 7) 18) (Z.shiftl (Z.land b1 63) 12))
               (Z.shiftl (Z.land b2 63) 6))
        (Z.land b3 63)
  = ((p0 - 240) * 262144 + (b1 - 128) * 4096 + (b2 - 128) * 64 + (b3 - 128))%Z.
Proof.
  intros H0 H1 H2 H3.
  change 7%Z with (Z.ones 3). change 63%Z with (Z.ones 6).
  rewrite !Z.land_ones by lia.
  change (2 ^ 3)%Z with 8%Z. change (2 ^ 6)%Z with 64%Z.
  assert (p0 mod 8 = p0 - 240)%Z as -> by (Z.div_mod_to_equations; lia).
  assert (b1 mod 64 = b1 - 128)%Z as -> by (Z.div_mod_to_equations; lia).
  assert (b2 mod 64 = b2 - 128)%Z as -> by (Z.div_mod_to_equations; lia).
  assert (b3 mod 64 = b3 - 128)%Z as -> by (Z.div_mod_to_equations; lia).
  rewrite (Z.shiftl_mul_pow2 (b1 - 128) 12) by lia. change (2 ^ 12)%Z with 4096%Z.
  rewrite (Z.shiftl_mul_pow2 (b2 - 128) 6) by lia. change (2 ^ 6)%Z with 64%Z.
  rewrite (lor_shiftl_low (p0 - 240) 18) by (change (2 ^ 18)%Z with 262144%Z; lia).
  change (2 ^ 18)%Z with 262144%Z.
  replace ((p0 - 240) * 262144 + (b1 - 128) * 4096)%Z
    with (Z.shiftl ((p0 - 240) * 64 + (b1 - 128)) 12)
    by (rewrite Z.shiftl_mul_pow2 by lia; change (2 ^ 12)%Z with 4096%Z; lia).
  rewrite lor_shiftl_low by (change (2 ^ 12)%Z with 4096%Z; lia).
  change (2 ^ 12)%Z with 4096%Z.
  replace (((p0 - 240) * 64 + (b1 - 128)) * 4096 + (b2 - 128) * 64)%Z
    with (Z.shiftl (((p0 - 240) * 64 + (b1 - 128)) * 64 + (b2 - 128)) 6)
    by (rewrite Z.shiftl_mul_pow2 by lia; change (2 ^ 6)%Z with 64%Z; lia).
  rewrite lor_shiftl_low by (change (2 ^ 6)%Z with 64%Z; lia).
  rewrite ?Z.shiftl_mul_pow2 by lia.
  change (2 ^ 6)%Z with 64%Z. change (2 ^ 12)%Z with 4096%Z. lia.
Qed.

Lemma lor_lead lead k y :
  (0 ≤ k)%Z → (0 ≤ y < 2 ^ k)%Z → (lead mod 2 ^ k = 0)%Z →
  Z.lor lead y = (lead + y)%Z.
Proof.
  intros Hk Hy Hl.
  assert (lead = Z.shiftl (lead / 2 ^ k) k) as ->.
  { rewrite Z.shiftl_mul_pow2 by done. Z.div_mod_to_equations. nia. }
  rewrite lor_shiftl_low by done. by rewrite Z.shiftl_mul_pow2.
Qed.

Lemma land63 c : Z.land c 63 = (c mod 64)%Z.
Proof. change 63%Z with (Z.ones 6). by rewrite Z.land_ones. Qed.

(** [EncodeRune] on the runes of two, three and four bytes. *)
Lemma EncodeRune2 c :
  (128 ≤ c ≤ 2047)%Z →
  EncodeRune c = [chr (192 + c / 64); chr (128 + c mod 64)].
Proof.
  intros Hc. unfold EncodeRune.
  assert ((c <? 0)%Z = false) as -> by lia.
  assert ((c <=? 127)%Z = false) as -> by lia.
  assert ((c <=? 2047)%Z = true) as -> by lia.
  rewrite land63, Z.shiftr_div_pow2 by lia. change (2 ^ 6)%Z with 64%Z.
  rewrite (lor_lead 192 5) by (done || (change (2 ^ 5)%Z with 32%Z;
                                         Z.div_mod_to_equations; lia)).
  by rewrite (lor_lead 128 6) by (done || (change (2 ^ 6)%Z with 64%Z;
                                             Z.div_mod_to_equations; lia)).
Qed.

Lemma EncodeRune3 c :
  (2048 ≤ c ≤ 65535)%Z → ¬ (55296 ≤ c ≤ 57343)%Z →
  EncodeRune c
  = [chr (224 + c / 4096); chr (128 + (c / 64) mod 64); chr (128 + c mod 64)].
Proof.
  intros Hc Hs. unfold EncodeRune.
  assert ((c <? 0)%Z = false) as -> by lia.
  assert ((c <=? 127)%Z = false) as -> by lia.
  assert ((c <=? 2047)%Z = false) as -> by lia.
  assert ((1114111 <? c)%Z || (55296 <=? c)%Z && (c <=? 57343)%Z = false) as ->.
  { apply orb_false_iff. split; [lia|]. apply andb_false_iff. lia. }
  assert ((c <=? 65535)%Z = true) as -> by lia.
  rewrite !land63, !Z.shiftr_div_pow2 by lia.
  change (2 ^ 6)%Z with 64%Z. change (2 ^ 12)%Z with 4096%Z.
  rewrite (lor_lead 224 4) by (done || (change (2 ^ 4)%Z with 16%Z;
                                         Z.div_mod_to_equations; lia)).
  by rewrite !(lor_lead 128 6) by (done || (change (2 ^ 6)%Z with 64%Z;
                                              Z.div_mod_to_equations; lia)).
Qed.

Lemma EncodeRune4 c :
  (65536 ≤ c ≤ 1114111)%Z →
  EncodeRune c
  = [chr (240 + c / 262144); chr (128 + (c / 4096) mod 64);
     chr (128 + (c / 64) mod 64); chr (128 + c mod 64)].
Proof.
  intros Hc. unfold EncodeRune.
  assert ((c <? 0)%Z = false) as -> by lia.
  assert ((c <=? 127)%Z = false) as -> by lia.
  assert ((c <=? 2047)%Z = false) as -> by lia.
  assert ((1114111 <? c)%Z || (55296 <=? c)%Z && (c <=? 57343)%Z = false) as ->.
  { apply orb_false_iff. split; [lia|]. apply andb_false_iff. lia. }
  assert ((c <=? 65535)%Z = false) as -> by lia.
  rewrite !land63, !Z.shiftr_div_pow2 by lia.
  change (2 ^ 6)%Z with 64%Z. change (2 ^ 12)%Z with 4096%Z.
  change (2 ^ 18)%Z with 262144%Z.
  rewrite (lor_lead 240 3) by (done || (change (2 ^ 3)%Z with 8%Z;
                                         Z.div_mod_to_equations; lia)).
  by rewrite !(lor_lead 128 6) by (done || (change (2 ^ 6)%Z with 64%Z;
                                              Z.div_mod_to_equations; lia)).
Qed.

Lemma EncodeRune1 c0 : (code c0 < 128)%Z → EncodeRune (code c0) = [c0].
Proof.
  intros H. pose proof (code_range c0) as Hr. unfold EncodeRune.
  assert ((code c0 <? 0)%Z = false) as -> by lia.
  assert ((code c0 <=? 127)%Z = true) as -> by lia.
  by rewrite chr_code.
Qed.

(** A well-formed sequence at the head of [p]: encoding the rune it decodes
    to gives back its bytes, and what follows the sequence does not matter
    to the decoding. *)
Lemma DecodeRune_wellformed c0 p1 c n :
  DecodeRune (c0 :: p1) = (c, n) → ¬ (c = RuneError ∧ n = 1%nat) →
  ∃ chunk rest,
    c0 :: p1 = chunk ++ rest ∧ length chunk = n ∧ EncodeRune c = chunk
    ∧ ∀ rest', DecodeRune (chunk ++ rest') = (c, n).
Proof.
  unfold DecodeRune. destruct (code c0 <? 128)%Z eqn:H0.
  { intros [= <- <-] _. exists [c0], p1. apply Z.ltb_lt in H0 as H0'.
    split; [done|]. split; [done|]. split; [by apply EncodeRune1|].
    intros rest'. cbn [app]. by rewrite H0. }
  destruct (utf8_first (code c0)) as [[[sz lo] hi]|] eqn:Hf;
    [|intros [= <- <-] []; done].
  pose proof (utf8_first_inv _ _ _ _ Hf) as (Hlo & Hhi & Hsz).
  destruct (length (c0 :: p1) <? sz)%nat eqn:Hlen; [intros [= <- <-] []; done|].
  destruct p1 as [|c1 p2]; [intros [= <- <-] []; done|].
  destruct ((code c1 <? lo)%Z || (hi <? code c1)%Z) eqn:H1;
    [intros [= <- <-] []; done|].
  apply orb_false_iff in H1 as H1'. destruct H1' as [H1a%Z.ltb_ge H1b%Z.ltb_ge].
  destruct Hsz as [[-> Hp0]|[(-> & Hp0 & Hl3 & Hh3)|(-> & Hp0 & Hl4 & Hh4)]].
  - (* two bytes *)
    cbn [Nat.leb]. intros [= <- <-] _. exists [c0; c1], p2.
    split; [done|]. split; [done|]. split.
    + rewrite rune2 by lia. rewrite EncodeRune2 by lia.
      assert (192 + ((code c0 - 192) * 64 + (code c1 - 128)) / 64 = code c0)%Z
        as -> by (Z.div_mod_to_equations; lia).
      assert (128 + ((code c0 - 192) * 64 + (code c1 - 128)) mod 64 = code c1)%Z
        as -> by (Z.div_mod_to_equations; lia).
      by rewrite !chr_code.
    + intros rest'. cbn [app length Nat.ltb Nat.leb]. by rewrite H0, Hf, H1.
  - (* three bytes *)
    cbn [Nat.leb]. destruct p2 as [|c2 p3]; [intros [= <- <-] []; done|].
    destruct (isCont (code c2)) eqn:H2; cbn [negb]; [|intros [= <- <-] []; done].
    apply andb_true_iff in H2 as H2'. destruct H2' as [H2a%Z.leb_le H2b%Z.leb_le].
    intros [= <- <-] _. exists [c0; c1; c2], p3.
    split; [done|]. split; [done|]. split.
    + rewrite rune3 by lia. rewrite EncodeRune3 by lia.
      assert (224 + ((code c0 - 224) * 4096 + (code c1 - 128) * 64
                     + (code c2 - 128)) / 4096 = code c0)%Z
        as -> by (Z.div_mod_to_equations; lia).
      assert (128 + (((code c0 - 224) * 4096 + (code c1 - 128) * 64
                      + (code c2 - 128)) / 64) mod 64 = code c1)%Z
        as -> by (Z.div_mod_to_equations; lia).
      assert (128 + ((code c0 - 224) * 4096 + (code c1 - 128) * 64
                     + (code c2 - 128)) mod 64 = code c2)%Z
        as -> by (Z.div_mod_to_equations; lia).
      by rewrite !chr_code.
    + intros rest'. cbn [app length Nat.ltb Nat.leb]. rewrite H0, Hf, H1.
      by rewrite H2.
  - (* four bytes *)
    cbn [Nat.leb]. destruct p2 as [|c2 p3]; [intros [= <- <-] []; done|].
    destruct (isCont (code c2)) eqn:H2; cbn [negb]; [|intros [= <- <-] []; done].
    apply andb_true_iff in H2 as H2'. destruct H2' as [H2a%Z.leb_le H2b%Z.leb_le].
    destruct p3 as [|c3 p4]; [intros [= <- <-] []; done|].
    destruct (isCont (code c3)) eqn:H3; cbn [negb]; [|intros [= <- <-] []; done].
    apply andb_true_iff in H3 as H3'. destruct H3' as [H3a%Z.leb_le H3b%Z.leb_le].
    intros [= <- <-] _. exists [c0; c1; c2; c3], p4.
    split; [done|]. split; [done|]. split.
    + rewrite rune4 by lia. rewrite EncodeRune4 by lia.
      assert (240 + ((code c0 - 240) * 262144 + (code c1 - 128) * 4096
                     + (code c2 - 128) * 64 + (code c3 - 128)) / 262144
              = code c0)%Z
        as -> by (Z.div_mod_to_equations; lia).
      assert (128 + (((code c0 - 240) * 262144 + (code c1 - 128) * 4096
                      + (code c2 - 128) * 64 + (code c3 - 128)) / 4096) mod 64
              = code c1)%Z
        as -> by (Z.div_mod_to_equations; lia).
      assert (128 + (((code c0 - 240) * 262144 + (code c1 - 128) * 4096
                      + (code c2 - 128) * 64 + (code c3 - 128)) / 64) mod 64
              = code c2)%Z
        as -> by (Z.div_mod_to_equations; lia).
      assert (128 + ((code c0 - 240) * 262144 + (code c1 - 128) * 4096
                     + (code c2 - 128) * 64 + (code c3 - 128)) mod 64
              = code c3)%Z
        as -> by (Z.div_mod_to_equations; lia).
      by rewrite !chr_code.
    + intros rest'. cbn [app length Nat.ltb Nat.leb]. rewrite H0, Hf, H1.
      by rewrite H2, H3.
Qed.

(** ** Strings survive encoding and decoding *)

(** What one turn of the string encoder writes for a well-formed sequence,
    one turn of the unquoting reads back as that sequence. *)
Lemma encodeString_one_unquote c0 p1 c n :
  DecodeRune (c0 :: p1) = (c, n) →
  (c =? RuneError)%Z && (n =? 1)%nat = false →
  ∃ out, encodeString_one (c0 :: p1) = (out, n) ∧ out ≠ []
         ∧ ∀ X, unquote_one (out ++ X) = Some (take n (c0 :: p1), length out).
Proof.
  intros Hd Herr. destruct (code c0 <? 128)%Z eqn:H0.
  - assert (n = 1%nat) as ->.
    { unfold DecodeRune in Hd. rewrite H0 in Hd. by injection Hd. }
    clear Hd Herr. destruct c0 as [b0 b1 b2 b3 b4 b5 b6 b7].
    destruct b7; destruct b0, b1, b2, b3, b4, b5, b6;
      first [by vm_compute in H0
            | eexists; split; [reflexivity|]; split; [done|]; intros X; reflexivity].
  - destruct (DecodeRune_wellformed c0 p1 c n Hd) as (chunk & rest & Hs & Hlen & Henc & Hdec).
    { intros [-> ->]. by vm_compute in Herr. }
    assert (take n (c0 :: p1) = chunk) as Htake.
    { rewrite Hs, <-Hlen. apply take_app_length. }
    unfold encodeString_one. rewrite H0, Hd, Herr.
    destruct (c =? 8232)%Z eqn:H1.
    { apply Z.eqb_eq in H1 as ->. eexists. split; [reflexivity|]. split; [done|].
      intros X. rewrite Htake, <-Henc. reflexivity. }
    destruct (c =? 8233)%Z eqn:H2.
    { apply Z.eqb_eq in H2 as ->. eexists. split; [reflexivity|]. split; [done|].
      intros X. rewrite Htake, <-Henc. reflexivity. }
    cbn [orb]. exists chunk. rewrite Htake.
    assert (∃ chunk', chunk = c0 :: chunk') as [chunk' ->].
    { destruct chunk as [|x chunk']; [|injection Hs as <-; eauto].
      cbn [length] in Hlen. subst n. unfold DecodeRune in Hd. rewrite H0 in Hd.
      repeat case_match; by injection Hd. }
    split; [done|]. split; [done|]. intros X.
    apply Z.ltb_ge in H0 as H0'.
    unfold unquote_one. cbn [app].
    rewrite (beq_code_ne c0 backslash), (beq_code_ne c0 dquote)
      by (change (code dquote) with 34%Z; change (code backslash) with 92%Z; lia).
    assert ((code c0 <? 32)%Z = false) as -> by lia.
    cbn [orb]. rewrite H0.
    change (c0 :: chunk' ++ X) with ((c0 :: chunk') ++ X). rewrite Hdec.
    by rewrite Henc, Hlen.
Qed.

Lemma encodeString_loop_unquote fuelE : ∀ s fuelV fuelU,
  utf8_Valid_loop fuelV s = true → (length s ≤ fuelE)%nat →
  (length (encodeString_loop fuelE s) ≤ fuelU)%nat →
  unquote_loop fuelU (encodeString_loop fuelE s) = Some s.
Proof.
  induction fuelE as [|fuelE IH]; intros s fuelV fuelU Hv Hlen Hu.
  - destruct s; [by destruct fuelU|simpl in Hlen; lia].
  - destruct s as [|c0 p1]; [by destruct fuelU|].
    destruct fuelV as [|fuelV]; [done|].
    cbn [utf8_Valid_loop] in Hv.
    destruct (DecodeRune (c0 :: p1)) as [c n] eqn:Hd.
    destruct ((c =? RuneError)%Z && (n =? 1)%nat) eqn:Herr; [done|].
    destruct (encodeString_one_unquote c0 p1 c n Hd Herr) as (out & Hone & Hout & Hun).
    pose proof (DecodeRune_width c0 p1) as Hw. rewrite Hd in Hw. cbn [snd] in Hw.
    cbn [encodeString_loop] in Hu |- *. rewrite Hone in Hu |- *.
    destruct out as [|o out]; [done|].
    rewrite length_app in Hu. cbn [length] in Hu.
    destruct fuelU as [|fuelU]; [lia|].
    change ((o :: out) ++ ?X) with (o :: (out ++ X)).
    cbn [unquote_loop].
    change (o :: (out ++ ?X)) with ((o :: out) ++ X).
    rewrite Hun, drop_app_length.
    rewrite (IH (drop n (c0 :: p1)) fuelV fuelU); [by rewrite take_drop|done|..].
    + rewrite length_drop. simpl in *. lia.
    + lia.
Qed.

Lemma unquoteBytes_encodeString s :
  utf8_Valid s = true → unquoteBytes (encodeString s) = Some s.
Proof.
  intros Hv. unfold unquoteBytes, encodeString. cbn [app].
  rewrite rev_app_distr. cbn [rev app]. rewrite rev_involutive.
  replace (beq dquote dquote && beq dquote dquote) with true by done.
  apply (encodeString_loop_unquote _ _ (length s)); [done|done|].
  rewrite length_app. lia.
Qed.

(** ** The decoder reads back what the encoder writes *)

Lemma readValue_loop_high whole ps err et l X : ∀ n,
  Forall (λ x, (128 ≤ code x)%Z) l →
  readValue_loop whole (mkScanner stateInString ps err et) (l ++ X) n
  = readValue_loop whole (mkScanner stateInString ps err et) X (length l + n).
Proof.
  intros n Hl. revert n. induction Hl as [|c l Hc Hl IH]; intros n; [done|].
  cbn [app readValue_loop]. unfold scanStep. cbn [step]. unfold do_stateInString.
  rewrite (beq_code_ne c dquote), (beq_code_ne c backslash)
    by (change (code dquote) with 34%Z; change (code backslash) with 92%Z; lia).
  assert ((code c <? 32)%Z = false) as -> by (apply Z.ltb_ge; lia).
  rewrite IH. f_equal. cbn [length]. lia.
Qed.

Lemma encodeString_one_reads whole ps err et b rest X n :
  readValue_loop whole (mkScanner stateInString ps err et)
    (fst (encodeString_one (b :: rest)) ++ X) n
  = readValue_loop whole (mkScanner stateInString ps err et) X
      (length (fst (encodeString_one (b :: rest))) + n).
Proof.
  destruct (code b <? 128)%Z eqn:Hb.
  - destruct b as [b0 b1 b2 b3 b4 b5 b6 b7].
    destruct b7; destruct b0, b1, b2, b3, b4, b5, b6;
      first [reflexivity | by vm_compute in Hb].
  - unfold encodeString_one. rewrite Hb. apply Z.ltb_ge in Hb.
    destruct (DecodeRune (b :: rest)) as [c size] eqn:Hd.
    destruct ((c =? RuneError)%Z && (size =? 1)%nat) eqn:He; [reflexivity|].
    destruct (c =? 8232)%Z eqn:H1; [apply Z.eqb_eq in H1 as ->; reflexivity|].
    destruct (c =? 8233)%Z eqn:H2; [apply Z.eqb_eq in H2 as ->; reflexivity|].
    cbn [orb fst].
    destruct (DecodeRune_high b rest c size Hb Hd) as [[-> ->]|Hh].
    + by vm_compute in He.
    + by apply readValue_loop_high.
Qed.

Lemma encodeString_loop_reads whole ps err et X fuel : ∀ s n,
  readValue_loop whole (mkScanner stateInString ps err et)
    (encodeString_loop fuel s ++ X) n
  = readValue_loop whole (mkScanner stateInString ps err et) X
      (length (encodeString_loop fuel s) + n).
Proof.
  induction fuel as [|fuel IH]; intros s n; [by destruct s|].
  destruct s as [|b rest]; [done|]. cbn [encodeString_loop].
  pose proof (encodeString_one_reads whole ps err et b rest) as H1.
  destruct (encodeString_one (b :: rest)) as [out k]. cbn [fst] in H1.
  rewrite <-app_assoc, H1, IH. f_equal. rewrite length_app. lia.
Qed.

(** A string literal in the input is scanned to its closing quote. *)
Lemma encodeString_reads whole st ps err et s X n :
  st = stateBeginValue ∨ st = stateBeginString ∨ st = stateBeginStringOrEmpty →
  readValue_loop whole (mkScanner st ps err et) (encodeString s ++ X) n
  = readValue_loop whole (mkScanner stateEndValue ps err et) X
      (length (encodeString s) + n).
Proof.
  intros Hst. unfold encodeString. cbn [app readValue_loop].
  assert (scanStep (mkScanner st ps err et) dquote
          = (mkScanner stateInString ps err et, scanBeginLiteral)) as ->.
  { by destruct Hst as [-> | [-> | ->]]. }
  cbn iota. rewrite <-app_assoc, encodeString_loop_reads.
  cbn [app readValue_loop].
  change (scanStep (mkScanner stateInString ps err et) dquote)
    with (mkScanner stateEndValue ps err et, scanContinue).
  cbn iota. f_equal. cbn [length]. rewrite length_app. cbn [length]. lia.
Qed.

Lemma rawValue_encodeString s : rawValue (encodeString s) = true.
Proof.
  unfold rawValue. apply andb_true_iff. split; [done|].
  apply bool_decide_eq_true. unfold readValue, scanner_reset.
  rewrite <-(app_nil_r (encodeString s)) at 2.
  rewrite encodeString_reads by auto. cbn [readValue_loop].
  change (snd (scanStep (mkScanner stateEndValue [] None false) " ")) with scanEnd.
  cbn iota. f_equal. lia.
Qed.

Lemma readValue_encodeString s c rest :
  readValue (encodeString s ++ c :: rest) = inr (length (encodeString s)).
Proof.
  unfold readValue, scanner_reset. rewrite encodeString_reads by auto.
  cbn [readValue_loop]. unfold scanStep. cbn [step]. unfold do_stateEndValue.
  cbn [parseState]. unfold do_stateEndTop. destruct (negb (isSpace c)); cbn [fst snd].
  - f_equal. lia.
  - f_equal. lia.
Qed.

Lemma Decode_encoded_key name c rest stack :
  utf8_Valid name = true →
  Decode unmarshalString
    (mkDecoder (encodeString name ++ c :: rest) None tokenTopValue stack)
  = (inr name, mkDecoder (c :: rest) None tokenTopValue stack).
Proof.
  intros Hname. unfold Decode. cbn [dec_err tokenPrepareForDecode tokenState].
  cbn [tokenValueAllowed tokenState negb dec_buf].
  rewrite readValue_encodeString, take_app_length, drop_app_length.
  unfold unmarshalString.
  assert (skipSpace (encodeString name) = encodeString name) as -> by done.
  by rewrite unquoteBytes_encodeString.
Qed.

Lemma NextToken_encoded_key (first : bool) name c rest stack :
  utf8_Valid name = true →
  NextToken
    (mkDecoder ((if first then [] else [","]) ++ encodeString name ++ c :: rest)
       None (if first then tokenObjectStart else tokenObjectComma) stack)
  = (inr (TokString name), mkDecoder (c :: rest) None tokenObjectColon stack).
Proof.
  intros Hname.
  assert (∀ fuel st, st = tokenObjectStart ∨ st = tokenObjectKey →
            Token_loop (S fuel) (mkDecoder (encodeString name ++ c :: rest) None st stack)
            = (inr (TokString name), mkDecoder (c :: rest) None tokenObjectColon stack))
    as Hkey.
  { intros fuel st Hst. cbn [Token_loop]; unfold Token_body.
    change (encodeString name ++ c :: rest)
      with ([] ++ dquote :: (encodeString_loop (length name) name ++ [dquote]) ++ c :: rest).
    rewrite peek_ws by done.
    assert (beq dquote "[" = false ∧ beq dquote "]" = false ∧ beq dquote "{" = false
            ∧ beq dquote "}" = false ∧ beq dquote ":" = false
            ∧ beq dquote "," = false ∧ beq dquote dquote = true)
      as (-> & -> & -> & -> & -> & -> & ->) by done.
    change (dquote :: (encodeString_loop (length name) name ++ [dquote]) ++ c :: rest)
      with (encodeString name ++ c :: rest).
    destruct Hst as [-> | ->]; cbn [tokenState andb]; unfold set_tokenState;
      cbn [dec_buf dec_err tokenStack tokenState]; by rewrite Decode_encoded_key. }
  destruct first; cbn [app].
  - unfold NextToken. apply Hkey. by left.
  - unfold NextToken. cbn [Token_loop]; unfold Token_body.
    change ("," :: encodeString name ++ c :: rest)
      with ([] ++ "," :: encodeString name ++ c :: rest).
    rewrite peek_ws by done.
    assert (beq "," "[" = false ∧ beq "," "]" = false ∧ beq "," "{" = false
            ∧ beq "," "}" = false ∧ beq "," ":" = false ∧ beq "," "," = true)
      as (-> & -> & -> & -> & -> & ->) by done.
    cbn [tokenState]. unfold advance, set_buf, set_tokenState.
    cbn [dec_buf dec_err tokenStack tokenState tail].
    apply Hkey. by right.
Qed.

Section EncodedMembers.

Context {A : Type} (enc : A → bytes).

(** The members of an encoded map, as the decoder reads them back: for each
    entry a member with the name as key and the encoded value as raw value. *)
Lemma events_encoded_members stack X l : ∀ (first : bool) k v fuel,
  (∀ k' v', (k', v') ∈ (k, v) :: l →
            utf8_Valid (lit k') = true ∧ rawValue (enc v') = true) →
  ∃ members,
    events (length ((k, v) :: l) + fuel)
      (mkDecoder ((if first then [] else [","])
                    ++ joinWith [","]
                         (map (λ '(k, v), encodeString (lit k) ++ [":"] ++ enc v)
                              ((k, v) :: l))
                    ++ "}" :: X)
         None (if first then tokenObjectStart else tokenObjectComma) stack)
    = members ++ events fuel (mkDecoder ("}" :: X) None tokenObjectComma stack)
    ∧ eventMember <$> members
      = (λ '(k, v), Some (lit k, enc v)) <$> ((k, v) :: l).
Proof.
  induction l as [|[k1 v1] l IH]; intros first k v fuel Hok.
  - destruct (Hok k v) as [Hk Hv]; [by left|].
    cbn [map joinWith length Nat.add events].
    replace ((if first then [] else [","])
               ++ (encodeString (lit k) ++ [":"] ++ enc v) ++ "}" :: X)
      with ((if first then [] else [","])
              ++ encodeString (lit k) ++ ":" :: (enc v ++ "}" :: X))
      by (list_norm; done).
    rewrite NextToken_encoded_key by done.
    pose proof (Decode_value [] [] (enc v) "}" X stack eq_refl eq_refl Hv eq_refl) as Hd.
    cbn [app] in Hd. rewrite Hd.
    eexists [_]. split; [done|]. done.
  - destruct (Hok k v) as [Hk Hv]; [by left|].
    change (joinWith [","] (map ?f ((k, v) :: (k1, v1) :: l)))
      with ((encodeString (lit k) ++ [":"] ++ enc v)
              ++ [","] ++ joinWith [","] (map f ((k1, v1) :: l))).
    destruct (IH false k1 v1 fuel) as (members & Hrun & Hmem).
    { intros k' v' Hin. apply Hok. by right. }
    change (length ((k, v) :: (k1, v1) :: l) + fuel)%nat
      with (S (length ((k1, v1) :: l) + fuel)).
    revert Hrun.
    generalize (length ((k1, v1) :: l) + fuel)%nat. intros F Hrun.
    cbn [events].
    set (more := joinWith [","]
                   (map (λ '(k, v), encodeString (lit k) ++ [":"] ++ enc v)
                        ((k1, v1) :: l))) in *.
    replace ((if first then [] else [","])
               ++ ((encodeString (lit k) ++ [":"] ++ enc v) ++ [","] ++ more)
               ++ "}" :: X)
      with ((if first then [] else [","])
              ++ encodeString (lit k) ++ ":" :: (enc v ++ "," :: (more ++ "}" :: X)))
      by (list_norm; done).
    rewrite NextToken_encoded_key by done.
    pose proof (Decode_value [] [] (enc v) "," (more ++ "}" :: X)
                  stack eq_refl eq_refl Hv eq_refl) as Hd.
    cbn [app] in Hd. rewrite Hd.
    change ("," :: more ++ "}" :: X) with ([","] ++ more ++ "}" :: X).
    rewrite Hrun.
    eexists (_ :: members). split; [done|].
    cbn [fmap list_fmap eventMember]. f_equal. exact Hmem.
Qed.

End EncodedMembers.

Lemma encodeScalar_reads whole p ps err et v X n :
  readValue_loop whole (mkScanner stateBeginValue (p :: ps) err et)
    (encodeScalar v ++ X) n
  = readValue_loop whole (mkScanner stateEndValue (p :: ps) err et) X
      (length (encodeScalar v) + n).
Proof.
  destruct v as [s|[]]; [by apply encodeString_reads; left|done|done].
Qed.

Section EncodeMapReads.

Context {A : Type} (enc : A → bytes).

Hypothesis enc_reads : ∀ v whole p ps err et X n,
  readValue_loop whole (mkScanner stateBeginValue (p :: ps) err et) (enc v ++ X) n
  = readValue_loop whole (mkScanner stateEndValue (p :: ps) err et) X
      (length (enc v) + n).

Lemma encodeMembers_reads whole X l : ∀ k v st ps err et n,
  st = stateBeginString ∨ st = stateBeginStringOrEmpty →
  readValue_loop whole (mkScanner st (parseObjectKey :: ps) err et)
    (joinWith [","]
       (map (λ '(k, v), encodeString (lit k) ++ [":"] ++ enc v) ((k, v) :: l))
     ++ X) n
  = readValue_loop whole (mkScanner stateEndValue (parseObjectValue :: ps) err et) X
      (length (joinWith [","]
                 (map (λ '(k, v), encodeString (lit k) ++ [":"] ++ enc v)
                      ((k, v) :: l))) + n).
Proof.
  induction l as [|[k' v'] l IH]; intros k v st ps err et n Hst.
  - cbn [map joinWith]. rewrite <-app_assoc, encodeString_reads by auto.
    cbn [app readValue_loop].
    change (scanStep (mkScanner stateEndValue (parseObjectKey :: ps) err et) ":")
      with (mkScanner stateBeginValue (parseObjectValue :: ps) err et, scanObjectKey).
    cbn iota. rewrite enc_reads. f_equal.
    rewrite !length_app. cbn [length]. lia.
  - change (joinWith [","] (map ?f ((k, v) :: (k', v') :: l)))
      with ((encodeString (lit k) ++ [":"] ++ enc v)
              ++ [","] ++ joinWith [","] (map f ((k', v') :: l))).
    set (more := joinWith [","]
                   (map (λ '(k, v), encodeString (lit k) ++ [":"] ++ enc v)
                        ((k', v') :: l))) in *.
    replace (((encodeString (lit k) ++ [":"] ++ enc v) ++ [","] ++ more) ++ X)
      with (encodeString (lit k) ++ ":" :: (enc v ++ "," :: (more ++ X)))
      by (list_norm; done).
    rewrite encodeString_reads by auto. cbn [readValue_loop].
    change (scanStep (mkScanner stateEndValue (parseObjectKey :: ps) err et) ":")
      with (mkScanner stateBeginValue (parseObjectValue :: ps) err et, scanObjectKey).
    cbn iota. rewrite enc_reads. cbn [readValue_loop].
    change (scanStep (mkScanner stateEndValue (parseObjectValue :: ps) err et) ",")
      with (mkScanner stateBeginString (parseObjectKey :: ps) err et, scanObjectValue).
    cbn iota. unfold more. rewrite IH by auto. f_equal.
    rewrite ?length_app. cbn [length]. rewrite ?length_app. cbn [length]. lia.
Qed.

(** The decoder delimits an encoded map as one value. *)
Lemma encodeMap_reads whole (m : gmap string A) ps err et X n :
  readValue_loop whole (mkScanner stateBeginValue ps err et) (encodeMap enc m ++ X) n
  = match ps with
    | [] => inr (length (encodeMap enc m) + n)%nat
    | _ => readValue_loop whole (mkScanner stateEndValue ps err et) X
             (length (encodeMap enc m) + n)
    end.
Proof.
  unfold encodeMap. cbn [app readValue_loop].
  change (scanStep (mkScanner stateBeginValue ps err et) "{")
    with (mkScanner stateBeginStringOrEmpty (parseObjectKey :: ps) err et,
          scanBeginObject).
  cbn iota. destruct (sortByKey (map_to_list m)) as [|[k v] l].
  - cbn [map joinWith app readValue_loop length]. destruct ps as [|p ps].
    + cbn. f_equal.
    + cbn. f_equal.
  - set (members := joinWith [","]
                      (map (λ '(k, v), encodeString (lit k) ++ [":"] ++ enc v)
                           ((k, v) :: l))).
    rewrite <-app_assoc. unfold members. rewrite encodeMembers_reads by auto.
    fold members. cbn [app readValue_loop]. destruct ps as [|p ps].
    + cbn. f_equal. rewrite length_app. cbn [length]. lia.
    + cbn. f_equal. rewrite length_app. cbn [length]. lia.
Qed.

Lemma rawValue_encodeMap (m : gmap string A) : rawValue (encodeMap enc m) = true.
Proof.
  unfold rawValue. apply andb_true_iff. split; [done|].
  apply bool_decide_eq_true. unfold readValue, scanner_reset.
  rewrite <-(app_nil_r (encodeMap enc m)) at 2.
  rewrite encodeMap_reads. f_equal. lia.
Qed.

End EncodeMapReads.

Lemma insertByKey_elem {A} (p x : string * A) l :
  x ∈ insertByKey p l → x = p ∨ x ∈ l.
Proof.
  induction l as [|q r IH]; cbn [insertByKey].
  - intros ->%list_elem_of_singleton. by left.
  - destruct (String.leb p.1 q.1).
    + intros [->|H]%elem_of_cons; [by left|by right].
    + intros [->|H]%elem_of_cons; [right; by left|].
      destruct (IH H) as [->|H']; [by left|right; by right].
Qed.

Lemma sortByKey_elem {A} (x : string * A) l : x ∈ sortByKey l → x ∈ l.
Proof.
  induction l as [|p l IH]; [done|]. unfold sortByKey. cbn [foldr].
  intros [->|H]%insertByKey_elem; [by left|]. right. by apply IH.
Qed.

Lemma joinWith_length_ge {B} (f : B → bytes) sep l :
  (∀ x, (1 ≤ length (f x))%nat) → (length l ≤ length (joinWith sep (map f l)))%nat.
Proof.
  intros Hf. induction l as [|x [|y l] IH]; [done| |].
  - cbn [map joinWith length]. specialize (Hf x). lia.
  - change (joinWith sep (map f (x :: y :: l)))
      with (f x ++ sep ++ joinWith sep (map f (y :: l))).
    rewrite !length_app. specialize (Hf x). cbn [length] in *. lia.
Qed.

Lemma events_close fuel X :
  allSpace X = true →
  events (S (S fuel)) (mkDecoder ("}" :: X) None tokenObjectComma [tokenTopValue])
  = [EvToken (TokDelim DelimRBrace)].
Proof.
  intros HX. cbn [events].
  pose proof (NextToken_close [] X tokenObjectComma tokenTopValue [] eq_refl) as Hc.
  cbn [app] in Hc. rewrite Hc by auto.
  unfold tokenValueEnd. cbn [tokenState]. by rewrite NextToken_eof.
Qed.

(** An encoded map, read back by the decoder the way the rewriter drives it:
    an opening brace, one member for each entry in sorted order, with the
    name as key and the encoded value as raw value, and a closing brace. *)
Lemma memberTrace_encodeMap {A} (enc : A → bytes) (m : gmap string A) X :
  allSpace X = true →
  (∀ k v, m !! k = Some v → utf8_Valid (lit k) = true ∧ rawValue (enc v) = true) →
  firstToken (encodeMap enc m ++ X) = inr (TokDelim DelimLBrace)
  ∧ ∃ members,
      memberTrace (encodeMap enc m ++ X)
      = members ++ [EvToken (TokDelim DelimRBrace)]
      ∧ eventMember <$> members
        = (λ '(k, v), Some (lit k, enc v)) <$> sortByKey (map_to_list m).
Proof.
  intros HX Hok.
  assert (∀ k v, (k, v) ∈ sortByKey (map_to_list m) →
                 utf8_Valid (lit k) = true ∧ rawValue (enc v) = true) as Hok'.
  { intros k v Hin%sortByKey_elem. apply Hok. by apply elem_of_map_to_list. }
  clear Hok. unfold firstToken, memberTrace, encodeMap.
  set (f := λ '(k, v), encodeString (lit k) ++ [":"] ++ enc v).
  cbn [app].
  pose proof (NextToken_open [] ((joinWith [","] (map f (sortByKey (map_to_list m)))
                                   ++ ["}"]) ++ X) eq_refl) as Ho.
  cbn [app] in Ho. rewrite Ho. cbn [fst snd].
  split; [done|].
  destruct (sortByKey (map_to_list m)) as [|[k v] l].
  - exists []. cbn [map joinWith app length fmap list_fmap].
    cbn [events].
    pose proof (NextToken_close [] X tokenObjectStart tokenTopValue [] eq_refl) as Hc.
    cbn [app] in Hc. rewrite Hc by auto.
    unfold tokenValueEnd. cbn [tokenState]. rewrite NextToken_eof by done.
    by rewrite decide_True.
  - pose proof (joinWith_length_ge f [","] ((k, v) :: l)) as Hlen.
    assert (∀ x, (1 ≤ length (f x))%nat) as Hf.
    { intros [k0 v0]. unfold f. rewrite !length_app. cbn [length]. lia. }
    specialize (Hlen Hf).
    set (n := length ("{" :: (joinWith [","] (map f ((k, v) :: l)) ++ ["}"]) ++ X)).
    assert (∃ fuel, S n = (length ((k, v) :: l) + S (S fuel))%nat) as [fuel ->].
    { exists (n - length ((k, v) :: l) - 1)%nat. unfold n.
      cbn [length]. rewrite !length_app. cbn [length] in *. lia. }
    destruct (events_encoded_members enc [tokenTopValue] X l true k v (S (S fuel)) Hok')
      as (members & Hrun & Hmem).
    exists members. split; [|done].
    transitivity (members
                    ++ events (S (S fuel))
                         (mkDecoder ("}" :: X) None tokenObjectComma [tokenTopValue]));
      [|by rewrite events_close].
    rewrite <-app_assoc. exact Hrun.
Qed.

(** ** The document part, read back *)

Lemma length_membersText ms : (length ms ≤ length (membersText ms))%nat.
Proof.
  induction ms as [|m [|m' r] IH]; [done| |].
  - cbn [membersText]. unfold memberText. rewrite !length_app. cbn [length]. lia.
  - rewrite membersText_cons by done. rewrite !length_app.
    change (length (m :: m' :: r)) with (S (length (m' :: r))).
    cbn [length] in *. lia.
Qed.

(** The decoder meets the members before the target key, and then the target
    member with its raw value. *)
Lemma events_members_target mt x X stack before : ∀ fuel (first : bool) ws,
  Forall copied before → memberOK mt = true → m_key mt = attachmentsKey →
  x = "," ∨ x = "}" →
  allSpace ws = true → (length before + 1 ≤ fuel)%nat →
  findsTarget
    (events fuel
       (mkDecoder (ws ++ (if first then [] else [","])
                     ++ membersText (before ++ [mt]) ++ x :: X)
          None (if first then tokenObjectStart else tokenObjectComma) stack))
    (m_val mt) (m_end mt ++ x :: X).
Proof.
  induction before as [|m r IH]; intros fuel first ws Hall Hmt Hkey Hx Hws Hfuel.
  - destruct fuel as [|fuel]; [simpl in Hfuel; lia|].
    cbn [app membersText].
    destruct (decode_member mt first ws x X stack Hws Hmt Hx) as (d1 & Ht & Hd).
    cbn [events]. rewrite Ht, Hd. apply findsTarget_cons. left.
    unfold unread. cbn [dec_buf]. by rewrite Hkey.
  - apply Forall_cons in Hall as [[Hm Hmkey] Hall].
    destruct fuel as [|fuel]; [simpl in Hfuel; lia|]. simpl in Hfuel.
    rewrite <-!app_comm_cons.
    rewrite membersText_cons by (by destruct r).
    replace (ws ++ (if first then [] else [","])
               ++ (memberText m ++ [","] ++ membersText (r ++ [mt])) ++ x :: X)
      with (ws ++ (if first then [] else [","]) ++ memberText m
              ++ "," :: (membersText (r ++ [mt]) ++ x :: X))
      by (list_norm; done).
    destruct (decode_member m first ws "," (membersText (r ++ [mt]) ++ x :: X) stack
                Hws Hm (or_introl eq_refl)) as (d1 & Ht & Hd).
    cbn [events]. rewrite Ht, Hd. apply findsTarget_cons. right.
    split; [cbn [isTarget]; by apply bool_decide_eq_false|]. split; [done|].
    replace (m_end m ++ "," :: membersText (r ++ [mt]) ++ x :: X)
      with (m_end m ++ [","] ++ membersText (r ++ [mt]) ++ x :: X) by done.
    pose proof Hm as (_ & _ & _ & _ & _ & Hend)%memberOK_inv.
    apply (IH fuel false); auto. lia.
Qed.

Lemma memberTrace_finds_target ws0 inner before mt x X :
  allSpace ws0 = true → allSpace inner = true →
  Forall copied before → memberOK mt = true → m_key mt = attachmentsKey →
  x = "," ∨ x = "}" →
  firstToken (ws0 ++ ["{"] ++ inner ++ membersText (before ++ [mt]) ++ x :: X)
  = inr (TokDelim DelimLBrace)
  ∧ findsTarget
      (memberTrace (ws0 ++ ["{"] ++ inner ++ membersText (before ++ [mt]) ++ x :: X))
      (m_val mt) (m_end mt ++ x :: X).
Proof.
  intros Hws0 Hinner Hall Hmt Hkey Hx. unfold firstToken, memberTrace. cbn [app].
  rewrite NextToken_open by done. split; [done|]. cbn [snd].
  replace (inner ++ membersText (before ++ [mt]) ++ x :: X)
    with (inner ++ [] ++ membersText (before ++ [mt]) ++ x :: X) by done.
  apply (events_members_target mt x X [tokenTopValue] before _ true inner); auto.
  pose proof (length_membersText (before ++ [mt])) as Hlen.
  rewrite !length_app in *. cbn [length] in *. rewrite !length_app. lia.
Qed.

(** What the rewriter writes up to the end of the replaced member is the
    text of compact members, the last of which has the replacement as its
    value and the space [ws] after it. *)
Lemma compactMembers_target before mt enc ws :
  m_key mt = attachmentsKey →
  compactMembers (before ++ [withVal mt (enc ++ ws)]) ++ m_end mt
  = membersText (map (λ m, mkMember [] (m_key m) [] [] (m_val m) []) before
                   ++ [mkMember [] attachmentsKey [] [] enc (ws ++ m_end mt)]).
Proof.
  intros Hkey. induction before as [|m r IH].
  - cbn [app map compactMembers membersText]. unfold compactMember, memberText.
    cbn [withVal m_pre m_key m_mid m_post m_val m_end]. rewrite Hkey.
    list_norm. done.
  - rewrite <-app_comm_cons. cbn [map]. rewrite <-app_comm_cons.
    rewrite compactMembers_cons, membersText_cons by (by destruct r).
    rewrite <-IH, compactMember_text. list_norm. done.
Qed.

(** ** Sorting by key keeps the entries *)

Lemma elem_insertByKey {A} (p x : string * A) l :
  x = p ∨ x ∈ l → x ∈ insertByKey p l.
Proof.
  induction l as [|q r IH]; cbn [insertByKey].
  - intros [->|H]; [by left|by apply elem_of_nil in H].
  - destruct (String.leb (fst p) (fst q)).
    + intros [->|H]; [by left|by right].
    + intros [->|[->|H]%elem_of_cons]; [right; apply IH; by left|by left|].
      right. apply IH. by right.
Qed.

Lemma elem_sortByKey {A} (x : string * A) l : x ∈ l → x ∈ sortByKey l.
Proof.
  induction l as [|p r IH]; [done|]. cbn [sortByKey foldr].
  intros [->|H]%elem_of_cons; apply elem_insertByKey; [by left|].
  right. by apply IH.
Qed.

Lemma length_insertByKey {A} (p : string * A) l :
  length (insertByKey p l) = S (length l).
Proof.
  induction l as [|q r IH]; [done|]. cbn [insertByKey].
  destruct (String.leb (fst p) (fst q)); cbn [length]; [done|]. by rewrite IH.
Qed.

Lemma length_sortByKey {A} (l : list (string * A)) : length (sortByKey l) = length l.
Proof.
  induction l as [|p r IH]; [done|]. cbn [sortByKey foldr].
  rewrite length_insertByKey. cbn [length]. f_equal. exact IH.
Qed.

Lemma lit_inj (s t : string) : lit s = lit t → s = t.
Proof.
  unfold lit. intros H.
  rewrite <-(string_of_list_ascii_of_string s), <-(string_of_list_ascii_of_string t).
  by rewrite H.
Qed.

(** An encoded map is read back as the object of its entries. *)
Lemma objectMembers_encodeMap {A} (enc : A → bytes) (m : gmap string A) :
  (∀ k v, m !! k = Some v → utf8_Valid (lit k) = true ∧ rawValue (enc v) = true) →
  objectMembers (encodeMap enc m)
    ((λ '(k, v), (lit k, enc v)) <$> sortByKey (map_to_list m)).
Proof.
  intros Hok.
  destruct (memberTrace_encodeMap enc m [] eq_refl Hok) as (Hfirst & members & Ht & Hm).
  rewrite app_nil_r in Hfirst, Ht. split; [done|]. exists members. split; [done|].
  rewrite Hm, <-list_fmap_compose. apply list_fmap_ext. by intros ? [k v].
Qed.

Lemma objectMembers_entries {A} (enc : A → bytes) (m : gmap string A) key raw :
  (key, raw) ∈ (λ '(k, v), (lit k, enc v)) <$> sortByKey (map_to_list m)
  ↔ ∃ k v, m !! k = Some v ∧ key = lit k ∧ raw = enc v.
Proof.
  rewrite list_elem_of_fmap. split.
  - intros ([k v] & [= -> ->] & Hin%sortByKey_elem%elem_of_map_to_list). eauto.
  - intros (k & v & Hkv & -> & ->). exists (k, v). split; [done|].
    by apply elem_sortByKey, elem_of_map_to_list.
Qed.

(** * The statements of the specification

    Each statement is given with its number.  Where the code does otherwise
    than the specification says, a lemma first evaluates the code on an
    input that shows it; the theorem after it states what holds. *)

(** C1, evaluated where the code departs from it: a key with an escaped
    quote.  The input is a valid JSON object without the target key; the
    rewriter writes the key unescaped and its output is not valid JSON. *)
Lemma C1_escaped_key_breaks_output :
  let input := lit "{" ++ [dquote; "a"; backslash; dquote; "b"; dquote] ++ lit ":1}" in
  let output := lit "{" ++ [dquote; "a"; dquote; "b"; dquote] ++ lit ":1}" in
  Valid input = true
  ∧ copyWithAttachments input (Encode None) = (output, None)
  ∧ Valid output = false.
Proof. vm_compute. done. Qed.

(** C2 as the specification words it fails for a document stream that the
    rewriter rejects (here the array [[1]]): the body holds the header of
    the document part and nothing more, it ends with the rewriter's error,
    no part is written for the attachment, and no list of parts is framed
    by it, since the closing boundary marker is missing. *)
Lemma C2_counterexample_no_closing_boundary :
  let b := lit "BOUNDARY" in
  let a := mkAttachment (lit "text/plain") (mkStream (lit "hi") None) in
  let m : Attachments := {[ "a.txt"%string := a ]} in
  ∃ res,
    multipartAttachments (λ _, false) b (lit "[1]") (Some m) [("a.txt"%string, a)]
    = Returns res
    ∧ content (mr_body res) = partText b (documentPart [])
    ∧ failure (mr_body res) = Some (ErrExpected DelimLBrace (TokDelim DelimLBracket))
    ∧ mr_closedAtts res = []
    ∧ ∀ parts, content (mr_body res) ≠ bodyText b parts.
Proof.
  cbn zeta. eexists. split; [vm_compute; reflexivity|].
  cbn [mr_body mr_closedAtts content failure].
  split; [reflexivity|]. split; [reflexivity|]. split; [reflexivity|].
  intros parts H. apply (f_equal (λ l, take 4 (reverse l))) in H.
  unfold bodyText in H. rewrite !reverse_app in H. vm_compute in H. discriminate.
Qed.

(** C2, amended: for a non-nil attachment set of N attachments, when the
    rewriting of the document stream succeeds and no attachment stream
    fails to read, the body is made of N+1 parts, separated by the boundary
    and followed by the closing boundary marker; the first part is the
    document part with header [Content-Type: application/json] and what the
    rewriter wrote as its content; every other part, in the order in which
    the attachments are visited, carries the content type of its attachment,
    the header [Content-Disposition: attachment; filename=] followed by the
    name as [%q] prints it, and the content of the attachment.  Every
    attachment has then been closed, and the document stream twice. *)
Theorem C2_multipart_body (isPrintTable : Z → bool) (b r : bytes)
    (m : Attachments) (order : list (string * Attachment)) (doc : bytes) :
  rangeOf m order →
  replaceAttachments r (Some m) = mkStream doc None →
  Forall (λ p, failure (Content (snd p)) = None) order →
  ∃ parts,
    parts = documentPart doc :: map (attachmentPart isPrintTable) order
    ∧ length parts = S (size m)
    ∧ multipartAttachments isPrintTable b r (Some m) order
      = Returns {| mr_boundary := b;
                   mr_body := mkStream (bodyText b parts) None;
                   mr_closedAtts := order.*1;
                   mr_docCloses := 2 |}.
Proof.
  intros Hrange Hdoc Hall. eexists. split; [done|]. split.
  - cbn [length]. rewrite length_map. f_equal.
    unfold rangeOf in Hrange. rewrite Hrange. apply length_map_to_list.
  - unfold multipartAttachments, createMultipart. rewrite Hdoc.
    cbn [failure content up_w closedAtts docCloses].
    rewrite writeAttachments_ok by done.
    cbn [up_w closedAtts docCloses boundary mw_out CreatePart NewWriter partWrite
         closeWriter lastpart app].
    f_equal. f_equal. f_equal.
    unfold bodyText. cbn [map]. rewrite joinWith_cons.
    unfold partText at 2, documentPart, headerLines.
    cbn [sortByKey foldr insertByKey part_header part_body map concat].
    list_norm.
    by rewrite !map_map.
Qed.

Lemma C2_multipart_body_witness :
  ∃ parts,
    parts = documentPart
              (content
                 (replaceAttachments
                    (lit "{" ++ [dquote] ++ attachmentsKey ++ [dquote] ++ lit ":{}}")
                    (Some {[ "a.txt"%string :=
                               mkAttachment (lit "text/plain") (mkStream (lit "hi") None) ]})))
            :: map (attachmentPart (λ _, false))
                 [("a.txt"%string,
                   mkAttachment (lit "text/plain") (mkStream (lit "hi") None))]
    ∧ length parts
      = S (size ({[ "a.txt"%string :=
                      mkAttachment (lit "text/plain") (mkStream (lit "hi") None) ]}
                 : Attachments))
    ∧ multipartAttachments (λ _, false) (lit "BOUNDARY")
        (lit "{" ++ [dquote] ++ attachmentsKey ++ [dquote] ++ lit ":{}}")
        (Some {[ "a.txt"%string :=
                   mkAttachment (lit "text/plain") (mkStream (lit "hi") None) ]})
        [("a.txt"%string, mkAttachment (lit "text/plain") (mkStream (lit "hi") None))]
      = Returns {| mr_boundary := lit "BOUNDARY";
                   mr_body := mkStream (bodyText (lit "BOUNDARY") parts) None;
                   mr_closedAtts :=
                     [("a.txt"%string,
                       mkAttachment (lit "text/plain") (mkStream (lit "hi") None))].*1;
                   mr_docCloses := 2 |}.
Proof.
  apply (C2_multipart_body (λ _, false) (lit "BOUNDARY")
           (lit "{" ++ [dquote] ++ attachmentsKey ++ [dquote] ++ lit ":{}}")
           {[ "a.txt"%string :=
                mkAttachment (lit "text/plain") (mkStream (lit "hi") None) ]}
           [("a.txt"%string, mkAttachment (lit "text/plain") (mkStream (lit "hi") None))]).
  - unfold rangeOf. rewrite map_to_list_singleton. reflexivity.
  - vm_compute. reflexivity.
  - repeat constructor.
Defined.

(** C3, evaluated where the code departs from it: two attachments, the
    first of which fails after two bytes.  The body stops after these two
    bytes and the failure is its terminal error; no part is started for the
    second attachment; the document stream has been closed, but neither the
    failing stream nor the one not yet written has. *)
Lemma C3_failed_read_leaves_attachments_open :
  let failing := mkAttachment (lit "image/png") (mkStream (lit "PN") (Some (ReadError 1))) in
  let waiting := mkAttachment (lit "text/plain") (mkStream (lit "hi") None) in
  let atts : Attachments := <["a.png"%string := failing]> {[ "b.txt"%string := waiting ]} in
  let doc := lit "{" ++ [dquote] ++ attachmentsKey ++ [dquote] ++ lit ":1}" in
  rangeOf atts [("a.png"%string, failing); ("b.txt"%string, waiting)]
  ∧ multipartAttachments (λ _, false) (lit "BOUNDARY") doc (Some atts)
      [("a.png"%string, failing); ("b.txt"%string, waiting)]
    = Returns
        {| mr_boundary := lit "BOUNDARY";
           mr_body :=
             mkStream
               (partText (lit "BOUNDARY")
                  (documentPart (content (replaceAttachments doc (Some atts))))
                ++ crlf
                ++ partText (lit "BOUNDARY")
                     (mkPart [("Content-Disposition"%string,
                               lit "attachment; filename=" ++ [dquote] ++ lit "a.png"
                                 ++ [dquote]);
                              ("Content-Type"%string, lit "image/png")]
                        (lit "PN")))
               (Some (ReadError 1));
           mr_closedAtts := [];
           mr_docCloses := 2 |}.
Proof.
  split.
  - unfold rangeOf. vm_compute. reflexivity.
  - vm_compute. reflexivity.
Qed.

(** C4 as the specification words it fails on the empty input: there is no
    opening brace, and yet the rewriter returns no error. *)
Lemma C4_counterexample_empty_input :
  ¬ (is_Some (snd (copyWithAttachments [] (inr (lit "null")))) ↔ specMalformed []).
Proof.
  intros [_ H]. assert (specMalformed []) as Hm by (by left).
  apply H in Hm. vm_compute in Hm. by destruct Hm.
Qed.

(** C4, amended: for every input, the rewriter returns an error if and only
    if the first token is present and is not an opening brace, or the first
    token fails to decode, or, after an opening brace and before the target
    key has been found, a token or a value fails to decode or a delimiter
    other than the closing brace arrives.  An input without any token, that
    is an input of nothing but space, is not an error. *)
Theorem C4_copyWithAttachments_fails_iff (r enc : bytes) :
  (is_Some (snd (copyWithAttachments r (inr enc))) ↔
     (∃ t, firstToken r = inr t ∧ t ≠ TokDelim DelimLBrace)
     ∨ (∃ e, firstToken r = inl e ∧ e ≠ EOF)
     ∨ (firstToken r = inr (TokDelim DelimLBrace)
        ∧ failsBeforeTarget (memberTrace r)))
  ∧ (firstToken r = inl EOF ↔ allSpace r = true).
Proof.
  split; [|apply firstToken_EOF].
  rewrite copyWithAttachments_error, <-firstFailure_spec.
  destruct (firstToken r) as [e|t] eqn:Hfirst.
  - destruct (decide (e = EOF)) as [->|Hne].
    + rewrite memberTrace_no_token by done. cbn [firstFailure].
      split; [by intros [? [=]]|].
      by intros [(t & [=] & _)|[(e & [= <-] & He)|[[=] _]]].
    + split; [intros _; right; left; eauto|]. eauto.
  - destruct (decide (t = TokDelim DelimLBrace)) as [->|Hne].
    + split; [intros H; right; right; eauto|].
      intros [(t & [= <-] & Ht)|[(e & [=] & _)|[_ H]]]; done.
    + split; [intros _; left; eauto|]. eauto.
Qed.

(** C5: when the input starts an object and the target key is found, the
    output ends with the key, the replacement, and then every byte of the
    input that follows the key's original value, unchanged. *)
Theorem C5_rest_copied_verbatim (r enc val rest : bytes) :
  firstToken r = inr (TokDelim DelimLBrace) →
  findsTarget (memberTrace r) val rest →
  ∃ before consumed,
    copyWithAttachments r (inr enc) =
      (before ++ [dquote] ++ attachmentsKey ++ [dquote; ":"] ++ enc ++ rest, None)
    ∧ r = consumed ++ val ++ rest.
Proof.
  unfold firstToken, memberTrace. intros Hfirst Hfind.
  pose proof (copyWithAttachments_fuel_total r (inr enc)) as Hrun.
  unfold copyWithAttachments_fuel in Hrun.
  destruct (NextToken (NewDecoder r)) as [x d1] eqn:Ht. cbn [fst snd] in Hfirst, Hfind.
  subst x. rewrite decide_True in Hrun by done.
  destruct (copy_loop_target _ enc d1 true (fmt_v (TokDelim DelimLBrace)) _ _ Hfind)
    as [pre Hpre].
  rewrite Hpre in Hrun. injection Hrun as <-.
  destruct Hfind as (i & Hi & _).
  apply events_member_split in Hi as [c Hc].
  apply NextToken_suffix in Ht as [c0 Hc0]. simpl in Hc0.
  exists (fmt_v (TokDelim DelimLBrace) ++ pre), (c0 ++ c). split.
  - by rewrite <-app_assoc.
  - by rewrite Hc0, Hc, <-app_assoc.
Qed.

Lemma C5_rest_copied_verbatim_witness :
  ∃ before consumed,
    copyWithAttachments
      (lit "{" ++ [dquote] ++ attachmentsKey ++ [dquote] ++ lit ":1,x} tail")
      (inr (lit "null")) =
      (before ++ [dquote] ++ attachmentsKey ++ [dquote; ":"] ++ lit "null"
         ++ lit ",x} tail", None)
    ∧ lit "{" ++ [dquote] ++ attachmentsKey ++ [dquote] ++ lit ":1,x} tail"
      = consumed ++ lit "1" ++ lit ",x} tail".
Proof.
  apply (C5_rest_copied_verbatim
           (lit "{" ++ [dquote] ++ attachmentsKey ++ [dquote] ++ lit ":1,x} tail")
           (lit "null") (lit "1") (lit ",x} tail")).
  - vm_compute. reflexivity.
  - exists 0%nat. split; [vm_compute; reflexivity|].
    intros j ev' Hj. exfalso. inversion Hj.
Defined.

(** C6 as the specification words it fails: an attachments field that holds
    an empty collection of a recognized type is found. *)
Lemma C6_counterexample_empty_collection_found :
  let h := {| h_maps := {[ 1%positive := ∅ ]}; h_vars := ∅ |} in
  let doc := DocMap {[ "_attachments"%string := GoAttachments (Some 1%positive) ]} in
  (attachmentsField doc ≫= fieldEntries h) = Some ∅
  ∧ ∃ p h', extractAttachments doc h = Returns (Some p, true, h').
Proof. split; [by vm_compute | by eexists _, _]. Qed.

(** C6, amended: when the document has no attachments field, or its value
    is of a type that is not recognized, [extractAttachments] returns
    [found = false] and changes nothing.  When the field holds a collection
    of a recognized type, empty or not, it returns [found = true]; the
    returned set holds exactly the entries the field held, the field is left
    empty, and every other map and variable is as before. *)
Theorem C6_extractAttachments (doc : Doc) (h : Heap) :
  safeDoc doc = true →
  (∀ i, attachmentsField doc = Some i → allocated h i) →
  ((attachmentsField doc ≫= fieldEntries h) = None →
   extractAttachments doc h = Returns (None, false, h))
  ∧ (∀ i entries,
       attachmentsField doc = Some i → fieldEntries h i = Some entries →
       ∃ p h',
         extractAttachments doc h = Returns (Some p, true, h')
         ∧ resultEntries h' (Some p) = entries
         ∧ fieldEntries h' i = Some ∅
         ∧ (∀ l, is_Some (h_maps h !! l) → i ≠ GoAttachments (Some l) →
                 h_maps h' !! l = h_maps h !! l)
         ∧ (∀ q, is_Some (h_vars h !! q) → i ≠ GoAttachmentsPtr (Some q) →
                 h_vars h' !! q = h_vars h !! q)).
Proof.
  intros Hsafe Halloc. rewrite extractAttachments_field by done. split.
  - pose proof (safeDoc_field doc Hsafe) as Hnil.
    destruct (attachmentsField doc) as [i|]; [|done]. simpl.
    intros Hnone. apply interfaceToAttachments_unrecognized; congruence.
  - intros i entries Hi Hentries. rewrite Hi.
    apply interfaceToAttachments_moves; auto.
Qed.

Lemma C6_extractAttachments_witness :
  let att := mkAttachment (lit "text/plain") (mkStream (lit "hi") None) in
  let h := {| h_maps := {[ 1%positive := {[ "a.txt"%string := att ]} ]};
              h_vars := ∅ |} in
  let doc := DocMap {[ "_attachments"%string := GoAttachments (Some 1%positive) ]} in
  ((attachmentsField doc ≫= fieldEntries h) = None →
   extractAttachments doc h = Returns (None, false, h))
  ∧ (∀ i entries,
       attachmentsField doc = Some i → fieldEntries h i = Some entries →
       ∃ p h',
         extractAttachments doc h = Returns (Some p, true, h')
         ∧ resultEntries h' (Some p) = entries
         ∧ fieldEntries h' i = Some ∅
         ∧ (∀ l, is_Some (h_maps h !! l) → i ≠ GoAttachments (Some l) →
                 h_maps h' !! l = h_maps h !! l)
         ∧ (∀ q, is_Some (h_vars h !! q) → i ≠ GoAttachmentsPtr (Some q) →
                 h_vars h' !! q = h_vars h !! q)).
Proof.
  intros att h doc. apply (C6_extractAttachments doc h).
  - reflexivity.
  - intros i Hi. vm_compute in Hi. injection Hi as <-.
    exists {[ "a.txt"%string := att ]}. reflexivity.
Defined.







(** C10: after a successful exchange, [Put] returns the revision reported by
    the server; with it an error of status [StatusBadResponse] when the
    reported document ID differs from the requested one, and no error only
    when the two are equal. *)
Theorem C10_Put_checks_document_ID (Options : Type)
    (missingArg : bytes → error) (fullCommit : bool → Options → error + bool)
    (docPath : bytes → bytes)
    (DoJSON : Method → bytes → chttpOptions → option error * putResult)
    (docID : bytes) (doc : BodyArg) (options : Options) (fc : bool)
    (result : putResult) :
  docID ≠ [] →
  fullCommit false options = inr fc →
  DoJSON MethodPut (docPath docID) (mkOptions (EncodeBody doc) fc) = (None, result) →
  let res := Put Options missingArg fullCommit docPath DoJSON docID doc options in
  fst res = Rev result
  ∧ (ID result ≠ docID → ∃ msg, snd res = Some (Statusf StatusBadResponse msg))
  ∧ (ID result = docID → snd res = None)
  ∧ (snd res = None → ID result = docID).
Proof.
  intros Hid Hfc Hdo. unfold Put.
  rewrite decide_False by done. rewrite Hfc, Hdo.
  destruct (decide (ID result ≠ docID)) as [Hne|Heq%dec_stable]; cbn [fst snd].
  - repeat split; [eauto|done|done].
  - repeat split; [done|done].
Qed.

Lemma C10_Put_checks_document_ID_witness :
  let DoJSON := λ (_ : Method) (_ : bytes) (_ : chttpOptions),
                  (None, mkPutResult (lit "other") (lit "1-abc")) in
  let res := Put unit (λ _, EOF) (λ _ _, inr false) (λ p, p) DoJSON
               (lit "doc1") (BodyString (lit "{}")) tt in
  fst res = lit "1-abc"
  ∧ (lit "other" ≠ lit "doc1" → ∃ msg, snd res = Some (Statusf StatusBadResponse msg))
  ∧ (lit "other" = lit "doc1" → snd res = None)
  ∧ (snd res = None → lit "other" = lit "doc1").
Proof.
  intros DoJSON.
  apply (C10_Put_checks_document_ID unit (λ _, EOF) (λ _ _, inr false) (λ p, p)
           DoJSON (lit "doc1") (BodyString (lit "{}")) tt false
           (mkPutResult (lit "other") (lit "1-abc"))).
  - discriminate.
  - reflexivity.
  - reflexivity.
Defined.

(** * Further properties of the code *)


(** ** Query parameters *)

(** X1: when every option has a value of a supported type, [optionsToParams]
    returns parameters that hold under each key the values given for it, set
    after set; a key for which no value is given (absent, or an empty slice
    of strings) is absent from the result.  The result is the same for every
    order in which the maps are visited. *)
Theorem optionsToParams_values (opts : list OptionSet)
    (orders : list (list (string * OptValue))) :
  rangesOf opts orders →
  (∀ m k T, m ∈ opts → m !! k ≠ Some (OptOther T)) →
  ∃ params,
    optionsToParams orders = inr params
    ∧ ∀ k, params !! k
           = (let vs := concat (map (valuesAt k) opts) in
              if decide (vs = []) then None else Some vs).
Proof.
  intros Hr Hok.
  destruct (optionsToParams_sets_ok opts orders ∅ Hr Hok) as (params & Hrun & Hne & Hval).
  { intros k. by rewrite lookup_empty. }
  exists params. split; [done|]. intros k. specialize (Hval k). specialize (Hne k).
  unfold valuesOf in Hval. rewrite lookup_empty in Hval. cbn [from_option app] in Hval.
  cbn zeta. rewrite <-Hval.
  destruct (params !! k) as [l|]; cbn [from_option id].
  - rewrite decide_False; [done|]. congruence.
  - by rewrite decide_True.
Qed.

Lemma optionsToParams_values_witness :
  ∃ params,
    optionsToParams
      [[("keys"%string, OptStrings [lit "a"; lit "b"]); ("limit"%string, OptInt 10)];
       [("limit"%string, OptBool true)]]
    = inr params
    ∧ ∀ k, params !! k
           = (let vs :=
                concat (map (valuesAt k)
                          [list_to_map
                             [("keys"%string, OptStrings [lit "a"; lit "b"]);
                              ("limit"%string, OptInt 10)];
                           list_to_map [("limit"%string, OptBool true)]]) in
              if decide (vs = []) then None else Some vs).
Proof.
  apply (optionsToParams_values
           [list_to_map [("keys"%string, OptStrings [lit "a"; lit "b"]);
                         ("limit"%string, OptInt 10)];
            list_to_map [("limit"%string, OptBool true)]]).
  - constructor; [vm_compute; reflexivity|].
    constructor; [vm_compute; reflexivity|]. constructor.
  - intros m k T Hm.
    apply elem_of_cons in Hm as [->|Hm];
      [|apply list_elem_of_singleton in Hm as ->];
      cbn [list_to_map foldr uncurry];
      rewrite ?lookup_insert; repeat case_decide; try done;
      by rewrite lookup_empty.
Defined.

(** X2: [optionsToParams] fails exactly when some option has a value of an
    unsupported type; the error then has the bad-request status and names
    the type of one such value. *)
Theorem optionsToParams_invalid_type (opts : list OptionSet)
    (orders : list (list (string * OptValue))) :
  rangesOf opts orders →
  ((∃ e, optionsToParams orders = inl e)
   ↔ ∃ m k T, m ∈ opts ∧ m !! k = Some (OptOther T))
  ∧ ∀ e, optionsToParams orders = inl e →
         ∃ m k T, m ∈ opts ∧ m !! k = Some (OptOther T)
                  ∧ e = Statusf StatusBadRequest
                          (lit "kivik: invalid type " ++ T ++ lit " for options").
Proof.
  intros Hr. split; [split|].
  - intros [e (m & k & T & Hm & Hk & _)%(optionsToParams_sets_error opts)]; eauto.
  - intros (m & k & T & Hm & Hk). by eapply optionsToParams_sets_invalid.
  - intros e. by apply optionsToParams_sets_error.
Qed.

Lemma optionsToParams_invalid_type_witness :
  ∃ m k T,
    m ∈ [list_to_map [("limit"%string, OptOther (lit "float64"))] : OptionSet]
    ∧ m !! k = Some (OptOther T)
    ∧ Statusf StatusBadRequest (lit "kivik: invalid type float64 for options")
      = Statusf StatusBadRequest (lit "kivik: invalid type " ++ T ++ lit " for options").
Proof.
  apply (optionsToParams_invalid_type
           [list_to_map [("limit"%string, OptOther (lit "float64"))]]
           [[("limit"%string, OptOther (lit "float64"))]]).
  - constructor; [vm_compute; reflexivity|]. constructor.
  - reflexivity.
Defined.

(** ** Requests *)

(** X3: the path that [fixPath] stores begins with a slash and holds no
    question mark; a path that begins with a slash and has no query is
    stored as it is; applying [fixPath] to its own result changes nothing,
    and the query and the header of the request are never touched. *)
Theorem fixPath_rooted (req : Request) (path : bytes) :
  let req' := fixPath req path in
  HasPrefix (RawPath req') (lit "/") = true
  ∧ ("?" ∉ RawPath req')
  ∧ (HasPrefix path (lit "/") = true → "?" ∉ path → RawPath req' = path)
  ∧ fixPath req' (RawPath req') = req'
  ∧ RawQuery req' = RawQuery req
  ∧ req_Header req' = req_Header req.
Proof.
  cbn zeta. unfold fixPath. cbn [RawPath RawQuery req_Header].
  destruct (SplitN2_head path "?") as (a & l & -> & Ha & Hid). cbn [hd].
  assert ("?" ∉ lit "/" ++ TrimPrefix a (lit "/")) as Hq.
  { cbn [lit list_ascii_of_string app]. intros [[=]|Hin]%elem_of_cons.
    destruct (TrimPrefix_suffix a (lit "/")) as [pre Hpre].
    apply Ha. rewrite Hpre. apply elem_of_app. by right. }
  split; [done|]. split; [done|]. split; [|split; [|done]].
  - intros Hp Hno. rewrite (Hid Hno). unfold TrimPrefix. rewrite Hp.
    destruct path as [|c r]; [done|]. cbn in Hp. apply andb_prop in Hp as [Hc _].
    apply Ascii.eqb_eq in Hc as ->. done.
  - destruct (SplitN2_head (lit "/" ++ TrimPrefix a (lit "/")) "?")
      as (a' & l' & -> & _ & Hid').
    cbn [hd]. rewrite (Hid' Hq). done.
Qed.

(** X4: when the options name a revision for [If-None-Match], [setHeaders]
    sets that header to the single value made of the revision without the
    quotes around it, put between one pair of quotes; a revision given with
    its quotes and the same revision given without them yield the same
    request. *)
Theorem setHeaders_IfNoneMatch (req : Request) (o : RequestOptions) :
  opt_IfNoneMatch o ≠ [] →
  let inm := [dquote] ++ Trim (opt_IfNoneMatch o) [dquote] ++ [dquote] in
  req_Header (setHeaders req (Some o)) !! "If-None-Match"%string = Some [inm]
  ∧ trimmed (Trim (opt_IfNoneMatch o) [dquote]) [dquote]
  ∧ setHeaders req
      (Some {| opt_Accept := opt_Accept o; opt_ContentType := opt_ContentType o;
               opt_FullCommit := opt_FullCommit o; opt_IfNoneMatch := inm;
               opt_Destination := opt_Destination o; opt_Query := opt_Query o |})
    = setHeaders req (Some o).
Proof.
  intros Hne. cbn zeta. split; [|split].
  - unfold setHeaders. cbn [req_Header]. rewrite (decide_True (P := _ ≠ [])) by done.
    unfold Header_Add at 1 2, Header_Set.
    rewrite lookup_insert_ne by done. rewrite lookup_insert_ne by done.
    by rewrite lookup_insert_eq.
  - apply Trim_trimmed.
  - unfold setHeaders.
    cbn [opt_Accept opt_ContentType opt_FullCommit opt_IfNoneMatch opt_Destination].
    rewrite (decide_True (P := [dquote] ++ _ ≠ [])) by done.
    rewrite (decide_True (P := opt_IfNoneMatch o ≠ [])) by done.
    rewrite Trim_quoted by done.
    by rewrite (Trim_id (Trim _ _)) by apply Trim_trimmed.
Qed.

Lemma setHeaders_IfNoneMatch_witness :
  let req := mkRequest (lit "/db/doc") [] ∅ in
  let inm := [dquote] ++ Trim ([dquote] ++ lit "1-abc" ++ [dquote]) [dquote] ++ [dquote] in
  req_Header
    (setHeaders req
       (Some (mkRequestOptions [] [] false ([dquote] ++ lit "1-abc" ++ [dquote]) [] ∅)))
    !! "If-None-Match"%string
  = Some [inm]
  ∧ trimmed (Trim ([dquote] ++ lit "1-abc" ++ [dquote]) [dquote]) [dquote]
  ∧ setHeaders req (Some (mkRequestOptions [] [] false inm [] ∅))
    = setHeaders req
        (Some (mkRequestOptions [] [] false ([dquote] ++ lit "1-abc" ++ [dquote]) [] ∅)).
Proof.
  apply (setHeaders_IfNoneMatch (mkRequest (lit "/db/doc") [] ∅)
           (mkRequestOptions [] [] false ([dquote] ++ lit "1-abc" ++ [dquote]) [] ∅)).
  done.
Defined.

(** X5: [setHeaders] adds one value to [Accept] and one to [Content-Type],
    after the values the request already has: the one the options name, and
    [application/json] when they name none or are nil.  It leaves every
    header other than these two, [X-Couch-Full-Commit], [Destination] and
    [If-None-Match] as it is, and does not touch the path or the query. *)
Theorem setHeaders_defaults (req : Request) (opts : option RequestOptions) :
  let h := req_Header req in
  let h' := req_Header (setHeaders req opts) in
  let chosen (field : RequestOptions → bytes) :=
    match opts with
    | Some o => if decide (field o = []) then typeJSON else field o
    | None => typeJSON
    end in
  h' !! "Accept"%string
    = Some (default [] (h !! "Accept"%string) ++ [chosen opt_Accept])
  ∧ h' !! "Content-Type"%string
    = Some (default [] (h !! "Content-Type"%string) ++ [chosen opt_ContentType])
  ∧ (∀ k : string,
       k ∉ ["Accept"; "Content-Type"; "X-Couch-Full-Commit"; "Destination";
            "If-None-Match"]%string →
       h' !! k = h !! k)
  ∧ RawPath (setHeaders req opts) = RawPath req
  ∧ RawQuery (setHeaders req opts) = RawQuery req.
Proof.
  cbn zeta. unfold setHeaders. cbn [req_Header RawPath RawQuery].
  split; [|split; [|split; [|done]]].
  - unfold Header_Add at 1 2. rewrite lookup_insert_ne by done.
    rewrite lookup_insert_eq. f_equal. f_equal.
    + destruct opts as [o|]; [|done]. f_equal.
      unfold Header_Set, Header_Add.
      repeat case_match; rewrite ?lookup_insert_ne by done; done.
    + destruct opts as [o|]; [|done]. by repeat case_decide.
  - unfold Header_Add at 1. rewrite lookup_insert_eq. f_equal. f_equal.
    + unfold Header_Add at 1. rewrite lookup_insert_ne by done.
      destruct opts as [o|]; [|done]. f_equal.
      unfold Header_Set, Header_Add.
      repeat case_match; rewrite ?lookup_insert_ne by done; done.
    + destruct opts as [o|]; [|done]. by repeat case_decide.
  - intros k Hk. rewrite !not_elem_of_cons in Hk.
    destruct Hk as (H1 & H2 & H3 & H4 & H5 & _).
    unfold Header_Add at 1 2. rewrite !lookup_insert_ne by done.
    destruct opts as [o|]; [|done].
    unfold Header_Set, Header_Add.
    repeat case_match; rewrite ?lookup_insert_ne by done; done.
Qed.

(** X6: when the [Etag] header of a response carries the value that
    [setHeaders] sends as [If-None-Match] for a revision, [ETag] returns that
    revision without the quotes around it. *)
Theorem ETag_setHeaders (req : Request) (o : RequestOptions) (header : Header) :
  opt_IfNoneMatch o ≠ [] →
  header !! "Etag"%string
    = req_Header (setHeaders req (Some o)) !! "If-None-Match"%string →
  ETag (Some header) = Returns (Trim (opt_IfNoneMatch o) [dquote], true).
Proof.
  intros Hne Hh.
  assert (req_Header (setHeaders req (Some o)) !! "If-None-Match"%string
          = Some [[dquote] ++ Trim (opt_IfNoneMatch o) [dquote] ++ [dquote]]) as Hset.
  { unfold setHeaders. cbn [req_Header]. rewrite (decide_True (P := _ ≠ [])) by done.
    unfold Header_Add at 1 2, Header_Set.
    rewrite lookup_insert_ne by done. rewrite lookup_insert_ne by done.
    by rewrite lookup_insert_eq. }
  rewrite Hset in Hh. unfold ETag. rewrite Hh.
  rewrite Trim_quoted by done.
  by rewrite (Trim_id (Trim _ _)) by apply Trim_trimmed.
Qed.

Lemma ETag_setHeaders_witness :
  ETag (Some {["Etag"%string := [[dquote] ++ lit "1-abc" ++ [dquote]]]})
  = Returns (lit "1-abc", true).
Proof.
  apply (ETag_setHeaders (mkRequest [] [] ∅)
           (mkRequestOptions [] [] false (lit "1-abc") [] ∅)).
  - done.
  - vm_compute. reflexivity.
Defined.

(** X7: [ETag] reads the [Etag] entry of the header and, only when there is
    none, the [ETag] entry; what it returns neither begins nor ends with a
    quote; it reports that nothing was found exactly when the response is
    nil or has neither entry, and it panics exactly when the entry it reads
    has no value. *)
Theorem ETag_entry (resp : option Header) :
  let entry :=
    header ← resp;
    match header !! "Etag"%string with
    | Some etag => Some etag
    | None => header !! "ETag"%string
    end in
  (ETag resp = Panics ↔ entry = Some [])
  ∧ (ETag resp = Returns ([], false) ↔ entry = None)
  ∧ (∀ value ok, ETag resp = Returns (value, ok) →
       trimmed value [dquote]
       ∧ (ok = true →
          ∃ e0 rest, entry = Some (e0 :: rest) ∧ value = Trim e0 [dquote])).
Proof.
  cbn zeta. unfold ETag. destruct resp as [header|]; cbn [mbind option_bind].
  - destruct (match header !! "Etag"%string with
              | Some etag => Some etag
              | None => header !! "ETag"%string
              end) as [[|e0 rest]|].
    + split; [done|]. split; [done|]. intros ? ? [=].
    + split; [done|]. split; [done|]. intros ? ? [= <- <-].
      split; [apply Trim_trimmed|]. eauto.
    + split; [done|]. split; [done|]. intros ? ? [= <- <-]. by split.
  - split; [done|]. split; [done|]. intros ? ? [= <- <-]. by split.
Qed.

(** X8: [setQuery] leaves the request as it is when the options are nil or
    hold no query parameter; otherwise it appends to the query of the
    request, after an ampersand when that query is not empty, the pairs
    [key=value] of the parameters, escaped, the keys in sorted order, with an
    ampersand between two pairs.  What it appends consists of letters,
    digits and the bytes [-_.~%+=&] only.  The path and the header are not
    touched. *)
Theorem setQuery_appends (req : Request) (opts : option RequestOptions) :
  let req' := setQuery req opts in
  let query := match opts with Some o => opt_Query o | None => ∅ end in
  let encoded := joinWith (lit "&") (queryPairs query) in
  RawPath req' = RawPath req
  ∧ req_Header req' = req_Header req
  ∧ (size query = 0%nat → req' = req)
  ∧ (size query ≠ 0%nat →
     RawQuery req'
     = (if decide (RawQuery req = []) then [] else RawQuery req ++ lit "&") ++ encoded)
  ∧ Forall (λ c, queryByte c = true) encoded.
Proof.
  cbn zeta. unfold setQuery. destruct opts as [o|].
  - rewrite <-Values_Encode_pairs.
    split; [by repeat case_decide|]. split; [by repeat case_decide|].
    split; [intros H; by rewrite decide_True|]. split; [|apply Values_Encode_bytes].
    intros H. rewrite decide_False by done.
    case_decide; cbn [RawQuery]; [done|]. by rewrite <-app_assoc.
  - split; [done|]. split; [done|]. split; [done|]. split; [|constructor].
    intros H. by rewrite map_size_empty in H.
Qed.

(** X9: a pair [key=value] of an encoded query determines the key and the
    value: two pairs are equal only when their keys and their values are. *)
Theorem queryPair_inj (k v k' v' : bytes) :
  QueryEscape k ++ lit "=" ++ QueryEscape v = QueryEscape k' ++ lit "=" ++ QueryEscape v'
  ↔ k = k' ∧ v = v'.
Proof.
  split; [|by intros [-> ->]].
  cbn [lit list_ascii_of_string app].
  intros [-> H]%queryKey_inj. by apply QueryEscape_inj in H as ->.
Qed.

(** ** Responses *)

(** X10: how [DecodeJSON] classifies a body that cannot be decoded.  A body
    of nothing but space (the empty body too) gives [io.EOF] wrapped with the
    network-error status, whatever the target is, and for a raw-message
    target this is the only body that does.  For a raw-message target every
    failure is one of three: that one, [io.ErrUnexpectedEOF] with the
    network-error status (the body ends inside a value), or a syntax error
    with the bad-response status. *)
Theorem DecodeJSON_failures (body : bytes) :
  (∀ A (unmarshal : bytes → error + A),
     allSpace body = true →
     DecodeJSON unmarshal body = inl (WrapStatus StatusNetworkError EOF))
  ∧ (DecodeJSON unmarshalRaw body = inl (WrapStatus StatusNetworkError EOF) →
     allSpace body = true)
  ∧ (∀ e, DecodeJSON unmarshalRaw body = inl e →
       e = WrapStatus StatusNetworkError EOF
       ∨ e = WrapStatus StatusNetworkError ErrUnexpectedEOF
       ∨ ∃ c context, e = WrapStatus StatusBadResponse (SyntaxError c context)).
Proof.
  split; [|split].
  - intros A um Hb. unfold DecodeJSON. by rewrite Decode_top, readValue_allSpace.
  - unfold DecodeJSON. rewrite Decode_top. intros H.
    destruct (allSpace body) eqn:Hb; [done|]. exfalso.
    pose proof (readValue_loop_not_EOF body body scanner_reset 0 I) as Hne.
    rewrite nonSpace_allSpace, Hb in Hne. specialize (Hne eq_refl).
    fold (readValue body) in Hne.
    destruct (readValue body) as [e|n]; [|by unfold unmarshalRaw in H].
    destruct e; done.
  - intros e. unfold DecodeJSON. rewrite Decode_top.
    destruct (readValue body) as [e'|n] eqn:Hr; [|by unfold unmarshalRaw].
    apply readValue_loop_error in Hr as [->|[->|(c & ctx & ->)]]; [| | |done].
    + intros [= <-]. auto.
    + intros [= <-]. auto.
    + intros [= <-]. eauto.
Qed.

(** X11: [DecodeJSON] reads one value and never looks at what follows it:
    a body that holds a JSON value and then anything that begins with a byte
    that cannot continue a number decodes, into a raw message, as that
    value. *)
Theorem DecodeJSON_first_value (ws v : bytes) (c : byte) (rest : bytes) :
  allSpace ws = true → rawValue v = true → delimiting c = true →
  DecodeJSON unmarshalRaw (ws ++ v ++ c :: rest) = inr v.
Proof.
  intros Hws Hv Hc. unfold DecodeJSON. rewrite Decode_top.
  rewrite readValue_value by done.
  replace (ws ++ v ++ c :: rest) with ((ws ++ v) ++ c :: rest) by (by rewrite <-app_assoc).
  rewrite <-length_app, take_app_length.
  unfold unmarshalRaw. rewrite skipSpace_app by done.
  unfold rawValue in Hv. apply andb_true_iff in Hv as [Hv _].
  destruct v as [|a v]; [done|]. apply negb_true_iff in Hv.
  by rewrite skipSpace_nonspace.
Qed.

Lemma DecodeJSON_first_value_witness :
  DecodeJSON unmarshalRaw
    (lit " " ++ (lit "{" ++ [dquote] ++ lit "ok" ++ [dquote] ++ lit ":true}")
       ++ "}" :: lit " trailing")
  = inr (lit "{" ++ [dquote] ++ lit "ok" ++ [dquote] ++ lit ":true}").
Proof.
  apply (DecodeJSON_first_value (lit " ")
           (lit "{" ++ [dquote] ++ lit "ok" ++ [dquote] ++ lit ":true}")
           "}" (lit " trailing")).
  - reflexivity.
  - vm_compute. reflexivity.
  - reflexivity.
Defined.

(** ** Attachments *)

(** X12: [setSize] leaves an attachment of positive size as it is.
    Otherwise it reads the content to its end or to its failure, returns
    the failure, and leaves an attachment whose content is the bytes read,
    without failure, and whose size is their number.  A second call changes
    nothing and returns no error, also after a failure. *)
Theorem setSize_once (a : SizedAttachment) :
  let a' := fst (setSize a) in
  setSize a' = (a', None)
  ∧ ContentType a' = ContentType a
  ∧ content (Content a') = content (Content a)
  ∧ ((0 < Size a)%Z → setSize a = (a, None))
  ∧ ((Size a ≤ 0)%Z →
     Size a' = Z.of_nat (length (content (Content a')))
     ∧ failure (Content a') = None
     ∧ snd (setSize a) = failure (Content a)).
Proof.
  cbn zeta. unfold setSize.
  destruct (0 <? Size a)%Z eqn:Hs;
    cbn [fst snd Size att Content ContentType content failure]; rewrite ?Hs.
  - apply Z.ltb_lt in Hs. repeat split; try done; lia.
  - apply Z.ltb_ge in Hs. split; [|repeat split; try done; lia].
    destruct (content (Content a)) as [|c l] eqn:Hc; [done|].
    by cbn [length Z.of_nat Z.ltb Z.compare].
Qed.

(** ** Creating a document *)

(** X13: after [fullCommit] has accepted the options, [CreateDoc] fails
    with the bad-request status, whatever the server would answer, when an
    option has a value of an unsupported type.  Otherwise it posts to the
    database name, followed when there are options by a question mark and
    the encoded parameters, and returns the ID, the revision and the error
    of that exchange as they are; the path does not depend on the order in
    which the options are visited. *)
Theorem CreateDoc_request
    (fullCommit : bool → OptionSet → (error + bool) * OptionSet)
    (DoJSON : Method → bytes → chttpOptions → option error * putResult)
    (dbName : bytes) (doc : BodyArg) (options options' : OptionSet)
    (order : list (string * OptValue)) (fc : bool) :
  fullCommit false options = (inr fc, options') →
  order ≡ₚ map_to_list options' →
  ((∃ k T, options' !! k = Some (OptOther T)) →
   ∃ msg, CreateDoc fullCommit DoJSON dbName doc options order
          = ([], [], Some (Statusf StatusBadRequest msg)))
  ∧ ((∀ k T, options' !! k ≠ Some (OptOther T)) →
     CreateDoc fullCommit DoJSON dbName doc options order
     = (let path :=
          if decide (size options' = 0%nat) then dbName
          else dbName ++ lit "?" ++ joinWith (lit "&") (queryPairs (paramsOf options')) in
        let '(err, result) := DoJSON MethodPost path (mkOptions (EncodeBody doc) fc) in
        (ID result, Rev result, err))).
Proof.
  intros Hfc Ho. unfold CreateDoc. rewrite Hfc. split.
  - intros (k & T & Hk).
    assert (0 < size options')%nat as Hsize.
    { destruct (decide (size options' = 0%nat)) as [H0|]; [|lia].
      apply map_size_empty_iff in H0. by rewrite H0, lookup_empty in Hk. }
    rewrite decide_True by done.
    destruct (optionsToParams_sets_invalid [options'] [order] ∅ options' k T)
      as [e He]; [constructor; [done|constructor]|by left|done|].
    unfold optionsToParams. rewrite He.
    apply (optionsToParams_sets_error [options']) in He
      as (_ & _ & T' & _ & _ & ->); [eauto|constructor; [done|constructor]].
  - intros Hok. cbn zeta.
    destruct (decide (size options' = 0%nat)) as [H0|H0].
    + by rewrite decide_False by lia.
    + rewrite decide_True by lia.
      by rewrite (optionsToParams_paramsOf options'), Values_Encode_pairs.
Qed.

Lemma CreateDoc_request_witness :
  CreateDoc (λ _ o, (inr true, delete "full_commit"%string o))
    (λ _ path _, (None, mkPutResult (lit "id1") path)) (lit "db")
    (BodyString (lit "{}"))
    (list_to_map [("batch"%string, OptString (lit "ok"));
                  ("full_commit"%string, OptBool true)])
    [("batch"%string, OptString (lit "ok"))]
  = (lit "id1", lit "db?batch=ok", None).
Proof.
  set (options := list_to_map [("batch"%string, OptString (lit "ok"));
                               ("full_commit"%string, OptBool true)] : OptionSet).
  assert ([("batch"%string, OptString (lit "ok"))]
          ≡ₚ map_to_list (delete "full_commit"%string options)) as Hperm
    by (vm_compute; reflexivity).
  assert (∀ k T, delete "full_commit"%string options !! k ≠ Some (OptOther T)) as Hok.
  { intros k T. unfold options. cbn [list_to_map foldr uncurry].
    destruct (decide (k = "full_commit"%string)) as [->|Hk].
    - by rewrite lookup_delete_eq.
    - rewrite lookup_delete_ne by done.
      rewrite lookup_insert. case_decide; [done|].
      rewrite lookup_insert_ne by done. by rewrite lookup_empty. }
  rewrite (proj2 (CreateDoc_request (λ _ o, (inr true, delete "full_commit"%string o))
                    (λ _ path _, (None, mkPutResult (lit "id1") path)) (lit "db")
                    (BodyString (lit "{}")) options
                    (delete "full_commit"%string options)
                    [("batch"%string, OptString (lit "ok"))] true eq_refl Hperm) Hok).
  vm_compute. reflexivity.
Defined.

(** ** The rewriter *)



(** X15: on an input that holds nothing but space, the empty input too, the
    rewriter writes [<nil>] and returns no error, whatever the replacement
    is. *)
Theorem copyWithAttachments_blank_input (r : bytes) (att : error + bytes) :
  allSpace r = true → copyWithAttachments r att = (lit "<nil>", None).
Proof. intros Hr. by apply copyWithAttachments_no_token, firstToken_EOF. Qed.

Lemma copyWithAttachments_blank_input_witness :
  copyWithAttachments (lit "  ") (inl EncodeError) = (lit "<nil>", None).
Proof. apply (copyWithAttachments_blank_input (lit "  ")). reflexivity. Defined.



(** ** The multipart body *)

(** X17: when the content of an attachment fails to read, the body holds
    the document part and the parts of the attachments visited so far, the
    last of them cut where its content failed, and no closing boundary; the
    read error is the terminal error of the body; the attachments visited
    before the failing one have been closed, the failing one and those after
    it have not, and no part is started for those after it. *)
Theorem multipartAttachments_read_failure (isPrintTable : Z → bool) (b r : bytes)
    (m : Attachments) (pre : list (string * Attachment)) (filename : string)
    (att : Attachment) (err : error) (post : list (string * Attachment))
    (doc : bytes) :
  rangeOf m (pre ++ (filename, att) :: post) →
  replaceAttachments r (Some m) = mkStream doc None →
  Forall (λ p, failure (Content (snd p)) = None) pre →
  failure (Content att) = Some err →
  multipartAttachments isPrintTable b r (Some m) (pre ++ (filename, att) :: post)
  = Returns
      {| mr_boundary := b;
         mr_body :=
           mkStream
             (joinWith crlf
                (map (partText b)
                   (documentPart doc
                      :: map (attachmentPart isPrintTable) (pre ++ [(filename, att)]))))
             (Some err);
         mr_closedAtts := pre.*1;
         mr_docCloses := 2 |}.
Proof. intros _. apply multipartAttachments_failure. Qed.

Lemma multipartAttachments_read_failure_witness :
  let a := mkAttachment (lit "text/plain") (mkStream (lit "hi") None) in
  let f := mkAttachment (lit "image/png") (mkStream (lit "PN") (Some (ReadError 1))) in
  multipartAttachments (λ _, false) (lit "B") (lit "{}")
    (Some (list_to_map [("a"%string, a); ("f"%string, f)]))
    ([("a"%string, a)] ++ ("f"%string, f) :: [])
  = Returns
      {| mr_boundary := lit "B";
         mr_body :=
           mkStream
             (joinWith crlf
                (map (partText (lit "B"))
                   (documentPart (lit "{}")
                      :: map (attachmentPart (λ _, false))
                           ([("a"%string, a)] ++ [("f"%string, f)]))))
             (Some (ReadError 1));
         mr_closedAtts := [("a"%string, a)].*1;
         mr_docCloses := 2 |}.
Proof.
  cbn zeta.
  apply (multipartAttachments_read_failure (λ _, false) (lit "B") (lit "{}")).
  - unfold rangeOf. vm_compute. reflexivity.
  - vm_compute. reflexivity.
  - constructor; [reflexivity|constructor].
  - reflexivity.
Defined.

(** X18: when the rewriting of the document fails, the body holds the
    document part alone, with what the rewriter wrote before it failed, and
    ends with the rewriter's error; no attachment is read or closed,
    whatever the attachments are.  When the rewriting succeeds and the
    pointer to the attachments is nil, the call panics. *)
Theorem multipartAttachments_document_failure (isPrintTable : Z → bool) (b r : bytes)
    (atts : option Attachments) (order : list (string * Attachment)) :
  (∀ e, failure (replaceAttachments r atts) = Some e →
     multipartAttachments isPrintTable b r atts order
     = Returns
         {| mr_boundary := b;
            mr_body :=
              mkStream
                (partText b (documentPart (content (replaceAttachments r atts))))
                (Some e);
            mr_closedAtts := [];
            mr_docCloses := 2 |})
  ∧ (failure (replaceAttachments r None) = None →
     multipartAttachments isPrintTable b r None order = Panics).
Proof.
  split.
  - intros e He. unfold multipartAttachments, createMultipart. rewrite He.
    cbn [up_w closedAtts docCloses boundary mw_out CreatePart NewWriter partWrite
         lastpart app].
    f_equal. f_equal. f_equal.
    unfold partText, documentPart, headerLines.
    cbn [sortByKey foldr insertByKey part_header part_body map concat].
    list_norm. done.
  - intros He. unfold multipartAttachments, createMultipart. by rewrite He.
Qed.

(** ** The header of an attachment part *)

(** X19: for a name of printable ASCII bytes other than the quote and the
    backslash, the disposition of the attachment part is
    [attachment; filename="name"], the name as it is. *)
Theorem attachmentHeader_printable (isPrintTable : Z → bool) (filename : string)
    (att : Attachment) :
  printableName (lit filename) = true →
  attachmentHeader isPrintTable filename att
  = [("Content-Type"%string, [ContentType att]);
     ("Content-Disposition"%string,
      [lit "attachment; filename=" ++ [dquote] ++ lit filename ++ [dquote]])].
Proof. intros H. unfold attachmentHeader. by rewrite Quote_printable. Qed.

Lemma attachmentHeader_printable_witness :
  attachmentHeader (λ _, false) "a b.png" (mkAttachment (lit "image/png") (mkStream [] None))
  = [("Content-Type"%string, [lit "image/png"]);
     ("Content-Disposition"%string,
      [lit "attachment; filename=" ++ [dquote] ++ lit "a b.png" ++ [dquote]])].
Proof.
  apply (attachmentHeader_printable (λ _, false) "a b.png"
           (mkAttachment (lit "image/png") (mkStream [] None))).
  reflexivity.
Defined.

(** ** The attachment extractor *)

(** X20: [extractAttachments] panics exactly on these documents: the nil
    interface, a nil pointer, also behind pointers; a map whose attachments
    entry is a nil [*kivik.Attachments]; a struct whose first field tagged
    with the attachments key is not exported or holds a nil
    [*kivik.Attachments]. *)
Theorem extractAttachments_panics (doc : Doc) (h : Heap) :
  extractAttachments doc h = Panics ↔ safeDoc doc = false.
Proof.
  induction doc as [| |d IH|m|fields|]; cbn [safeDoc extractAttachments]; try done.
  - unfold interfaceToAttachments.
    destruct (m !! "_attachments"%string) as [[t|[p|]|]|]; cbn [from_option id];
      try done.
    by destruct (moveEntries _ _ _).
  - apply extractFields_panics.
Qed.

(** ** Put *)

(** X21: [Put] returns no error exactly when the document ID is not empty,
    [fullCommit] accepts the options, the exchange succeeds and the server
    reports the ID that was requested; it then returns the revision the
    server reports.  Whenever it returns an error other than for a
    differing ID, the revision it returns is empty. *)
Theorem Put_outcome (Options : Type)
    (missingArg : bytes → error) (fullCommit : bool → Options → error + bool)
    (docPath : bytes → bytes)
    (DoJSON : Method → bytes → chttpOptions → option error * putResult)
    (docID : bytes) (doc : BodyArg) (options : Options) :
  let res := Put Options missingArg fullCommit docPath DoJSON docID doc options in
  let exchange fc := DoJSON MethodPut (docPath docID) (mkOptions (EncodeBody doc) fc) in
  (snd res = None
   ↔ docID ≠ []
     ∧ ∃ fc result, fullCommit false options = inr fc
                    ∧ exchange fc = (None, result)
                    ∧ ID result = docID ∧ fst res = Rev result)
  ∧ (fst res ≠ [] →
     ∃ fc result, fullCommit false options = inr fc
                  ∧ exchange fc = (None, result) ∧ fst res = Rev result).
Proof.
  cbn zeta. unfold Put.
  destruct (decide (docID = [])) as [->|Hid]; cbn [fst snd].
  { split; [split; [done|by intros [? _]]|done]. }
  destruct (fullCommit false options) as [e|fc]; cbn [fst snd].
  { split; [split; [done|by intros [_ (? & ? & ? & _)]]|done]. }
  destruct (DoJSON MethodPut (docPath docID) (mkOptions (EncodeBody doc) fc))
    as [[e|] result] eqn:Hdo; cbn [fst snd].
  { split; [split; [done|]|done].
    intros [_ (fc' & r' & [= <-] & Hr & _)]. congruence. }
  destruct (decide (ID result ≠ docID)) as [Hne|Heq]; cbn [fst snd].
  - split; [split; [done|]|eauto].
    intros [_ (fc' & r' & [= <-] & Hr & Hr' & _)]. congruence.
  - apply dec_stable in Heq. split; [split; [|done]|eauto].
    intros _. split; [done|]. eauto 10.
Qed.



(** X23: whatever the names and the content types of the attachments are,
    what the upload encoder writes in the place of the attachments value is
    one valid JSON value, followed by a newline; a nil attachment set gives
    [null]. *)
Theorem replacement_valid (atts : option Attachments) :
  ∃ js, Encode (attachmentStubs atts) = inr js
        ∧ Valid js = true
        ∧ (atts = None → js = lit "null" ++ ["010"]).
Proof.
  destruct (Encode (attachmentStubs atts)) as [e|js] eqn:He.
  { unfold Encode in He. by destruct (attachmentStubs atts). }
  exists js. split; [done|]. split; [by eapply Encode_valid|].
  intros ->. cbn in He. by injection He as <-.
Qed.

(** X24: extracting the attachments of a document a second time finds the
    attachments field again, now empty: the second call reports that
    attachments were found and returns an empty set, and the set that the
    first call returned still holds the entries. *)
Theorem extractAttachments_twice (doc : Doc) (h : Heap) (i : GoValue)
    (entries : Attachments) :
  safeDoc doc = true →
  attachmentsField doc = Some i → allocated h i → fieldEntries h i = Some entries →
  ∃ p h' p2 h2,
    extractAttachments doc h = Returns (Some p, true, h')
    ∧ extractAttachments doc h' = Returns (Some p2, true, h2)
    ∧ resultEntries h2 (Some p2) = ∅
    ∧ resultEntries h2 (Some p) = entries.
Proof.
  intros Hsafe Hi Halloc Hentries.
  setoid_rewrite (extractAttachments_field doc _ Hsafe). rewrite Hi.
  by apply interfaceToAttachments_twice.
Qed.

Lemma extractAttachments_twice_witness :
  let a := mkAttachment (lit "text/plain") (mkStream (lit "hi") None) in
  let h := mkHeap {[1%positive := {["a.txt"%string := a]}]} ∅ in
  let doc := DocPtr (DocMap {["_attachments"%string := GoAttachments (Some 1%positive)]}) in
  ∃ p h' p2 h2,
    extractAttachments doc h = Returns (Some p, true, h')
    ∧ extractAttachments doc h' = Returns (Some p2, true, h2)
    ∧ resultEntries h2 (Some p2) = ∅
    ∧ resultEntries h2 (Some p) = {["a.txt"%string := a]}.
Proof.
  cbn zeta.
  apply (extractAttachments_twice _ _ (GoAttachments (Some 1%positive))).
  - reflexivity.
  - reflexivity.
  - cbn [allocated h_maps]. by rewrite lookup_singleton_eq.
  - cbn [fieldEntries mapEntries h_maps]. by rewrite lookup_singleton_eq.
Defined.

(** X25: when the first token of the input is not an opening brace, the
    rewriter writes nothing and returns an error that names the token it
    found; when the first token cannot be decoded, it writes nothing and
    returns the error of the decoder. *)
Theorem copyWithAttachments_rejects (r : bytes) (att : error + bytes) :
  (∀ t, firstToken r = inr t → t ≠ TokDelim DelimLBrace →
        copyWithAttachments r att = ([], Some (ErrExpected DelimLBrace t)))
  ∧ (∀ e, firstToken r = inl e → e ≠ EOF →
          copyWithAttachments r att = ([], Some e)).
Proof.
  unfold firstToken. split.
  - intros t Ht Hne. apply (copyWithAttachments_fuel_enough 0).
    unfold copyWithAttachments_fuel.
    destruct (NextToken (NewDecoder r)) as [x d1]. cbn [fst] in Ht. subst x.
    by rewrite decide_False.
  - intros e He Hne. apply (copyWithAttachments_fuel_enough 0).
    unfold copyWithAttachments_fuel.
    destruct (NextToken (NewDecoder r)) as [x d1]. cbn [fst] in He. subst x.
    by rewrite decide_False.
Qed.

(** X26: the stubs do not depend on the order in which the attachments are
    visited: every order gives the map that holds, under the name of each
    attachment, the stub made from it. *)
Theorem attachmentStubs_any_order (m : Attachments) (order : list (string * Attachment)) :
  rangeOf m order →
  attachmentStubs_range order = stubOf <$> m
  ∧ attachmentStubs (Some m) = Some (attachmentStubs_range order).
Proof.
  intros Hr. split; [by apply attachmentStubs_range_fmap|].
  unfold attachmentStubs. f_equal.
  rewrite (attachmentStubs_range_fmap m order Hr).
  apply attachmentStubs_range_fmap. by unfold rangeOf.
Qed.

Lemma attachmentStubs_any_order_witness :
  let a := mkAttachment (lit "text/plain") (mkStream (lit "hi") None) in
  let b := mkAttachment (lit "image/png") (mkStream (lit "PNG") None) in
  let m : Attachments := list_to_map [("a"%string, a); ("b"%string, b)] in
  attachmentStubs_range [("b"%string, b); ("a"%string, a)] = stubOf <$> m
  ∧ attachmentStubs (Some m)
    = Some (attachmentStubs_range [("b"%string, b); ("a"%string, a)]).
Proof.
  cbn zeta.
  apply (attachmentStubs_any_order
           (list_to_map
              [("a"%string, mkAttachment (lit "text/plain") (mkStream (lit "hi") None));
               ("b"%string, mkAttachment (lit "image/png") (mkStream (lit "PNG") None))])
           [("b"%string, mkAttachment (lit "image/png") (mkStream (lit "PNG") None));
            ("a"%string, mkAttachment (lit "text/plain") (mkStream (lit "hi") None))]).
  unfold rangeOf. vm_compute. apply perm_swap.
Defined.

(** ** Reading the replacement back *)

(** X27: when the names of the attachments are valid UTF-8, the replacement
    that the upload encoder writes is read back by the JSON decoder as an
    object with exactly one member for each attachment, in the sorted order
    of the names: the key decodes to the name and the raw value is the
    encoding of the stub of that attachment. *)
Theorem replacement_decodes (m : Attachments) :
  (∀ name att, m !! name = Some att → utf8_Valid (lit name) = true) →
  ∃ stubs js members,
    attachmentStubs (Some m) = Some stubs
    ∧ stubs = stubOf <$> m
    ∧ Encode (Some stubs) = inr js
    ∧ firstToken js = inr (TokDelim DelimLBrace)
    ∧ memberTrace js = members ++ [EvToken (TokDelim DelimRBrace)]
    ∧ eventMember <$> members
      = (λ '(name, stub), Some (lit name, encodeMap encodeScalar stub))
          <$> sortByKey (map_to_list stubs).
Proof.
  intros Hnames.
  destruct (memberTrace_encodeMap (encodeMap encodeScalar) (stubOf <$> m) ["010"] eq_refl)
    as (Hfirst & members & Htrace & Hmem).
  { intros k v Hk. rewrite lookup_fmap in Hk.
    destruct (m !! k) as [att|] eqn:Hatt; [|done]. split; [by eapply Hnames|].
    apply rawValue_encodeMap. intros. apply encodeScalar_reads. }
  exists (stubOf <$> m), (encodeMap (encodeMap encodeScalar) (stubOf <$> m) ++ ["010"]),
    members.
  split; [|done].
  unfold attachmentStubs. f_equal. apply (attachmentStubs_range_fmap m).
  by unfold rangeOf.
Qed.

Lemma replacement_decodes_witness :
  let a := mkAttachment (lit "text/plain") (mkStream (lit "hi") None) in
  let m : Attachments := {["notes.txt"%string := a]} in
  ∃ stubs js members,
    attachmentStubs (Some m) = Some stubs
    ∧ stubs = stubOf <$> m
    ∧ Encode (Some stubs) = inr js
    ∧ firstToken js = inr (TokDelim DelimLBrace)
    ∧ memberTrace js = members ++ [EvToken (TokDelim DelimRBrace)]
    ∧ eventMember <$> members
      = (λ '(name, stub), Some (lit name, encodeMap encodeScalar stub))
          <$> sortByKey (map_to_list stubs).
Proof.
  cbn zeta.
  apply (replacement_decodes
           {["notes.txt"%string
             := mkAttachment (lit "text/plain") (mkStream (lit "hi") None)]}).
  intros name att [<- <-]%lookup_singleton_Some. reflexivity.
Defined.

(** X28: the encoding of the stub of an attachment is read back by the JSON
    decoder as an object with the two members [content_type] and [follows],
    in this order; the value of [follows] is [true], and when the declared
    content type is valid UTF-8 the value of [content_type] is a string
    literal that decodes to it. *)
Theorem stub_decodes (att : Attachment) :
  utf8_Valid (ContentType att) = true →
  let js := encodeMap encodeScalar (stubOf att) in
  firstToken js = inr (TokDelim DelimLBrace)
  ∧ ∃ members,
      memberTrace js = members ++ [EvToken (TokDelim DelimRBrace)]
      ∧ eventMember <$> members
        = [Some (lit "content_type", encodeString (ContentType att));
           Some (lit "follows", lit "true")]
      ∧ unquoteBytes (encodeString (ContentType att)) = Some (ContentType att).
Proof.
  intros Hct. cbn zeta.
  assert (sortByKey (map_to_list (stubOf att))
          = [("content_type"%string, VString (ContentType att));
             ("follows"%string, VBool true)]) as Hsorted by reflexivity.
  destruct (memberTrace_encodeMap encodeScalar (stubOf att) [] eq_refl)
    as (Hfirst & members & Htrace & Hmem).
  { intros k v Hk. apply elem_of_map_to_list in Hk.
    assert ((k, v) ∈ sortByKey (map_to_list (stubOf att))) as Hin.
    { rewrite Hsorted. unfold stubOf in Hk.
      apply elem_of_map_to_list in Hk.
      apply lookup_insert_Some in Hk as [[<- <-]|[_ Hk]]; [by left|].
      apply lookup_insert_Some in Hk as [[<- <-]|[_ Hk]]; [right; by left|].
      by rewrite lookup_empty in Hk. }
    rewrite Hsorted in Hin.
    apply elem_of_cons in Hin as [[= -> ->]|Hin];
      [|apply list_elem_of_singleton in Hin as [= -> ->]].
    - split; [reflexivity|]. apply rawValue_encodeString.
    - split; reflexivity. }
  rewrite app_nil_r in Hfirst, Htrace. split; [done|].
  exists members. split; [done|]. split; [|by apply unquoteBytes_encodeString].
  by rewrite Hmem, Hsorted.
Qed.

Lemma stub_decodes_witness :
  let att := mkAttachment (lit "text/plain; charset=utf-8") (mkStream (lit "hi") None) in
  let js := encodeMap encodeScalar (stubOf att) in
  firstToken js = inr (TokDelim DelimLBrace)
  ∧ ∃ members,
      memberTrace js = members ++ [EvToken (TokDelim DelimRBrace)]
      ∧ eventMember <$> members
        = [Some (lit "content_type", encodeString (ContentType att));
           Some (lit "follows", lit "true")]
      ∧ unquoteBytes (encodeString (ContentType att)) = Some (ContentType att).
Proof.
  cbn zeta.
  apply (stub_decodes
           (mkAttachment (lit "text/plain; charset=utf-8") (mkStream (lit "hi") None))).
  reflexivity.
Defined.
